(** * An open-addressing hash map with an insertion-ordered chain

    Shallow embedding of [src/hash_map.h] (class [HashMap]), the
    properties its specification states about it, and further
    properties of its member functions.  The file holds the
    class twice; the second copy is the first with the members renamed
    ([sz], [cp], [hasher]) and the private part put first.  The line
    numbers below are those of the first copy.

    Modelling conventions.
    - An [Item*] is a [ptr]: [None] is [nullptr], [Some a] the address of
      a heap-allocated [Item].  The items a table owns live in its
      [heap]; [new] picks an address that is not allocated, [delete]
      removes the address.
    - Every operation runs in the option monad.  [None] stands for
      behaviour the C++ program does not define (dereferencing a null or
      dangling pointer, indexing [storage] out of range, [%] by zero) and
      for a loop that does not come to an end.  The loops of the source
      that have no bound of their own ([find_pos], [find_next], the
      compaction loop of [erase], the walks along [next]) take a fuel
      argument; the totality theorems show that the fuel the model hands
      them is enough in every reachable state.
    - [size_t] values are natural numbers.  The element count is bounded
      by the number of live allocations, so the products [size_ * 4] and
      [capacity_ * 3] of the source stay far below [2^64]. *)

From stdpp Require Import gmap list fin_maps.

(* stdpp's solvers clear hypotheses by name, present or not. *)
#[local] Set Warnings "-clear-no-such-hyp".

Abbreviation ptr := (option nat) (only parsing).

(** ** Cyclic index arithmetic (independent of the heap) *)

(** [is_in_range], hash_map.h:401. *)
Definition is_in_range (i from to : nat) : bool :=
  if bool_decide (from ≤ to)
  then bool_decide (from ≤ i) && bool_decide (i ≤ to)
  else bool_decide (i ≤ to) || bool_decide (from ≤ i).

(** Number of [cyclic_inc] steps that lead from [a] to [b] in a cycle of
    [n] slots (for [a, b < n]). *)
Definition cdist (n a b : nat) : nat :=
  if bool_decide (a ≤ b) then b - a else b + n - a.

(** One [cyclic_inc] step in a cycle of [n] slots. *)
Definition cinc (n i : nat) : nat :=
  if bool_decide (S i = n) then 0 else S i.

Section HashMap.

Context {KeyType ValueType Hash : Type}.
Context `{!EqDecision KeyType}.

(** [Hash::operator()], and the default constructors [KeyType()],
    [ValueType()] and [Hash()] the source calls. *)
Variable hash_call : Hash → KeyType → nat.
Variable KeyType_default : KeyType.
Variable ValueType_default : ValueType.
Variable Hash_default : Hash.

(** ** Data *)

(** [class Item], hash_map.h:297. *)
Record Item := mkItem {
  keyValue : KeyType * ValueType;
  prev : ptr;
  next : ptr;
  pos : nat
}.

(** The data members of [HashMap], hash_map.h:291-354, and the items the
    table owns. *)
Record HashMap := mkHashMap {
  size_ : nat;
  capacity_ : nat;
  hasher_ : Hash;
  _begin : ptr;
  _end : ptr;
  storage : list ptr;
  heap : gmap nat Item
}.

Definition set_prev (p : ptr) (it : Item) : Item :=
  mkItem (keyValue it) p (next it) (pos it).
Definition set_next (p : ptr) (it : Item) : Item :=
  mkItem (keyValue it) (prev it) p (pos it).
Definition set_pos (i : nat) (it : Item) : Item :=
  mkItem (keyValue it) (prev it) (next it) i.
Definition set_value (v : ValueType) (it : Item) : Item :=
  mkItem ((keyValue it).1, v) (prev it) (next it) (pos it).

Definition with_heap (h : gmap nat Item) (t : HashMap) : HashMap :=
  mkHashMap (size_ t) (capacity_ t) (hasher_ t) (_begin t) (_end t) (storage t) h.
Definition with_begin (b : ptr) (t : HashMap) : HashMap :=
  mkHashMap (size_ t) (capacity_ t) (hasher_ t) b (_end t) (storage t) (heap t).
Definition with_storage (s : list ptr) (t : HashMap) : HashMap :=
  mkHashMap (size_ t) (capacity_ t) (hasher_ t) (_begin t) (_end t) s (heap t).
Definition with_size (n : nat) (t : HashMap) : HashMap :=
  mkHashMap n (capacity_ t) (hasher_ t) (_begin t) (_end t) (storage t) (heap t).
Definition with_capacity (n : nat) (t : HashMap) : HashMap :=
  mkHashMap (size_ t) n (hasher_ t) (_begin t) (_end t) (storage t) (heap t).

(** ** Memory access *)

(** [*p]: defined for the address of a live item only. *)
Definition load (h : gmap nat Item) (p : ptr) : option Item :=
  a ← p; h !! a.

(** Assignment to a field of [*p], as an update [f] of the item. *)
Definition modify (f : Item → Item) (p : ptr) (h : gmap nat Item)
  : option (gmap nat Item) :=
  a ← p; it ← h !! a; Some (<[a := f it]> h).

(** [v[i]] read and [v[i] = x] on a [std::vector]: in range only. *)
Definition vget (s : list ptr) (i : nat) : option ptr := s !! i.
Definition vset (s : list ptr) (i : nat) (x : ptr) : option (list ptr) :=
  if bool_decide (i < length s) then Some (<[i := x]> s) else None.

(** ** [Item]: linking and unlinking *)

(** [Item::connect], hash_map.h:300, run on the item at [this]. *)
Definition connect (this : nat) (h : gmap nat Item) : option (gmap nat Item) :=
  it ← h !! this;
  h1 ← (if bool_decide (next it ≠ None)
        then modify (set_prev (Some this)) (next it) h else Some h);
  if bool_decide (prev it ≠ None)
  then modify (set_next (Some this)) (prev it) h1 else Some h1.

(** [Item::disconnect], hash_map.h:311. *)
Definition disconnect (this : nat) (h : gmap nat Item) : option (gmap nat Item) :=
  it ← h !! this;
  h1 ← (if bool_decide (next it ≠ None)
        then modify (set_prev (prev it)) (next it) h else Some h);
  if bool_decide (prev it ≠ None)
  then modify (set_next (next it)) (prev it) h1 else Some h1.

(** [new Item(key, value, prev, next)], hash_map.h:328.  The member [pos]
    is left uninitialised by the constructor; the model puts 0 there. *)
Definition new_Item (kv : KeyType * ValueType) (p n : ptr) (h : gmap nat Item)
  : option (nat * gmap nat Item) :=
  let a := fresh (dom h) in
  h' ← connect a (<[a := mkItem kv p n 0]> h);
  Some (a, h').

(** [new Item(prev, next)], hash_map.h:337: key and value are
    default-constructed. *)
Definition new_sentinel (p n : ptr) (h : gmap nat Item)
  : option (nat * gmap nat Item) :=
  new_Item (KeyType_default, ValueType_default) p n h.

(** [delete item] for a non-null [item]: the destructor [~Item] unlinks,
    then the storage is released. *)
Definition delete_Item (a : nat) (h : gmap nat Item) : option (gmap nat Item) :=
  h' ← disconnect a h;
  Some (delete a h').

(** ** Private member functions *)

(** [init], hash_map.h:357, on the members of a table under construction
    with hasher [hs]. *)
Definition init (hs : Hash) : option HashMap :=
  '(e, h) ← new_sentinel None None ∅;
  Some (mkHashMap 0 1 hs (Some e) (Some e) (replicate 1 None) h).

(** [get_hash], hash_map.h:380. *)
Definition get_hash (t : HashMap) (key : KeyType) : option nat :=
  if bool_decide (capacity_ t = 0) then None
  else Some (hash_call (hasher_ t) key mod capacity_ t).

(** [cyclic_inc], hash_map.h:392. *)
Definition cyclic_inc (t : HashMap) (i : nat) : nat :=
  let i := S i in
  if bool_decide (i = capacity_ t) then 0 else i.

(** The loop of [find_pos], hash_map.h:414, from index [i]. *)
Fixpoint find_pos_loop (t : HashMap) (key : KeyType) (fuel i : nat) : option nat :=
  match fuel with
  | 0 => None
  | S fuel' =>
      p ← vget (storage t) i;
      match p with
      | None => Some i
      | Some a =>
          it ← heap t !! a;
          if bool_decide ((keyValue it).1 = key) then Some i
          else find_pos_loop t key fuel' (cyclic_inc t i)
      end
  end.

(** [find_pos], hash_map.h:411.  A scan that has looked at [capacity_]
    slots has seen every slot it will ever see. *)
Definition find_pos (t : HashMap) (key : KeyType) : option nat :=
  hash ← get_hash t key;
  find_pos_loop t key (capacity_ t) hash.

(** The loop of [find_next], hash_map.h:426, from index [i]. *)
Fixpoint find_next_loop (t : HashMap) (pos : nat) (fuel i : nat) : option nat :=
  match fuel with
  | 0 => None
  | S fuel' =>
      p ← vget (storage t) i;
      match p with
      | None => Some i
      | Some a =>
          it ← heap t !! a;
          hash ← get_hash t (keyValue it).1;
          if negb (is_in_range hash (cyclic_inc t pos) i) then Some i
          else find_next_loop t pos fuel' (cyclic_inc t i)
      end
  end.

(** [find_next], hash_map.h:425. *)
Definition find_next (t : HashMap) (pos : nat) : option nat :=
  find_next_loop t pos (capacity_ t) (cyclic_inc t pos).

(** [insert_item], hash_map.h:438. *)
Definition insert_item (item : ptr) (t : HashMap) : option HashMap :=
  it ← load (heap t) item;
  pos ← find_pos t (keyValue it).1;
  p ← vget (storage t) pos;
  if bool_decide (p = None) then
    s ← vset (storage t) pos item;
    q ← vget s pos;
    h ← modify (set_pos pos) q (heap t);
    Some (with_size (S (size_ t)) (with_heap h (with_storage s t)))
  else Some t.

(** The loop of [resize], hash_map.h:374, standing at [item]. *)
Fixpoint resize_loop (fuel : nat) (item : ptr) (t : HashMap) : option HashMap :=
  if bool_decide (item ≠ _end t) then
    match fuel with
    | 0 => None
    | S fuel' =>
        t' ← insert_item item t;
        it ← load (heap t') item;
        resize_loop fuel' (next it) t'
    end
  else Some t.

(** [resize], hash_map.h:368.  The walk visits each live item at most
    once. *)
Definition resize (newCapacity : nat) (t : HashMap) : option HashMap :=
  let t := with_storage (replicate newCapacity None) t in
  let t := with_capacity newCapacity t in
  let t := with_size 0 t in
  resize_loop (size (heap t)) (_begin t) t.

(** [resize_if_need], hash_map.h:385. *)
Definition resize_if_need (t : HashMap) : option HashMap :=
  if bool_decide (capacity_ t * 3 ≤ size_ t * 4)
  then resize (capacity_ t * 2) t
  else Some t.

(** [create_item], hash_map.h:449. *)
Definition create_item (key : KeyType) (value : ValueType) (t : HashMap)
  : option (ptr * HashMap) :=
  e ← load (heap t) (_end t);
  '(a, h) ← new_Item (key, value) (prev e) (_end t) (heap t);
  it ← h !! a;
  let t := with_heap h t in
  let t := if bool_decide (prev it = None) then with_begin (Some a) t else t in
  Some (Some a, t).

(** [delete_item], hash_map.h:458. *)
Definition delete_item (item : ptr) (t : HashMap) : option HashMap :=
  match item with
  | None => Some t
  | Some a =>
      t ← (if bool_decide (item = _begin t)
           then b ← load (heap t) (_begin t); Some (with_begin (next b) t)
           else Some t);
      h ← delete_Item a (heap t);
      Some (with_heap h t)
  end.

(** [delete_all], hash_map.h:470. *)
Definition delete_all (t : HashMap) : option HashMap :=
  t ← foldl (λ acc p, t ← acc; delete_item p t) (Some t) (storage t);
  let t := with_storage (replicate 1 None) t in
  let t := with_begin (_end t) t in
  let t := with_capacity 1 t in
  Some (with_size 0 t).

(** ** Public member functions *)

(** [size], hash_map.h:66, and [empty], hash_map.h:72. *)
Definition size (t : HashMap) : nat := size_ t.
Definition empty (t : HashMap) : bool := bool_decide (size_ t = 0).

(** [hash_function], hash_map.h:77. *)
Definition hash_function (t : HashMap) : Hash := hasher_ t.

(** [insert], hash_map.h:82. *)
Definition insert (keyValue : KeyType * ValueType) (t : HashMap) : option HashMap :=
  let key := keyValue.1 in
  let value := keyValue.2 in
  pos ← find_pos t key;
  p ← vget (storage t) pos;
  if bool_decide (p = None) then
    '(item, t) ← create_item key value t;
    s ← vset (storage t) pos item;
    q ← vget s pos;
    h ← modify (set_pos pos) q (heap t);
    let t := with_size (S (size_ t)) (with_heap h (with_storage s t)) in
    resize_if_need t
  else Some t.

(** The [while] loop of [erase], hash_map.h:107. *)
Fixpoint erase_loop (fuel pos nextPos : nat) (t : HashMap) : option HashMap :=
  p ← vget (storage t) nextPos;
  if bool_decide (p ≠ None) then
    match fuel with
    | 0 => None
    | S fuel' =>
        s ← vset (storage t) pos p;
        s ← vset s nextPos None;
        q ← vget s pos;
        h ← modify (set_pos pos) q (heap t);
        let t := with_heap h (with_storage s t) in
        let pos := nextPos in
        nextPos ← find_next t pos;
        erase_loop fuel' pos nextPos t
    end
  else Some t.

(** [erase], hash_map.h:98.  The hole only moves forward and never past
    a slot that was empty before, so it moves fewer than [capacity_]
    times. *)
Definition erase (key : KeyType) (t : HashMap) : option HashMap :=
  pos ← find_pos t key;
  p ← vget (storage t) pos;
  if bool_decide (p ≠ None) then
    t ← delete_item p t;
    s ← vset (storage t) pos None;
    let t := with_size (size_ t - 1) (with_storage s t) in
    nextPos ← find_next t pos;
    t ← erase_loop (capacity_ t) pos nextPos t;
    resize_if_need t
  else Some t.

(** [begin] and [end], hash_map.h:199-216; an iterator is the [Item*] it
    wraps, and iterators compare by that pointer. *)
Definition begin (t : HashMap) : ptr := _begin t.
Definition end_ (t : HashMap) : ptr := _end t.

(** [iterator::operator*] and [iterator::operator++], hash_map.h:135-142. *)
Definition iterator_deref (t : HashMap) (it : ptr) : option (KeyType * ValueType) :=
  item ← load (heap t) it; Some (keyValue item).
Definition iterator_incr (t : HashMap) (it : ptr) : option ptr :=
  item ← load (heap t) it; Some (next item).

(** [iterator::operator==] and [iterator::operator!=], hash_map.h:150-156. *)
Definition iterator_eq (it other : ptr) : bool := bool_decide (it = other).
Definition iterator_ne (it other : ptr) : bool := bool_decide (it ≠ other).

(** [iterator::operator++(int)], hash_map.h:144: the iterator it returns,
    and the iterator after the step. *)
Definition iterator_post_incr (t : HashMap) (it : ptr) : option (ptr * ptr) :=
  item ← load (heap t) it; Some (it, next item).

(** The client loop [for (it = begin(); it != end(); ++it)] collecting
    [*it]. *)
Fixpoint iterate_loop (fuel : nat) (t : HashMap) (it : ptr)
  : option (list (KeyType * ValueType)) :=
  if bool_decide (it ≠ end_ t) then
    match fuel with
    | 0 => None
    | S fuel' =>
        kv ← iterator_deref t it;
        it' ← iterator_incr t it;
        rest ← iterate_loop fuel' t it';
        Some (kv :: rest)
    end
  else Some [].

Definition iterate (t : HashMap) : option (list (KeyType * ValueType)) :=
  iterate_loop (base.size (heap t)) t (begin t).

(** [find], hash_map.h:221. *)
Definition find (key : KeyType) (t : HashMap) : option ptr :=
  pos ← find_pos t key;
  p ← vget (storage t) pos;
  if bool_decide (p = None) then Some (_end t) else Some p.

(** [operator[]], hash_map.h:245.  The reference it returns is the member
    [keyValue.second] of the item whose address is returned here. *)
Definition operator_index (key : KeyType) (t : HashMap) : option (nat * HashMap) :=
  pos ← find_pos t key;
  p ← vget (storage t) pos;
  '(pos, t) ← (if bool_decide (p = None) then
                 '(item, t) ← create_item key ValueType_default t;
                 s ← vset (storage t) pos item;
                 q ← vget s pos;
                 h ← modify (set_pos pos) q (heap t);
                 let t := with_size (S (size_ t)) (with_heap h (with_storage s t)) in
                 t ← resize_if_need t;
                 pos ← find_pos t key;
                 Some (pos, t)
               else Some (pos, t));
  p ← vget (storage t) pos;
  a ← p;
  _ ← heap t !! a;
  Some (a, t).

(** Reading and writing through a reference to [keyValue.second]. *)
Definition read_ref (a : nat) (t : HashMap) : option ValueType :=
  it ← heap t !! a; Some (keyValue it).2.
Definition write_ref (a : nat) (v : ValueType) (t : HashMap) : option HashMap :=
  h ← modify (set_value v) (Some a) (heap t); Some (with_heap h t).

(** The exception [at] throws. *)
Inductive exception := out_of_range.

(** [at], hash_map.h:262: [inl] is a [throw], [inr] the value read
    through the returned reference. *)
Definition at_ (key : KeyType) (t : HashMap) : option (exception + ValueType) :=
  pos ← find_pos t key;
  p ← vget (storage t) pos;
  if bool_decide (p = None) then Some (inl out_of_range)
  else it ← load (heap t) p; Some (inr (keyValue it).2).

(** The loop of [clear], hash_map.h:275, standing at [item]. *)
Fixpoint clear_loop (fuel : nat) (item : ptr) (t : HashMap) : option HashMap :=
  if bool_decide (item ≠ _end t) then
    match fuel with
    | 0 => None
    | S fuel' =>
        it ← load (heap t) item;
        let next := next it in
        s ← vset (storage t) (pos it) None;
        t ← delete_item item (with_storage s t);
        clear_loop fuel' next t
    end
  else Some t.

(** [clear], hash_map.h:273. *)
Definition clear (t : HashMap) : option HashMap :=
  t ← clear_loop (base.size (heap t)) (_begin t) t;
  Some (with_size 0 t).

(** [~HashMap], hash_map.h:285: what is left of the heap of the table.
    [delete] of a null pointer does nothing. *)
Definition destructor (t : HashMap) : option (gmap nat Item) :=
  t ← delete_all t;
  match _end t with
  | None => Some (heap t)
  | Some e => delete_Item e (heap t)
  end.

(** ** Constructors and assignment *)

(** The constructors take the hasher as a last argument with the
    default value [Hash()]; [None] is a call that leaves it out. *)
Definition hasher_arg (hasher : option Hash) : Hash :=
  default Hash_default hasher.

(** [HashMap(const Hash&)], hash_map.h:20. *)
Definition HashMap_new (hasher : option Hash) : option HashMap :=
  init (hasher_arg hasher).

(** The loop that calls [insert] on each pair of a sequence given by two
    iterators or by an initializer list, in order. *)
Fixpoint insert_each (l : list (KeyType * ValueType)) (t : HashMap) : option HashMap :=
  match l with
  | [] => Some t
  | kv :: l' => t' ← insert kv t; insert_each l' t'
  end.

(** [HashMap(Iter, Iter, const Hash&)], hash_map.h:26, and
    [HashMap(std::initializer_list, const Hash&)], hash_map.h:35. *)
Definition HashMap_of_list (l : list (KeyType * ValueType)) (hasher : option Hash)
  : option HashMap :=
  t ← init (hasher_arg hasher); insert_each l t.

(** The loop from [other.begin()] to [other.end()] of the copy
    constructor and of [operator=], which calls [insert] on each pair it
    meets; the source [other] is another object than the table filled. *)
Fixpoint insert_from (fuel : nat) (other : HashMap) (it : ptr) (t : HashMap)
  : option HashMap :=
  if bool_decide (it ≠ end_ other) then
    match fuel with
    | 0 => None
    | S fuel' =>
        kv ← iterator_deref other it;
        t' ← insert kv t;
        it' ← iterator_incr other it;
        insert_from fuel' other it' t'
    end
  else Some t.

(** [HashMap(const HashMap&, const Hash&)], hash_map.h:46. *)
Definition HashMap_copy (other : HashMap) (hasher : option Hash) : option HashMap :=
  t ← init (hasher_arg hasher);
  insert_from (base.size (heap other)) other (begin other) t.

(** [operator=], hash_map.h:55.  Tables are objects in a store, named by
    their address; [this] and [other] may name the same object. *)
Definition operator_assign (this other : nat) (objs : gmap nat HashMap)
  : option (gmap nat HashMap) :=
  if bool_decide (other ≠ this) then
    t ← objs !! this;
    o ← objs !! other;
    t ← delete_all t;
    t ← insert_from (base.size (heap o)) o (begin o) t;
    Some (<[this := t]> objs)
  else
    _ ← objs !! this;
    Some objs.

(** ** The slot array seen as keys

    What [find_pos] and [find_next] read of the table: per slot, the key
    of the item the slot points to. *)

Definition key_view (h : gmap nat Item) (s : list ptr) : list (option KeyType) :=
  (λ p : ptr, a ← p; it ← h !! a; Some (keyValue it).1) <$> s.

(** A cyclic scan over [n] slots from [i] that returns the first index
    at which [stop] holds. *)
Fixpoint cscan (n : nat) (stop : nat → option KeyType → bool)
    (ks : list (option KeyType)) (fuel i : nat) : option nat :=
  match fuel with
  | 0 => None
  | S fuel' =>
      c ← ks !! i;
      if stop i c then Some i else cscan n stop ks fuel' (cinc n i)
  end.

(** Where the scan of [find_pos] for [key] stops: at an empty slot or at
    the key. *)
Definition stop_find (key : KeyType) (i : nat) (c : option KeyType) : bool :=
  match c with
  | None => true
  | Some k => bool_decide (k = key)
  end.

(** Where the scan of [find_next] for the hole [pos] stops: at an empty
    slot or at a key whose home slot is out of the range [is_in_range]
    tests. *)
Definition stop_next (n : nat) (home : KeyType → nat) (pos i : nat)
    (c : option KeyType) : bool :=
  match c with
  | None => true
  | Some k => negb (is_in_range (home k) (cinc n pos) i)
  end.

(** The contiguity-of-probe invariant of a slot array of [n] slots: every
    slot met on the way from a key's home slot to the slot that holds the
    key is occupied. *)
Definition probe_inv (n : nat) (home : KeyType → nat) (ks : list (option KeyType)) : Prop :=
  ∀ i k x, ks !! i = Some (Some k) → x < n →
    cdist n (home k) x < cdist n (home k) i → ∃ k', ks !! x = Some (Some k').

(** The same with one slot [p], the hole a deletion has opened, let off. *)
Definition probe_inv_hole (n : nat) (home : KeyType → nat) (p : nat)
    (ks : list (option KeyType)) : Prop :=
  ∀ i k x, ks !! i = Some (Some k) → x < n → x ≠ p →
    cdist n (home k) x < cdist n (home k) i → ∃ k', ks !! x = Some (Some k').

(** * Definitions for the specification

    The invariants of the table and of its chain, the lists of pairs
    the operations are compared with, and the predicates the properties
    of the specification are stated with. *)

(** First address of the segment [L], or what follows the segment. *)
Definition hd_ptr (L : list nat) (q : ptr) : ptr :=
  match L with
  | [] => q
  | a :: _ => Some a
  end.

(** Last address of the segment [L], or what precedes the segment. *)
Fixpoint last_ptr (L : list nat) (p : ptr) : ptr :=
  match L with
  | [] => p
  | a :: L' => last_ptr L' (Some a)
  end.

(** The items at the addresses [L] form a doubly linked segment, in this
    order: [p] is the [prev] of the first and [q] the [next] of the
    last. *)
Fixpoint dll (h : gmap nat Item) (p : ptr) (L : list nat) (q : ptr) : Prop :=
  match L with
  | [] => True
  | a :: L' =>
      ∃ it, h !! a = Some it ∧ prev it = p ∧ next it = hd_ptr L' q ∧
            dll h (Some a) L' q
  end.

(** The heap of a table holds the chain [l] of data items, which starts
    at [b], and then the sentinel [e], and nothing else. *)
Definition chain_inv (h : gmap nat Item) (b e : ptr) (l : list nat) : Prop :=
  ∃ ea, e = Some ea ∧ NoDup (l ++ [ea]) ∧ dom h = list_to_set (l ++ [ea]) ∧
        b = hd_ptr l e ∧ dll h None (l ++ [ea]) None.

(** What a table operation leaves alone in the items it does not create
    or destroy: key, value and recorded position. *)
Definition payload_kept (h h' : gmap nat Item) (x : nat) : Prop :=
  ∀ it, h !! x = Some it →
    ∃ it', h' !! x = Some it' ∧ keyValue it' = keyValue it ∧ pos it' = pos it.

(** Home slot of a key. *)
Definition home (t : HashMap) (k : KeyType) : nat :=
  hash_call (hasher_ t) k mod capacity_ t.

(** The key view of the slot array of [t]. *)
Definition slot_keys (t : HashMap) : list (option KeyType) :=
  key_view (heap t) (storage t).

(** The entries of a table, as (address of the item, pair it holds), in
    chain order: each address holds its pair. *)
Definition items_ok (h : gmap nat Item) (es : list (nat * (KeyType * ValueType))) : Prop :=
  ∀ a kv, (a, kv) ∈ es → ∃ it, h !! a = Some it ∧ keyValue it = kv.

(** What every state of every operation keeps: the chain is the list of
    entries, and no key occurs twice in it. *)
Definition wf (t : HashMap) (es : list (nat * (KeyType * ValueType))) : Prop :=
  chain_inv (heap t) (_begin t) (_end t) (es.*1) ∧
  items_ok (heap t) es ∧
  NoDup (es.*2.*1) ∧
  0 < capacity_ t ∧ length (storage t) = capacity_ t.

(** Every occupied slot points to an item of [l] that records this
    slot. *)
Definition slots_ok (h : gmap nat Item) (s : list ptr) (l : list nat) : Prop :=
  ∀ i a, s !! i = Some (Some a) →
    a ∈ l ∧ ∃ it, h !! a = Some it ∧ pos it = i.

(** No slot holds a dangling pointer. *)
Definition live (h : gmap nat Item) (s : list ptr) : Prop :=
  ∀ i a, s !! i = Some (Some a) → is_Some (h !! a).

(** Every item of [l] is in the slot it records. *)
Definition placed (h : gmap nat Item) (s : list ptr) (l : list nat) : Prop :=
  ∀ a, a ∈ l → ∃ it, h !! a = Some it ∧ s !! pos it = Some (Some a).

(** A table whose slot array holds exactly the items [l] of its chain,
    with the probe invariant. *)
Definition slotted (t : HashMap) (es : list (nat * (KeyType * ValueType)))
    (l : list nat) : Prop :=
  wf t es ∧
  slots_ok (heap t) (storage t) l ∧ placed (heap t) (storage t) l ∧
  probe_inv (capacity_ t) (home t) (slot_keys t).

(** The invariant of the table between two public operations. *)
Definition Inv (t : HashMap) (es : list (nat * (KeyType * ValueType))) : Prop :=
  slotted t es (es.*1) ∧
  size_ t = length es ∧
  size_ t * 4 < capacity_ t * 3.

(** The heap [h'] is [h] with some recorded positions rewritten, and
    nothing else changed. *)
Definition pos_updated (h h' : gmap nat Item) : Prop :=
  ∀ x, (h !! x = None ∧ h' !! x = None) ∨
       (∃ it j, h !! x = Some it ∧ h' !! x = Some (set_pos j it)).

(** The table [t] holds the pairs [l], in iteration order. *)
Definition represents (t : HashMap) (l : list (KeyType * ValueType)) : Prop :=
  ∃ es, Inv t es ∧ es.*2 = l.

(** A table in the middle of a deletion: the slot [p] has been emptied,
    and the probe invariant holds up to this hole. *)
Definition holed (t : HashMap) (es : list (nat * (KeyType * ValueType)))
    (p : nat) : Prop :=
  wf t es ∧
  slots_ok (heap t) (storage t) (es.*1) ∧ placed (heap t) (storage t) (es.*1) ∧
  probe_inv_hole (capacity_ t) (home t) p (slot_keys t) ∧
  storage t !! p = Some None.

(** [insert] on the list of pairs of a table. *)
Definition insert_abs (kv : KeyType * ValueType) (l : list (KeyType * ValueType))
  : list (KeyType * ValueType) :=
  if decide (kv.1 ∈ l.*1) then l else l ++ [kv].

(** [erase] on the list of pairs of a table. *)
Definition erase_abs (key : KeyType) (l : list (KeyType * ValueType))
  : list (KeyType * ValueType) :=
  filter (λ kv, kv.1 ≠ key) l.

(** A sequence of calls of [insert], on the list of pairs. *)
Definition insert_each_abs (l acc : list (KeyType * ValueType))
  : list (KeyType * ValueType) :=
  foldl (λ acc kv, insert_abs kv acc) acc l.

(** The entries after the value at address [a] has been overwritten. *)
Definition set_entry (a : nat) (v : ValueType)
    (es : list (nat * (KeyType * ValueType))) : list (nat * (KeyType * ValueType)) :=
  (λ e, if decide (e.1 = a) then (e.1, (e.2.1, v)) else e) <$> es.

(** The tables a client can build: by the constructors, and from there
    by the public member functions that change a table and by
    assignments through the references and iterators they hand out. *)
Inductive reachable : HashMap → Prop :=
  | reach_new hasher t :
      HashMap_new hasher = Some t → reachable t
  | reach_of_list l hasher t :
      HashMap_of_list l hasher = Some t → reachable t
  | reach_copy other hasher t :
      reachable other → HashMap_copy other hasher = Some t → reachable t
  | reach_assign objs this other objs' t :
      (∀ i o, objs !! i = Some o → reachable o) →
      operator_assign this other objs = Some objs' →
      objs' !! this = Some t → reachable t
  | reach_insert kv t t' :
      reachable t → insert kv t = Some t' → reachable t'
  | reach_erase key t t' :
      reachable t → erase key t = Some t' → reachable t'
  | reach_index key t a t' :
      reachable t → operator_index key t = Some (a, t') → reachable t'
  | reach_write key a v t t' :
      reachable t → find key t = Some (Some a) → Some a ≠ end_ t →
      write_ref a v t = Some t' → reachable t'
  | reach_clear t t' :
      reachable t → clear t = Some t' → reachable t'.

(** The value of the first pair of [l] with key [key]. *)
Fixpoint first_value (key : KeyType) (l : list (KeyType * ValueType))
  : option ValueType :=
  match l with
  | [] => None
  | kv :: l' => if decide (kv.1 = key) then Some kv.2 else first_value key l'
  end.

(** The public operations that change a table, other than writes
    through a reference. *)
Inductive operation :=
  | Insert (kv : KeyType * ValueType)
  | Erase (key : KeyType)
  | Index (key : KeyType)
  | Clear.

(** One operation, and a sequence of operations, on a table. *)
Definition run_operation (o : operation) (t : HashMap) : option HashMap :=
  match o with
  | Insert kv => insert kv t
  | Erase key => erase key t
  | Index key => '(_, t') ← operator_index key t; Some t'
  | Clear => clear t
  end.

Fixpoint run_operations (ops : list operation) (t : HashMap) : option HashMap :=
  match ops with
  | [] => Some t
  | o :: ops' => t' ← run_operation o t; run_operations ops' t'
  end.

(** The same on a list of pairs kept in the order of the first
    insertion of each key that is still there: a pair with a new key
    goes to the tail, an erased pair leaves the others in place. *)
Definition run_operation_abs (o : operation) (l : list (KeyType * ValueType))
  : list (KeyType * ValueType) :=
  match o with
  | Insert kv => insert_abs kv l
  | Erase key => erase_abs key l
  | Index key => insert_abs (key, ValueType_default) l
  | Clear => []
  end.

(** A sequence of operations on a list of pairs. *)
Definition run_operations_abs (ops : list operation) (l : list (KeyType * ValueType))
  : list (KeyType * ValueType) :=
  foldl (λ l o, run_operation_abs o l) l ops.

(** A capacity reached from 1 by doubling. *)
Definition doubling_of_one (c : nat) : Prop := ∃ n, c = 2 ^ n.

(** For every occupied slot, the scan from the home slot of its key
    reaches the slot, and finds every slot before it occupied. *)
Definition contiguous (t : HashMap) : Prop :=
  ∀ i a it h,
    storage t !! i = Some (Some a) → heap t !! a = Some it →
    get_hash t (keyValue it).1 = Some h →
    Nat.iter (cdist (capacity_ t) h i) (cyclic_inc t) h = i ∧
    ∀ d, d < cdist (capacity_ t) h i →
         ∃ a', storage t !! Nat.iter d (cyclic_inc t) h = Some (Some a').

(** The indices a scan from [from] passes until it reaches [to]. *)
Definition in_cyclic_range (n i from to : nat) : Prop :=
  ∃ d, d ≤ cdist n from to ∧ Nat.iter d (cinc n) from = i.

(** What makes [find_next], called for the hole [pos], stop at [i]. *)
Definition stops_at (t : HashMap) (pos i : nat) : Prop :=
  storage t !! i = Some None ∨
  ∃ a it h, storage t !! i = Some (Some a) ∧ heap t !! a = Some it ∧
    get_hash t (keyValue it).1 = Some h ∧
    ¬ in_cyclic_range (capacity_ t) h (cyclic_inc t pos) i.

(** The non-null pointers of a slot array, in the order of the slots. *)
Definition occupied (s : list ptr) : list nat := omap id s.

(** The capacity is 1 and the table empty, or the half of the capacity
    is reached by the load. *)
Definition snug (t : HashMap) : Prop :=
  (size_ t = 0 ∧ capacity_ t = 1) ∨
  (∃ c, capacity_ t = c * 2 ∧ c * 3 ≤ size_ t * 4).

(** The capacity is the least one that is 1 doubled a number of times
    and keeps the load below three quarters. *)
Definition tight (t : HashMap) : Prop :=
  doubling_of_one (capacity_ t) ∧ size_ t * 4 < capacity_ t * 3 ∧
  ∀ c, doubling_of_one c → size_ t * 4 < c * 3 → capacity_ t ≤ c.

(** The proofs unfold the member functions by hand. *)
#[local] Arguments delete_item : simpl never.
#[local] Arguments create_item : simpl never.
#[local] Arguments resize_if_need : simpl never.
#[local] Arguments find_pos : simpl never.
#[local] Arguments find_next : simpl never.

(** * Cyclic scans *)

Ltac cyc := unfold cdist, cinc in *; repeat case_bool_decide; try lia.

Lemma cinc_lt n i : i < n → cinc n i < n.
Proof. cyc. Qed.

Lemma cdist_lt n a b : a < n → b < n → cdist n a b < n.
Proof. cyc. Qed.

Lemma cdist_cinc n i x :
  i < n → x < n → x ≠ i → cdist n i x = S (cdist n (cinc n i) x).
Proof. cyc. Qed.

Lemma cdist_zero n a b : a < n → b < n → cdist n a b = 0 → a = b.
Proof. cyc. Qed.

(** [is_in_range] decides membership in the cyclic range, whether the
    range wraps around the end of the array or not. *)
Lemma is_in_range_cdist n i from to :
  i < n → from < n → to < n →
  is_in_range i from to = true ↔ cdist n from i ≤ cdist n from to.
Proof.
  intros Hi Hf Ht. unfold is_in_range, cdist.
  repeat case_bool_decide; simpl; split; try lia; try discriminate; try done.
Qed.

Lemma cscan_first n stop ks fuel i j :
  i < n → length ks = n → cscan n stop ks fuel i = Some j →
  j < n ∧ cdist n i j < fuel ∧
  (∃ c, ks !! j = Some c ∧ stop j c = true) ∧
  (∀ x, x < n → cdist n i x < cdist n i j →
        ∃ c, ks !! x = Some c ∧ stop x c = false).
Proof.
  revert i. induction fuel as [|fuel IH]; intros i Hi Hlen Hs; [done|].
  simpl in Hs. destruct (ks !! i) as [c|] eqn:Hc; [|done]. simpl in Hs.
  destruct (stop i c) eqn:Hst.
  - injection Hs as <-. split; [done|]. split; [cyc|]. split; [eauto|].
    intros x Hx Hd. exfalso. cyc.
  - destruct (IH (cinc n i) (cinc_lt _ _ Hi) Hlen Hs) as (Hj & Hd & Hstop & Hbefore).
    assert (j ≠ i) as Hji.
    { intros ->. destruct Hstop as (c' & Hc' & Hst'). congruence. }
    split; [done|]. split.
    { rewrite (cdist_cinc n i j) by done. lia. }
    split; [done|]. intros x Hx Hlt.
    destruct (decide (x = i)) as [->|Hxi]; [eauto|].
    apply Hbefore; [done|].
    rewrite (cdist_cinc n i j), (cdist_cinc n i x) in Hlt by done. lia.
Qed.

Lemma cscan_total n stop ks fuel i x c :
  i < n → length ks = n → x < n → ks !! x = Some c → stop x c = true →
  cdist n i x < fuel → is_Some (cscan n stop ks fuel i).
Proof.
  revert i. induction fuel as [|fuel IH]; intros i Hi Hlen Hx Hc Hst Hd; [lia|].
  simpl. destruct (lookup_lt_is_Some_2 ks i) as [ci Hci]; [lia|].
  rewrite Hci. simpl. destruct (stop i ci) eqn:Hsti; [eauto|].
  apply IH; try done; [by apply cinc_lt|].
  assert (x ≠ i) by (intros ->; congruence).
  rewrite (cdist_cinc n i x) in Hd by done. lia.
Qed.

Lemma cdist_inj n a x y :
  a < n → x < n → y < n → cdist n a x = cdist n a y → x = y.
Proof. cyc. Qed.

(** * Probing on the key view *)

Section Probing.

Variable n : nat.
Variable home : KeyType → nat.
Hypothesis home_lt : ∀ k, home k < n.

Implicit Types ks : list (option KeyType).

(** Where the scan of [find_pos] stops: at the key when a slot holds it,
    at an empty slot, with the key in no slot, otherwise; every slot
    passed on the way is occupied. *)
Lemma find_scan_spec ks key fuel j :
  length ks = n → probe_inv n home ks →
  cscan n (stop_find key) ks fuel (home key) = Some j →
  j < n ∧
  (ks !! j = Some (Some key) ∨
   (ks !! j = Some None ∧ ∀ x, ks !! x ≠ Some (Some key))) ∧
  (∀ x, x < n → cdist n (home key) x < cdist n (home key) j →
        ∃ k', ks !! x = Some (Some k')).
Proof.
  intros Hlen Hpi Hs.
  destruct (cscan_first _ _ _ _ _ _ (home_lt key) Hlen Hs)
    as (Hj & _ & (c & Hc & Hst) & Hbefore).
  split; [done|]. split.
  - destruct c as [k|]; simpl in Hst.
    + case_bool_decide; [subst; by left|done].
    + right. split; [done|]. intros x Hx.
      assert (x < n) as Hxn by (rewrite <-Hlen; by eapply lookup_lt_Some).
      destruct (Nat.lt_total (cdist n (home key) x) (cdist n (home key) j))
        as [Hlt|[Heq|Hgt]].
      * destruct (Hbefore x Hxn Hlt) as (c' & Hc' & Hst').
        rewrite Hx in Hc'. injection Hc' as <-. simpl in Hst'.
        by case_bool_decide.
      * apply cdist_inj in Heq; [|done..]. congruence.
      * destruct (Hpi x key j Hx Hj Hgt) as [k' Hk']. congruence.
  - intros x Hx Hlt. destruct (Hbefore x Hx Hlt) as (c' & Hc' & Hst').
    destruct c' as [k'|]; [eauto|done].
Qed.

Lemma find_scan_total ks key x c :
  length ks = n → x < n → ks !! x = Some c → stop_find key x c = true →
  is_Some (cscan n (stop_find key) ks n (home key)).
Proof.
  intros Hlen Hx Hc Hst. eapply cscan_total; try done.
  by apply cdist_lt.
Qed.

(** Filling the slot [find_pos] stopped at keeps the invariant. *)
Lemma probe_inv_insert ks key j :
  probe_inv n home ks → ks !! j = Some None →
  (∀ x, x < n → cdist n (home key) x < cdist n (home key) j →
        ∃ k', ks !! x = Some (Some k')) →
  probe_inv n home (<[j := Some key]> ks).
Proof.
  intros Hpi Hj Hbefore i k x Hi Hx Hlt.
  destruct (decide (i = j)) as [->|Hij].
  - rewrite list_lookup_insert_eq in Hi by (by eapply lookup_lt_Some).
    injection Hi as <-.
    destruct (decide (x = j)) as [->|Hxj]; [lia|].
    rewrite list_lookup_insert_ne by done. by apply Hbefore.
  - rewrite list_lookup_insert_ne in Hi by done.
    destruct (Hpi i k x Hi Hx Hlt) as [k' Hk'].
    destruct (decide (x = j)) as [->|Hxj]; [congruence|].
    rewrite list_lookup_insert_ne by done. eauto.
Qed.

(** Emptying a slot opens a hole there. *)
Lemma probe_inv_hole_open ks p :
  probe_inv n home ks → probe_inv_hole n home p (<[p := None]> ks).
Proof.
  intros Hpi i k x Hi Hx Hxp Hlt.
  rewrite list_lookup_insert_ne by done.
  destruct (decide (i = p)) as [->|Hip].
  - apply list_lookup_insert_Some in Hi as [(_ & ? & _)|(_ & Hi)]; [done|].
    by eapply Hpi.
  - rewrite list_lookup_insert_ne in Hi by done. by eapply Hpi.
Qed.

(** One step of the compaction: the key [find_next] found out of the
    cyclic range moves into the hole, and its slot becomes the hole. *)
Lemma probe_inv_hole_move ks p j k' :
  probe_inv_hole n home p ks → length ks = n → p < n → j < n → j ≠ p →
  ks !! j = Some (Some k') →
  ¬ cdist n (cinc n p) (home k') ≤ cdist n (cinc n p) j →
  probe_inv_hole n home j (<[j := None]> (<[p := Some k']> ks)).
Proof.
  intros Hh Hlen Hp Hj Hjp Hkj Hout i k x Hi Hx Hxj Hlt.
  rewrite list_lookup_insert_ne by done.
  destruct (decide (i = j)) as [->|Hij].
  { rewrite list_lookup_insert_eq in Hi by (rewrite length_insert; lia). done. }
  rewrite list_lookup_insert_ne in Hi by done.
  destruct (decide (x = p)) as [->|Hxp].
  { rewrite list_lookup_insert_eq by lia. eauto. }
  rewrite list_lookup_insert_ne by done.
  destruct (decide (i = p)) as [->|Hip].
  - rewrite list_lookup_insert_eq in Hi by lia. injection Hi as <-.
    apply (Hh j k' x Hkj Hx Hxp).
    pose proof (home_lt k'). cyc.
  - rewrite list_lookup_insert_ne in Hi by done.
    by apply (Hh i k x).
Qed.

(** The end of the compaction: when [find_next] stops at an empty slot,
    nothing depends on the hole any more. *)
Lemma probe_inv_hole_close ks p j :
  probe_inv_hole n home p ks → length ks = n → p < n → j < n →
  ks !! j = Some None →
  (∀ x, x < n → cdist n (cinc n p) x < cdist n (cinc n p) j →
        ∃ k, ks !! x = Some (Some k) ∧
             cdist n (cinc n p) (home k) ≤ cdist n (cinc n p) x) →
  probe_inv n home ks.
Proof.
  intros Hh Hlen Hp Hj Hjn Hbefore i k x Hi Hx Hlt.
  destruct (decide (x = p)) as [->|Hxp]; [|by eapply Hh].
  exfalso.
  assert (i < n) as Hin by (rewrite <-Hlen; by eapply lookup_lt_Some).
  pose proof (home_lt k) as Hk.
  assert (i ≠ p) as Hip by (intros ->; lia).
  assert (i ≠ j) as Hij by congruence.
  destruct (decide (cdist n (cinc n p) i < cdist n (cinc n p) j)) as [Hlt'|Hge].
  - destruct (Hbefore i Hin Hlt') as (k2 & Hk2 & Hr).
    assert (k2 = k) as -> by congruence. cyc.
  - destruct (decide (j = p)) as [->|Hjp]; [cyc|].
    destruct (Hh i k j Hi Hj Hjp) as [k2 Hk2]; [cyc|congruence].
Qed.

End Probing.

(** * The chain of items *)

Lemma hd_ptr_app L1 L2 q : hd_ptr (L1 ++ L2) q = hd_ptr L1 (hd_ptr L2 q).
Proof. by destruct L1. Qed.

Lemma last_ptr_app L1 L2 p : last_ptr (L1 ++ L2) p = last_ptr L2 (last_ptr L1 p).
Proof. revert p. induction L1 as [|a L1 IH]; intros p; simpl; [done|]. apply IH. Qed.

Lemma last_ptr_snoc L x p : last_ptr (L ++ [x]) p = Some x.
Proof. by rewrite last_ptr_app. Qed.

Lemma last_ptr_None L : last_ptr L None = None → L = [].
Proof.
  destruct L as [|a L] using rev_ind; [done|]. by rewrite last_ptr_snoc.
Qed.

Lemma dll_app h p L1 L2 q :
  dll h p (L1 ++ L2) q ↔ dll h p L1 (hd_ptr L2 q) ∧ dll h (last_ptr L1 p) L2 q.
Proof.
  revert p. induction L1 as [|a L1 IH]; intros p; simpl.
  - split; [by intros ?|by intros [_ ?]].
  - rewrite hd_ptr_app. split.
    + intros (it & ? & ? & ? & Hd). apply IH in Hd as [??]. eauto 10.
    + intros [(it & ? & ? & ? & Hd) ?]. exists it. repeat split; try done.
      apply IH. eauto.
Qed.

(** A segment only depends on the links of its own items. *)
Lemma dll_frame h h' p L q :
  (∀ x it, x ∈ L → h !! x = Some it →
     ∃ it', h' !! x = Some it' ∧ prev it' = prev it ∧ next it' = next it) →
  dll h p L q → dll h' p L q.
Proof.
  revert p. induction L as [|a L IH]; intros p Hf; simpl; [done|].
  intros (it & Hit & Hp & Hn & Hd).
  destruct (Hf a it) as (it' & ? & Hp' & Hn'); [set_solver|done|].
  exists it'. rewrite Hp', Hn'. repeat split; try done.
  apply IH; [|done]. intros x itx Hx. apply Hf. set_solver.
Qed.

Lemma dll_insert_other h p L q x it :
  x ∉ L → dll h p L q → dll (<[x := it]> h) p L q.
Proof.
  intros Hx. apply dll_frame. intros y ity Hy Hity.
  exists ity. rewrite lookup_insert_ne by set_solver. done.
Qed.

Lemma dll_delete_other h p L q x :
  x ∉ L → dll h p L q → dll (delete x h) p L q.
Proof.
  intros Hx. apply dll_frame. intros y ity Hy Hity.
  exists ity. rewrite lookup_delete_ne by set_solver. done.
Qed.

(** Redirecting the [next] of the last item of a segment. *)
Lemma dll_set_next_last h p L x q q' it :
  dll h p (L ++ [x]) q → x ∉ L → h !! x = Some it →
  dll (<[x := set_next q' it]> h) p (L ++ [x]) q'.
Proof.
  intros Hd Hx Hit. apply dll_app in Hd as [H1 H2]. apply dll_app. split.
  - simpl in *. by apply dll_insert_other.
  - simpl in *. destruct H2 as (it0 & Hit0 & Hp & _).
    assert (it0 = it) as -> by congruence.
    exists (set_next q' it). by rewrite lookup_insert_eq.
Qed.

(** Redirecting the [prev] of the first item of a segment. *)
Lemma dll_set_prev_head h p p' L x q it :
  dll h p (x :: L) q → x ∉ L → h !! x = Some it →
  dll (<[x := set_prev p' it]> h) p' (x :: L) q.
Proof.
  simpl. intros (it0 & Hit0 & Hp & Hn & Hd) Hx Hit.
  assert (it0 = it) as -> by congruence.
  exists (set_prev p' it). rewrite lookup_insert_eq. repeat split; try done.
  by apply dll_insert_other.
Qed.

Lemma dll_lookup h p L q x : dll h p L q → x ∈ L → is_Some (h !! x).
Proof.
  revert p. induction L as [|a L IH]; intros p; simpl; [set_solver|].
  intros (it & ? & _ & _ & Hd) [->|Hx]%elem_of_cons; eauto.
Qed.

(** [new Item(key, value, _end->prev, _end)] puts the new item at the
    tail of the chain, before the sentinel. *)
Lemma new_Item_tail h l ea e_it kv :
  NoDup (l ++ [ea]) → dom h = list_to_set (l ++ [ea]) →
  dll h None (l ++ [ea]) None → h !! ea = Some e_it →
  ∃ a h', new_Item kv (prev e_it) (Some ea) h = Some (a, h') ∧
    (a ∉ l ++ [ea]) ∧
    dll h' None ((l ++ [a]) ++ [ea]) None ∧
    dom h' = list_to_set ((l ++ [a]) ++ [ea]) ∧
    (∃ it, h' !! a = Some it ∧ keyValue it = kv ∧ prev it = last_ptr l None) ∧
    (∀ x, x ≠ a → payload_kept h h' x).
Proof.
  intros Hnd Hdom Hd He.
  unfold new_Item. generalize (is_fresh (dom h)).
  generalize (fresh (dom h)). intros a Hfresh.
  assert (a ∉ l ++ [ea]) as Ha.
  { intros Hin. apply Hfresh. rewrite Hdom. by apply elem_of_list_to_set. }
  assert (a ≠ ea) as Hae by (intros ->; apply Ha; set_solver).
  assert (a ∉ l) as Hal by set_solver.
  assert (ea ∉ l) as Heal.
  { apply NoDup_app in Hnd as (_ & Hnd & _). intros ?. apply (Hnd ea); set_solver. }
  assert (NoDup l) as Hndl by (by apply NoDup_app in Hnd as (? & _ & _)).
  pose proof Hd as Hd0.
  apply dll_app in Hd as [Hd1 Hd2]. simpl in Hd1, Hd2.
  destruct Hd2 as (it & Hit & Hp & Hn & _).
  assert (it = e_it) as -> by congruence.
  rewrite Hp. remember (last_ptr l None) as lp eqn:Hlp.
  unfold connect. rewrite lookup_insert_eq. simpl.
  unfold modify at 1. simpl. rewrite lookup_insert_ne by done. rewrite He. simpl.
  set (new := mkItem kv lp (Some ea) 0).
  set (h1 := <[ea:=set_prev (Some a) e_it]> (<[a:=new]> h)).
  assert (dll h1 lp [a] (Some ea)) as Da.
  { simpl. exists new. unfold h1. rewrite lookup_insert_ne, lookup_insert_eq by done. done. }
  assert (dll h1 (Some a) [ea] None) as De.
  { simpl. exists (set_prev (Some a) e_it). unfold h1. by rewrite lookup_insert_eq. }
  assert (dll h1 None l (Some ea)) as Dl.
  { unfold h1. apply dll_insert_other; [done|]. by apply dll_insert_other. }
  assert (dom h1 = list_to_set ((l ++ [a]) ++ [ea])) as Hdom1.
  { unfold h1. rewrite !dom_insert_L, Hdom, !list_to_set_app_L. set_solver. }
  destruct l as [|pl l0 _] using rev_ind.
  - simpl in Hlp. subst lp. simpl. exists a, h1. split_and!; try done.
    + simpl in Da, De. destruct Da as (ia & ? & ? & ? & _), De as (ie & ? & ? & ? & _).
      exists ia. split_and!; try done. by exists ie.
    + exists new. unfold h1. by rewrite lookup_insert_ne, lookup_insert_eq.
    + intros x Hx itx Hitx. destruct (decide (x = ea)) as [->|Hxe].
      * exists (set_prev (Some a) e_it). unfold h1. rewrite lookup_insert_eq.
        assert (itx = e_it) as -> by congruence. done.
      * exists itx. unfold h1. by rewrite !lookup_insert_ne.
  - rewrite last_ptr_snoc in Hlp. subst lp. simpl.
    assert (pl ≠ ea) as Hple by set_solver.
    assert (pl ≠ a) as Hpla by set_solver.
    assert (pl ∉ l0) as Hpl0.
    { apply NoDup_app in Hndl as (_ & Hx & _). intros ?. apply (Hx pl); set_solver. }
    destruct (dll_lookup _ _ _ _ pl Dl) as [ipl Hipl]; [set_solver|].
    rewrite Hipl. simpl.
    exists a, (<[pl:=set_next (Some a) ipl]> h1). split_and!; try done.
    + apply dll_app. split; [apply dll_app; split|]; simpl.
      * apply (dll_set_next_last _ _ _ _ (Some ea)); [exact Dl|exact Hpl0|exact Hipl].
      * rewrite last_ptr_snoc. exists new.
        rewrite lookup_insert_ne by done. unfold h1.
        by rewrite lookup_insert_ne, lookup_insert_eq.
      * rewrite last_ptr_snoc. exists (set_prev (Some a) e_it).
        rewrite lookup_insert_ne by done. unfold h1. by rewrite lookup_insert_eq.
    + rewrite dom_insert_L, Hdom1. apply elem_of_dom_2 in Hipl.
      rewrite Hdom1 in Hipl. set_solver.
    + exists new. rewrite lookup_insert_ne by done. unfold h1.
      by rewrite lookup_insert_ne, lookup_insert_eq by done.
    + intros x Hx itx Hitx.
      assert (h1 !! pl = h !! pl) as Hpl1.
      { unfold h1. by rewrite !lookup_insert_ne. }
      destruct (decide (x = pl)) as [->|Hxp].
      { exists (set_next (Some a) ipl). rewrite lookup_insert_eq.
        assert (itx = ipl) as -> by congruence. done. }
      rewrite lookup_insert_ne by done.
      destruct (decide (x = ea)) as [->|Hxe].
      * exists (set_prev (Some a) e_it). unfold h1. rewrite lookup_insert_eq.
        assert (itx = e_it) as -> by congruence. done.
      * exists itx. unfold h1. by rewrite !lookup_insert_ne.
Qed.

Lemma payload_kept_refl h x : payload_kept h h x.
Proof. intros it ?. by exists it. Qed.

Lemma payload_kept_trans h1 h2 h3 x :
  payload_kept h1 h2 x → payload_kept h2 h3 x → payload_kept h1 h3 x.
Proof.
  intros H12 H23 it Hit. destruct (H12 it Hit) as (it2 & Hit2 & Hk2 & Hp2).
  destruct (H23 it2 Hit2) as (it3 & Hit3 & Hk3 & Hp3).
  exists it3. split_and!; congruence.
Qed.

Lemma payload_kept_insert_link h x y it f :
  h !! y = Some it →
  keyValue (f it) = keyValue it → pos (f it) = pos it →
  payload_kept h (<[y := f it]> h) x.
Proof.
  intros Hy Hk Hp itx Hx. destruct (decide (x = y)) as [->|Hne].
  - exists (f it). rewrite lookup_insert_eq. split_and!; congruence.
  - exists itx. by rewrite lookup_insert_ne.
Qed.

Lemma payload_kept_delete h x a : x ≠ a → payload_kept h (delete a h) x.
Proof. intros Hne it Hit. exists it. by rewrite lookup_delete_ne. Qed.

(** [delete item] takes the item out of the chain and joins its
    neighbours. *)
Lemma delete_Item_chain h L1 a L2 :
  NoDup (L1 ++ a :: L2) → dom h = list_to_set (L1 ++ a :: L2) →
  dll h None (L1 ++ a :: L2) None →
  ∃ h' it, h !! a = Some it ∧ next it = hd_ptr L2 None ∧
    delete_Item a h = Some h' ∧
    dll h' None (L1 ++ L2) None ∧
    dom h' = list_to_set (L1 ++ L2) ∧
    (∀ x, x ≠ a → payload_kept h h' x).
Proof.
  intros Hnd Hdom Hd.
  apply NoDup_app in Hnd as (Hnd1 & Hdisj & Hnd2).
  apply NoDup_cons in Hnd2 as [Ha2 Hnd2].
  assert (a ∉ L1) as Ha1 by (intros ?; apply (Hdisj a); set_solver).
  apply dll_app in Hd as [D1 D2]. simpl in D1, D2.
  destruct D2 as (it & Hit & Hp & Hn & D3).
  unfold delete_Item, disconnect. rewrite Hit. simpl. rewrite Hp, Hn.
  (* first half of [disconnect]: the successor *)
  assert (∃ h1, (if bool_decide (hd_ptr L2 None ≠ None)
                 then modify (set_prev (last_ptr L1 None)) (hd_ptr L2 None) h
                 else Some h) = Some h1 ∧
            dll h1 (last_ptr L1 None) L2 None ∧ dll h1 None L1 (Some a) ∧
            dom h1 = dom h ∧ (∀ x, payload_kept h h1 x) ∧
            (∀ x, x ∉ L2 → h1 !! x = h !! x)) as (h1 & -> & D3' & D1' & Hdom1 & Hk1 & Hsame1).
  { destruct L2 as [|nx L2']; simpl.
    - exists h. split_and!; try done. intros x. apply payload_kept_refl.
    - simpl in D3. destruct D3 as (inx & Hinx & ? & ? & D4).
      rewrite Hinx. simpl. eexists. split; [done|].
      apply NoDup_cons in Hnd2 as [Hnx _].
      split_and!.
      + apply (dll_set_prev_head _ (Some a)); try done. simpl. eauto 10.
      + apply dll_insert_other; [|done]. intros ?. apply (Hdisj nx); set_solver.
      + rewrite dom_insert_L. apply elem_of_dom_2 in Hinx. set_solver.
      + intros x. by apply payload_kept_insert_link.
      + intros x Hx. rewrite lookup_insert_ne; [done|]. set_solver. }
  simpl.
  (* second half: the predecessor *)
  assert (∃ h2, (if bool_decide (last_ptr L1 None ≠ None)
                 then modify (set_next (hd_ptr L2 None)) (last_ptr L1 None) h1
                 else Some h1) = Some h2 ∧
            dll h2 (last_ptr L1 None) L2 None ∧ dll h2 None L1 (hd_ptr L2 None) ∧
            dom h2 = dom h ∧ (∀ x, payload_kept h h2 x)) as (h2 & -> & D3'' & D1'' & Hdom2 & Hk2).
  { destruct L1 as [|pv L1' _] using rev_ind; simpl.
    - exists h1. split_and!; try done.
    - rewrite last_ptr_snoc. simpl.
      assert (pv ∉ L1') as Hpv1.
      { apply NoDup_app in Hnd1 as (_ & Hx & _). intros ?. apply (Hx pv); set_solver. }
      assert (pv ∉ L2) as Hpv2 by (intros ?; apply (Hdisj pv); set_solver).
      destruct (dll_lookup _ _ _ _ pv D1') as [ipv Hipv]; [set_solver|].
      rewrite Hipv. simpl. eexists. split; [done|].
      split_and!.
      + rewrite last_ptr_snoc in D3'. by apply dll_insert_other.
      + by apply (dll_set_next_last _ _ _ _ (Some a)).
      + rewrite dom_insert_L, Hdom1. apply elem_of_dom_2 in Hipv. set_solver.
      + intros x. eapply payload_kept_trans; [apply Hk1|].
        by apply payload_kept_insert_link. }
  simpl. eexists _, it. split_and!; try done.
  - apply dll_app. split; by apply dll_delete_other.
  - rewrite dom_delete_L, Hdom2, Hdom, !list_to_set_app_L, list_to_set_cons.
    assert (a ∉ (list_to_set L1 : gset nat)) by (by rewrite elem_of_list_to_set).
    assert (a ∉ (list_to_set L2 : gset nat)) by (by rewrite elem_of_list_to_set).
    set_solver.
  - intros x Hx. eapply payload_kept_trans; [apply Hk2|].
    by apply payload_kept_delete.
Qed.

(** * The table invariant *)

Lemma home_lt t k : 0 < capacity_ t → home t k < capacity_ t.
Proof. intros. unfold home. apply Nat.mod_upper_bound. lia. Qed.

Lemma key_view_length h s : length (key_view h s) = length s.
Proof. unfold key_view. by rewrite length_fmap. Qed.

Lemma key_view_None h s i :
  s !! i = Some None → key_view h s !! i = Some None.
Proof.
  intros Hi. unfold key_view. rewrite list_lookup_fmap, Hi. done.
Qed.

Lemma key_view_Some h s i a it :
  s !! i = Some (Some a) → h !! a = Some it →
  key_view h s !! i = Some (Some (keyValue it).1).
Proof.
  intros Hi Ha. unfold key_view. rewrite list_lookup_fmap, Hi.
  simpl. rewrite Ha. done.
Qed.

Lemma key_view_inv_Some h s l i k :
  slots_ok h s l → key_view h s !! i = Some (Some k) →
  ∃ a it, s !! i = Some (Some a) ∧ a ∈ l ∧ h !! a = Some it ∧
          (keyValue it).1 = k ∧ pos it = i.
Proof.
  intros Hs. unfold key_view. rewrite list_lookup_fmap.
  destruct (s !! i) as [[a|]|] eqn:Hi; simpl; try done.
  destruct (Hs i a Hi) as (Hal & it & Hit & Hp). rewrite Hit. simpl.
  intros [= <-]. eauto 10.
Qed.

Lemma key_view_inv_None h s l i :
  slots_ok h s l → key_view h s !! i = Some None → s !! i = Some None.
Proof.
  intros Hs. unfold key_view. rewrite list_lookup_fmap.
  destruct (s !! i) as [[a|]|] eqn:Hi; simpl; try done.
  destruct (Hs i a Hi) as (Hal & it & Hit & Hp). by rewrite Hit.
Qed.

Lemma slots_ok_live h s l : slots_ok h s l → live h s.
Proof. intros Hs i a Hi. destruct (Hs i a Hi) as (_ & it & Hit & _). eauto. Qed.

Lemma key_view_live_Some h s i k :
  live h s → key_view h s !! i = Some (Some k) →
  ∃ a it, s !! i = Some (Some a) ∧ h !! a = Some it ∧ (keyValue it).1 = k.
Proof.
  intros Hs. unfold key_view. rewrite list_lookup_fmap.
  destruct (s !! i) as [[a|]|] eqn:Hi; simpl; try done.
  destruct (Hs i a Hi) as (it & Hit). rewrite Hit. simpl.
  intros [= <-]. eauto 10.
Qed.

Lemma key_view_live_None h s i :
  live h s → key_view h s !! i = Some None → s !! i = Some None.
Proof.
  intros Hs. unfold key_view. rewrite list_lookup_fmap.
  destruct (s !! i) as [[a|]|] eqn:Hi; simpl; try done.
  destruct (Hs i a Hi) as (it & Hit). by rewrite Hit.
Qed.

(** [find_pos] and [find_next] are cyclic scans of the key view. *)
Lemma find_pos_loop_cscan t key fuel i :
  live (heap t) (storage t) →
  find_pos_loop t key fuel i =
  cscan (capacity_ t) (stop_find key) (slot_keys t) fuel i.
Proof.
  intros Hs. revert i. induction fuel as [|fuel IH]; intros i; simpl; [done|].
  unfold vget, slot_keys, key_view. rewrite list_lookup_fmap.
  destruct (storage t !! i) as [[a|]|] eqn:Hi; simpl; try done.
  destruct (Hs i a Hi) as (it & Hit). rewrite Hit. simpl.
  case_bool_decide; [done|]. apply IH.
Qed.

Lemma find_next_loop_cscan t p fuel i :
  live (heap t) (storage t) → 0 < capacity_ t →
  find_next_loop t p fuel i =
  cscan (capacity_ t) (stop_next (capacity_ t) (home t) p) (slot_keys t) fuel i.
Proof.
  intros Hs Hc. revert i. induction fuel as [|fuel IH]; intros i; simpl; [done|].
  unfold vget, slot_keys, key_view. rewrite list_lookup_fmap.
  destruct (storage t !! i) as [[a|]|] eqn:Hi; simpl; try done.
  destruct (Hs i a Hi) as (it & Hit). rewrite Hit. simpl.
  unfold get_hash. rewrite bool_decide_eq_false_2 by lia. simpl.
  unfold cyclic_inc, home, cinc. simpl.
  destruct (is_in_range _ _ _); simpl; [|done]. apply IH.
Qed.

(** A slot array with fewer items than slots has an empty slot. *)
Lemma has_empty_slot h (s : list ptr) l :
  slots_ok h s l → length l < length s → ∃ j, s !! j = Some None.
Proof.
  intros Hs Hlen.
  destruct (decide (None ∈ s)) as [Hin|Hnin].
  { by apply list_elem_of_lookup_1 in Hin. }
  exfalso.
  set (addrs := omap id s).
  assert (s = Some <$> addrs) as Heq.
  { unfold addrs. clear Hs Hlen. induction s as [|[a|] s IH]; simpl.
    - done.
    - f_equal. apply IH. set_solver.
    - set_solver. }
  assert (NoDup addrs) as Hnd.
  { apply NoDup_alt. intros i j a Hi Hj.
    assert (s !! i = Some (Some a)) as Hi' by (by rewrite Heq, list_lookup_fmap, Hi).
    assert (s !! j = Some (Some a)) as Hj' by (by rewrite Heq, list_lookup_fmap, Hj).
    destruct (Hs i a Hi') as (_ & it & Hit & Hp).
    destruct (Hs j a Hj') as (_ & it' & Hit' & Hp'). congruence. }
  assert (addrs ⊆+ l) as Hsub.
  { apply NoDup_submseteq; [done|]. intros a Ha.
    apply list_elem_of_lookup_1 in Ha as [i Hi].
    assert (s !! i = Some (Some a)) as Hi' by (by rewrite Heq, list_lookup_fmap, Hi).
    by destruct (Hs i a Hi'). }
  apply submseteq_length in Hsub.
  rewrite Heq, length_fmap in Hlen. lia.
Qed.

(** [find_pos] comes to an end in a table that is not full, at the slot
    of the key when the table holds the key and at an empty slot
    otherwise.  The slots it passed are occupied. *)
Lemma find_pos_spec t l key :
  0 < capacity_ t → length (storage t) = capacity_ t →
  slots_ok (heap t) (storage t) l →
  probe_inv (capacity_ t) (home t) (slot_keys t) →
  length l < capacity_ t →
  ∃ j, find_pos t key = Some j ∧ j < capacity_ t ∧
    ((∃ a it, storage t !! j = Some (Some a) ∧ a ∈ l ∧ heap t !! a = Some it ∧
              (keyValue it).1 = key ∧ pos it = j) ∨
     (storage t !! j = Some None ∧ ∀ x, slot_keys t !! x ≠ Some (Some key))) ∧
    (∀ x, x < capacity_ t →
       cdist (capacity_ t) (home t key) x < cdist (capacity_ t) (home t key) j →
       ∃ k', slot_keys t !! x = Some (Some k')).
Proof.
  intros Hc Hlen Hs Hpi Hl.
  unfold find_pos, get_hash. rewrite bool_decide_eq_false_2 by lia. simpl.
  rewrite (find_pos_loop_cscan t) by (by eapply slots_ok_live). fold (home t key).
  assert (length (slot_keys t) = capacity_ t) as Hlen'.
  { unfold slot_keys. by rewrite key_view_length. }
  destruct (has_empty_slot _ _ _ Hs) as [e0 He0]; [lia|].
  assert (e0 < capacity_ t) as He0lt.
  { rewrite <-Hlen. by eapply lookup_lt_Some. }
  destruct (find_scan_total (capacity_ t) (home t) (λ k, home_lt t k Hc)
              (slot_keys t) key e0 None Hlen' He0lt) as [j Hj]; [|done|].
  { by apply key_view_None. }
  exists j. split; [done|].
  destruct (find_scan_spec (capacity_ t) (home t) (λ k, home_lt t k Hc)
              (slot_keys t) key _ j Hlen' Hpi Hj) as (Hjlt & Hcase & Hbefore).
  split; [done|]. split; [|done].
  destruct Hcase as [Hk|[Hn Hno]].
  - left. destruct (key_view_inv_Some _ _ _ _ _ Hs Hk) as (a & it & ?). eauto 10.
  - right. split; [|done]. by eapply key_view_inv_None.
Qed.

(** ** Changes that keep the slot array consistent *)

(** An operation on the chain that keeps the payload of the items of
    [l] keeps what the slot array says about them. *)
Lemma slots_ok_frame h h' s l :
  (∀ x, x ∈ l → payload_kept h h' x) → slots_ok h s l → slots_ok h' s l.
Proof.
  intros Hk Hs i a Hi. destruct (Hs i a Hi) as (Ha & it & Hit & Hp).
  split; [done|]. destruct (Hk a Ha it Hit) as (it' & ? & ? & ?).
  exists it'. split; congruence.
Qed.

Lemma placed_frame h h' s l :
  (∀ x, x ∈ l → payload_kept h h' x) → placed h s l → placed h' s l.
Proof.
  intros Hk Hp a Ha. destruct (Hp a Ha) as (it & Hit & Hs).
  destruct (Hk a Ha it Hit) as (it' & ? & ? & Hpos).
  exists it'. split; [done|]. by rewrite Hpos.
Qed.

Lemma key_view_frame h h' s l :
  (∀ x, x ∈ l → payload_kept h h' x) → slots_ok h s l →
  key_view h' s = key_view h s.
Proof.
  intros Hk Hs. unfold key_view. apply list_eq. intros i.
  rewrite !list_lookup_fmap.
  destruct (s !! i) as [[a|]|] eqn:Hi; simpl; try done.
  destruct (Hs i a Hi) as (Ha & it & Hit & Hp).
  destruct (Hk a Ha it Hit) as (it' & Hit' & Hkv & _).
  rewrite Hit, Hit'. simpl. by rewrite Hkv.
Qed.

Lemma items_ok_frame h h' es :
  (∀ x, x ∈ es.*1 → payload_kept h h' x) → items_ok h es → items_ok h' es.
Proof.
  intros Hk Ho a kv Hin. destruct (Ho a kv Hin) as (it & Hit & Hkv).
  destruct (Hk a) with (it := it) as (it' & ? & ? & ?); [|done|].
  { apply list_elem_of_fmap. by exists (a, kv). }
  exists it'. split; congruence.
Qed.

(** Writing only the recorded position of an item. *)
Lemma chain_inv_set_pos h b e l a it j :
  h !! a = Some it → chain_inv h b e l → chain_inv (<[a := set_pos j it]> h) b e l.
Proof.
  intros Hit (ea & -> & Hnd & Hdom & Hb & Hd).
  exists ea. split_and!; try done.
  - rewrite dom_insert_L, Hdom. apply elem_of_dom_2 in Hit. set_solver.
  - eapply dll_frame; [|done]. intros x itx _ Hx.
    destruct (decide (x = a)) as [->|Hne].
    + exists (set_pos j it). rewrite lookup_insert_eq.
      assert (itx = it) as -> by congruence. done.
    + exists itx. by rewrite lookup_insert_ne.
Qed.

Lemma items_ok_set_pos h es a it j :
  h !! a = Some it → items_ok h es → items_ok (<[a := set_pos j it]> h) es.
Proof.
  intros Hit Ho x kv Hin. destruct (Ho x kv Hin) as (itx & Hx & Hkv).
  destruct (decide (x = a)) as [->|Hne].
  - exists (set_pos j it). rewrite lookup_insert_eq.
    assert (itx = it) as -> by congruence. done.
  - exists itx. by rewrite lookup_insert_ne.
Qed.

Lemma key_view_set_pos h s a it j :
  h !! a = Some it → key_view (<[a := set_pos j it]> h) s = key_view h s.
Proof.
  intros Hit. unfold key_view. apply list_eq. intros i.
  rewrite !list_lookup_fmap.
  destruct (s !! i) as [[x|]|]; simpl; try done.
  destruct (decide (x = a)) as [->|Hne].
  - by rewrite lookup_insert_eq, Hit.
  - by rewrite lookup_insert_ne.
Qed.

Lemma key_view_insert h s j a it :
  h !! a = Some it →
  key_view h (<[j := Some a]> s) = <[j := Some (keyValue it).1]> (key_view h s).
Proof.
  intros Hit. unfold key_view. rewrite list_fmap_insert. simpl. by rewrite Hit.
Qed.

Lemma key_view_insert_None h s j :
  key_view h (<[j := None]> s) = <[j := None]> (key_view h s).
Proof. unfold key_view. by rewrite list_fmap_insert. Qed.

(** Putting an item that is in no slot into an empty slot [j], and
    recording [j] in the item. *)
Lemma place_slots_ok h s l a it j :
  slots_ok h s l → a ∉ l → h !! a = Some it → j < length s →
  slots_ok (<[a := set_pos j it]> h) (<[j := Some a]> s) (l ++ [a]).
Proof.
  intros Hs Ha Hit Hj i x Hi.
  destruct (decide (i = j)) as [->|Hij].
  - rewrite list_lookup_insert_eq in Hi by done. injection Hi as <-.
    split; [set_solver|]. exists (set_pos j it). by rewrite lookup_insert_eq.
  - rewrite list_lookup_insert_ne in Hi by done.
    destruct (Hs i x Hi) as (Hx & itx & Hitx & Hp).
    split; [set_solver|]. exists itx.
    rewrite lookup_insert_ne by (intros ->; done). done.
Qed.

Lemma place_placed h s l a it j :
  placed h s l → a ∉ l → h !! a = Some it → s !! j = Some None →
  placed (<[a := set_pos j it]> h) (<[j := Some a]> s) (l ++ [a]).
Proof.
  intros Hp Ha Hit Hj x Hx.
  assert (j < length s) by (by eapply lookup_lt_Some).
  apply elem_of_app in Hx as [Hx|Hx].
  - destruct (Hp x Hx) as (itx & Hitx & Hsx).
    exists itx. rewrite lookup_insert_ne by (intros ->; done). split; [done|].
    rewrite list_lookup_insert_ne; [done|]. intros Heq. rewrite Heq in Hj. congruence.
  - apply list_elem_of_singleton in Hx as ->.
    exists (set_pos j it). rewrite lookup_insert_eq. split; [done|].
    simpl. by rewrite list_lookup_insert_eq.
Qed.

Lemma pos_updated_refl h : pos_updated h h.
Proof.
  intros x. destruct (h !! x) as [it|] eqn:Hx; [right|by left].
  exists it, (pos it). by destruct it.
Qed.

Lemma pos_updated_trans h1 h2 h3 :
  pos_updated h1 h2 → pos_updated h2 h3 → pos_updated h1 h3.
Proof.
  intros H12 H23 x.
  destruct (H12 x) as [[? ?]|(it & j & H1 & H2)], (H23 x) as [[? ?]|(it' & j' & H2' & H3)];
    try congruence.
  - by left.
  - right. exists it, j'. split; [done|]. rewrite H3. f_equal.
    assert (it' = set_pos j it) as -> by congruence. done.
Qed.

Lemma pos_updated_set_pos h a it j :
  h !! a = Some it → pos_updated h (<[a := set_pos j it]> h).
Proof.
  intros Hit x. destruct (decide (x = a)) as [->|Hne].
  - right. exists it, j. by rewrite lookup_insert_eq.
  - rewrite lookup_insert_ne by done. apply pos_updated_refl.
Qed.

(** The item after an item of the chain. *)
Lemma chain_inv_next h b e l1 a l2 :
  chain_inv h b e (l1 ++ a :: l2) →
  ∃ it, h !! a = Some it ∧ next it = hd_ptr l2 e ∧ Some a ≠ e.
Proof.
  intros (ea & -> & Hnd & _ & _ & Hd).
  rewrite <-app_assoc in Hd. apply dll_app in Hd as [_ Hd]. simpl in Hd.
  destruct Hd as (it & Hit & _ & Hn & _).
  exists it. split; [done|]. split.
  - rewrite Hn. by rewrite hd_ptr_app.
  - intros [= ->]. apply NoDup_app in Hnd as (_ & Hx & _).
    apply (Hx ea); set_solver.
Qed.

Lemma chain_inv_size h b e l : chain_inv h b e l → base.size h = S (length l).
Proof.
  intros (ea & _ & Hnd & Hdom & _).
  rewrite <-size_dom, Hdom, size_list_to_set by done.
  rewrite length_app. simpl. lia.
Qed.

Lemma chain_inv_sentinel h b e l :
  chain_inv h b e l → ∃ ea it, e = Some ea ∧ h !! ea = Some it ∧ ea ∉ l.
Proof.
  intros (ea & -> & Hnd & _ & _ & Hd).
  apply dll_app in Hd as [_ Hd]. simpl in Hd. destruct Hd as (it & Hit & _).
  exists ea, it. split_and!; try done.
  apply NoDup_app in Hnd as (_ & Hx & _). intros ?. apply (Hx ea); set_solver.
Qed.

(** The key of an entry further down the chain is in no slot yet. *)
Lemma key_not_in_slots h s es1 a kv es2 :
  items_ok h (es1 ++ (a, kv) :: es2) →
  NoDup ((es1 ++ (a, kv) :: es2).*2.*1) →
  slots_ok h s (es1.*1) →
  ∀ x, key_view h s !! x ≠ Some (Some kv.1).
Proof.
  intros Ho Hnd Hs x Hx.
  destruct (key_view_inv_Some _ _ _ _ _ Hs Hx) as (a' & it' & _ & Ha' & Hit' & Hk & _).
  apply list_elem_of_fmap in Ha' as ([a'' kv'] & -> & Hin). simpl in *.
  destruct (Ho a'' kv') as (it & Hit & Hkv); [set_solver|].
  assert (it = it') as -> by congruence.
  rewrite !fmap_app, !fmap_cons in Hnd. simpl in Hnd.
  apply NoDup_app in Hnd as (_ & Hdisj & _).
  apply (Hdisj kv.1); [|set_solver].
  rewrite <-Hk, Hkv. apply list_elem_of_fmap. exists kv'. split; [done|].
  apply list_elem_of_fmap. by exists (a'', kv').
Qed.

(** Placing an item of the chain that is in no slot at the slot
    [find_pos] gave for its key. *)
Lemma place_item t es l a it j n :
  slotted t es l → a ∉ l → heap t !! a = Some it →
  storage t !! j = Some None →
  (∀ x, x < capacity_ t →
     cdist (capacity_ t) (home t (keyValue it).1) x
       < cdist (capacity_ t) (home t (keyValue it).1) j →
     ∃ k', slot_keys t !! x = Some (Some k')) →
  slotted (with_size n (with_heap (<[a := set_pos j it]> (heap t))
                           (with_storage (<[j := Some a]> (storage t)) t)))
          es (l ++ [a]).
Proof.
  intros ((Hch & Ho & Hnd & Hc & Hlen) & Hs & Hp & Hpi) Ha Hit Hj Hbefore.
  assert (j < length (storage t)) as Hjlt by (by eapply lookup_lt_Some).
  split_and!; simpl.
  - split_and!; simpl; try done.
    + by apply chain_inv_set_pos.
    + by apply items_ok_set_pos.
    + by rewrite length_insert.
  - by apply place_slots_ok.
  - by apply place_placed.
  - unfold slot_keys, home. simpl.
    rewrite key_view_set_pos by done.
    rewrite (key_view_insert _ _ _ _ it) by done.
    apply probe_inv_insert; try done.
    by apply key_view_None.
Qed.

(** * Rehashing *)

(** [insert_item] on the next item of the chain that is in no slot
    yet. *)
Lemma insert_item_spec t es1 a kv es2 :
  slotted t (es1 ++ (a, kv) :: es2) (es1.*1) →
  size_ t = length es1 →
  length es1 < capacity_ t →
  ∃ t', insert_item (Some a) t = Some t' ∧
    slotted t' (es1 ++ (a, kv) :: es2) ((es1 ++ [(a, kv)]).*1) ∧
    size_ t' = S (length es1) ∧
    capacity_ t' = capacity_ t ∧ hasher_ t' = hasher_ t ∧
    _begin t' = _begin t ∧ _end t' = _end t ∧
    pos_updated (heap t) (heap t').
Proof.
  intros Hsl Hsz Hcap.
  pose proof Hsl as ((Hch & Ho & Hnd & Hc & Hlen) & Hs & Hp & Hpi).
  destruct (Ho a kv) as (it & Hit & Hkv); [set_solver|].
  unfold insert_item. simpl. rewrite Hit. simpl.
  destruct (find_pos_spec t (es1.*1) (keyValue it).1 Hc Hlen Hs Hpi)
    as (j & -> & Hj & Hcase & Hbefore); [by rewrite length_fmap|].
  simpl. destruct Hcase as [(a' & it' & Hsj & Ha' & Hit' & Hk & _)|[Hsj Hno]].
  { exfalso. rewrite Hkv in Hk.
    eapply (key_not_in_slots _ _ _ _ _ _ Ho Hnd Hs j).
    rewrite <-Hk. by eapply key_view_Some. }
  unfold vget, vset. rewrite Hsj. simpl.
  rewrite bool_decide_eq_true_2 by lia. simpl.
  rewrite list_lookup_insert_eq by lia. simpl. rewrite Hit. simpl.
  eexists. split; [done|].
  assert (a ∉ es1.*1) as Hnin.
  { destruct Hch as (ea & _ & Hnd' & _).
    rewrite fmap_app, fmap_cons, <-app_assoc in Hnd'. simpl in Hnd'.
    apply NoDup_app in Hnd' as (_ & Hx & _). intros ?. apply (Hx a); set_solver. }
  split_and!; simpl; try done.
  - rewrite fmap_app. simpl. by apply place_item.
  - by rewrite Hsz.
  - by apply pos_updated_set_pos.
Qed.

(** The loop of [resize] places the remaining items of the chain, one
    after the other. *)
Lemma resize_loop_spec es2 : ∀ es1 t fuel,
  slotted t (es1 ++ es2) (es1.*1) →
  size_ t = length es1 →
  length (es1 ++ es2) < capacity_ t →
  length es2 ≤ fuel →
  ∃ t', resize_loop fuel (hd_ptr (es2.*1) (_end t)) t = Some t' ∧
    slotted t' (es1 ++ es2) ((es1 ++ es2).*1) ∧
    size_ t' = length (es1 ++ es2) ∧
    capacity_ t' = capacity_ t ∧ hasher_ t' = hasher_ t ∧
    _begin t' = _begin t ∧ _end t' = _end t ∧
    pos_updated (heap t) (heap t').
Proof.
  induction es2 as [|[a kv] es2 IH]; intros es1 t fuel Hsl Hsz Hcap Hfuel.
  - simpl. exists t. destruct fuel; simpl.
    all: rewrite bool_decide_eq_false_2 by (intros ?; done).
    all: rewrite app_nil_r in *; split_and!; try done; apply pos_updated_refl.
  - destruct fuel as [|fuel]; [simpl in Hfuel; lia|].
    pose proof Hsl as ((Hch & _) & _).
    rewrite fmap_app, fmap_cons in Hch.
    destruct (chain_inv_next _ _ _ _ _ _ Hch) as (it0 & Hit0 & Hn0 & Hne).
    simpl. rewrite bool_decide_eq_true_2 by done.
    destruct (insert_item_spec t es1 a kv es2 Hsl Hsz) as
      (t1 & -> & Hsl1 & Hsz1 & Hc1 & Hh1 & Hb1 & He1 & Hpu1).
    { rewrite length_app in Hcap. simpl in Hcap. lia. }
    simpl.
    pose proof Hsl1 as ((Hch1 & _) & _).
    rewrite fmap_app, fmap_cons in Hch1.
    destruct (chain_inv_next _ _ _ _ _ _ Hch1) as (it1 & Hit1 & Hn1 & _).
    simpl in Hit1. rewrite Hit1. simpl. rewrite Hn1, <-He1.
    rewrite (cons_middle _ es1 es2), app_assoc in Hsl1.
    destruct (IH (es1 ++ [(a, kv)]) t1 fuel Hsl1) as
      (t2 & Hr & Hsl2 & Hsz2 & Hc2 & Hh2 & Hb2 & He2 & Hpu2).
    { rewrite length_app. simpl. lia. }
    { rewrite Hc1. rewrite <-app_assoc. done. }
    { simpl in Hfuel. lia. }
    exists t2. rewrite Hr. rewrite <-app_assoc in *. simpl in *.
    split_and!; try congruence; try done.
    by eapply pos_updated_trans.
Qed.

(** [resize] keeps the chain as it is and builds a slot array of the new
    capacity that holds every item of the chain. *)
Lemma resize_spec t es n :
  wf t es → length es < n →
  ∃ t', resize n t = Some t' ∧
    slotted t' es (es.*1) ∧
    size_ t' = length es ∧ capacity_ t' = n ∧ hasher_ t' = hasher_ t ∧
    _begin t' = _begin t ∧ _end t' = _end t ∧
    pos_updated (heap t) (heap t').
Proof.
  intros (Hch & Ho & Hnd & Hc & Hlen) Hn. unfold resize.
  set (t0 := with_size 0 (with_capacity n (with_storage (replicate n None) t))).
  assert (slotted t0 ([] ++ es) ([] : list (nat * (KeyType * ValueType))).*1) as Hsl.
  { split_and!; simpl.
    - split_and!; simpl; try done; [lia|]. by rewrite length_replicate.
    - intros i a Hi. by apply lookup_replicate in Hi as [? _].
    - intros a Ha. by apply elem_of_nil in Ha.
    - intros i k x Hi. unfold slot_keys, key_view in Hi. simpl in Hi.
      rewrite list_lookup_fmap in Hi.
      destruct (replicate n None !! i) as [p|] eqn:Hr; simpl in Hi; [|done].
      apply lookup_replicate in Hr as [-> _]. done. }
  assert (_begin t = hd_ptr (es.*1) (_end t0)) as Hb.
  { destruct Hch as (ea & He & _ & _ & Hb & _). by rewrite Hb. }
  destruct (resize_loop_spec es [] t0 (base.size (heap t0)) Hsl) as
    (t' & Hr & Hsl' & Hsz' & Hc' & Hh' & Hb' & He' & Hpu'); simpl; try done.
  { rewrite (chain_inv_size _ _ _ _ Hch). rewrite length_fmap. lia. }
  exists t'. simpl in *. rewrite Hb. split; [done|].
  split_and!; try done. by rewrite Hb' at 1.
Qed.

(** [resize_if_need] after an operation that grew the table by at most
    one item restores the bound on the load. *)
Lemma resize_if_need_spec t es :
  slotted t es (es.*1) → size_ t = length es →
  size_ t * 4 < capacity_ t * 3 + 4 →
  ∃ t', resize_if_need t = Some t' ∧ Inv t' es ∧
    hasher_ t' = hasher_ t ∧ _begin t' = _begin t ∧ _end t' = _end t ∧
    pos_updated (heap t) (heap t') ∧
    capacity_ t' = (if bool_decide (capacity_ t * 3 ≤ size_ t * 4)
                    then capacity_ t * 2 else capacity_ t).
Proof.
  intros Hsl Hsz Hload. unfold resize_if_need.
  pose proof Hsl as ((_ & _ & _ & Hc & _) & _).
  case_bool_decide as Htrig.
  - destruct (resize_spec t es (capacity_ t * 2)) as
      (t' & -> & Hsl' & Hsz' & Hc' & Hh' & Hb' & He' & Hpu'); [by destruct Hsl|lia|].
    exists t'. split_and!; try done.
    split_and!; try done. lia.
  - exists t. split_and!; try done; [|apply pos_updated_refl].
    split_and!; try done. lia.
Qed.

(** * Insertion *)

Lemma entry_key_in (es : list (nat * (KeyType * ValueType))) a kv :
  (a, kv) ∈ es → kv.1 ∈ es.*2.*1.
Proof.
  intros Hin. apply list_elem_of_fmap. exists kv. split; [done|].
  apply list_elem_of_fmap. by exists (a, kv).
Qed.

Lemma entry_of_addr (es : list (nat * (KeyType * ValueType))) a :
  a ∈ es.*1 → ∃ kv, (a, kv) ∈ es.
Proof.
  intros ([a' kv] & -> & Hin)%list_elem_of_fmap. by exists kv.
Qed.

Lemma entry_of_key (es : list (nat * (KeyType * ValueType))) k :
  k ∈ es.*2.*1 → ∃ a v, (a, (k, v)) ∈ es.
Proof.
  intros ([k' v] & -> & ([a kv] & Heq & Hin)%list_elem_of_fmap)%list_elem_of_fmap.
  simpl in *. subst. eauto.
Qed.

(** Every key of the table is in a slot, and every slot holds an entry. *)
Lemma key_in_slots t es a kv :
  slotted t es (es.*1) → (a, kv) ∈ es →
  ∃ it, heap t !! a = Some it ∧ keyValue it = kv ∧
        storage t !! pos it = Some (Some a) ∧
        slot_keys t !! pos it = Some (Some kv.1).
Proof.
  intros ((_ & Ho & _) & _ & Hp & _) Hin.
  destruct (Ho a kv Hin) as (it & Hit & Hkv).
  destruct (Hp a) as (it' & Hit' & Hs).
  { apply list_elem_of_fmap. by exists (a, kv). }
  assert (it' = it) as -> by congruence.
  exists it. split_and!; try done.
  rewrite <-Hkv. by eapply key_view_Some.
Qed.

Lemma slot_entry t es l j a it :
  slotted t es l → (∀ x, x ∈ l → x ∈ es.*1) →
  storage t !! j = Some (Some a) → heap t !! a = Some it →
  (a, keyValue it) ∈ es.
Proof.
  intros ((_ & Ho & _) & Hs & _) Hsub Hj Hit.
  destruct (Hs j a Hj) as (Ha & _).
  destruct (entry_of_addr es a (Hsub a Ha)) as [kv Hin].
  destruct (Ho a kv Hin) as (it' & Hit' & Hkv).
  assert (it' = it) as -> by congruence. by rewrite Hkv.
Qed.

(** [create_item] appends a fresh item to the chain and leaves the slot
    array alone. *)
Lemma create_item_spec t es key value :
  wf t es → key ∉ es.*2.*1 →
  ∃ a h' b', create_item key value t = Some (Some a, with_begin b' (with_heap h' t)) ∧
    (a ∉ es.*1) ∧ heap t !! a = None ∧
    wf (with_begin b' (with_heap h' t)) (es ++ [(a, (key, value))]) ∧
    (∃ it, h' !! a = Some it ∧ keyValue it = (key, value)) ∧
    (∀ x, x ≠ a → payload_kept (heap t) h' x).
Proof.
  intros (Hch & Ho & Hnd & Hc & Hlen) Hkey.
  destruct Hch as (ea & He & Hnda & Hdom & Hb & Hd).
  pose proof Hd as Hd'. apply dll_app in Hd' as [_ Hd']. simpl in Hd'.
  destruct Hd' as (e_it & He_it & _).
  unfold create_item. rewrite He. simpl. rewrite He_it. simpl.
  destruct (new_Item_tail (heap t) (es.*1) ea e_it (key, value) Hnda Hdom Hd He_it)
    as (a & h' & -> & Ha & Hd1 & Hdom1 & (it & Hit & Hkv & Hprev) & Hkept).
  simpl. rewrite Hit. simpl.
  assert (heap t !! a = None) as Hfresh.
  { apply not_elem_of_dom. rewrite Hdom. by rewrite elem_of_list_to_set. }
  assert (a ∉ es.*1) as Ha' by set_solver.
  assert (NoDup ((es.*1 ++ [a]) ++ [ea])) as Hnd1.
  { rewrite <-app_assoc. simpl. apply NoDup_app in Hnda as (N1 & N2 & N3).
    apply NoDup_app. split_and!; try done.
    - intros x Hx [->|Hx2%list_elem_of_singleton]%elem_of_cons; [done|].
      subst. apply (N2 ea); set_solver.
    - apply NoDup_cons. split; [set_solver|done]. }
  set (b' := if bool_decide (prev it = None) then Some a else _begin t).
  exists a, h', b'. split.
  { unfold b'. by case_bool_decide. }
  split_and!; try done; [|eauto].
  split_and!; simpl; try done.
  - exists ea. rewrite fmap_app. simpl. split_and!; try done.
    unfold b'. rewrite Hprev. case_bool_decide as Hl.
    + apply last_ptr_None in Hl. by rewrite Hl.
    + rewrite Hb, He. destruct (es.*1); [done|]. done.
  - intros x kv [Hin|Hin%list_elem_of_singleton]%elem_of_app.
    + destruct (Ho x kv Hin) as (itx & Hitx & Hkvx).
      destruct (Hkept x) with (it := itx) as (it' & ? & ? & ?); [|done|].
      { intros ->. apply Ha'. apply list_elem_of_fmap. by exists (a, kv). }
      exists it'. split; congruence.
    + injection Hin as -> ->. eauto.
  - rewrite !fmap_app. simpl. apply NoDup_app. split_and!; try done.
    + intros x Hx Hx'%list_elem_of_singleton. by subst.
    + apply NoDup_singleton.
Qed.

(** [insert] leaves a table that holds the key as it is, and appends the
    pair to a table that does not. *)
Lemma insert_spec t es kv :
  Inv t es →
  ∃ t' es', insert kv t = Some t' ∧ Inv t' es' ∧
    hasher_ t' = hasher_ t ∧ _end t' = _end t ∧
    ((kv.1 ∈ es.*2.*1 ∧ t' = t ∧ es' = es) ∨
     ((kv.1 ∉ es.*2.*1) ∧ ∃ a, (a ∉ es.*1) ∧ es' = es ++ [(a, kv)] ∧
        capacity_ t' = (if bool_decide (capacity_ t * 3 ≤ S (size_ t) * 4)
                        then capacity_ t * 2 else capacity_ t))).
Proof.
  intros Hinv. pose proof Hinv as (Hsl & Hsz & Hload).
  pose proof Hsl as (Hwf & Hs & Hp & Hpi).
  pose proof Hwf as (Hch & Ho & Hnd & Hc & Hlen).
  unfold insert.
  destruct (find_pos_spec t (es.*1) kv.1 Hc Hlen Hs Hpi)
    as (j & -> & Hj & Hcase & Hbefore); [rewrite length_fmap; lia|].
  simpl. destruct Hcase as [(a' & it' & Hsj & Ha' & Hit' & Hk & _)|[Hsj Hno]].
  - exists t, es. unfold vget. rewrite Hsj. simpl.
    split_and!; try done. left. split_and!; try done.
    rewrite <-Hk. eapply entry_key_in.
    eapply (slot_entry t es (es.*1)); eauto.
  - unfold vget. rewrite Hsj. simpl.
    assert (kv.1 ∉ es.*2.*1) as Hkey.
    { intros (a0 & v0 & Hin)%entry_of_key.
      destruct (key_in_slots t es _ _ Hsl Hin) as (it0 & _ & _ & _ & Hk0).
      by apply (Hno (pos it0)). }
    destruct (create_item_spec t es kv.1 kv.2 Hwf Hkey)
      as (a & h' & b' & -> & Ha & Hfresh & Hwf1 & (it & Hit & Hkv) & Hkept).
    simpl. unfold vset.
    rewrite bool_decide_eq_true_2 by lia. simpl.
    rewrite list_lookup_insert_eq by lia. simpl. rewrite Hit. simpl.
    assert (∀ x, x ∈ es.*1 → payload_kept (heap t) h' x) as Hkept'.
    { intros x Hx. apply Hkept. intros ->. done. }
    assert (kv = (kv.1, kv.2)) as Hkveq by (by destruct kv).
    rewrite <-Hkveq in *.
    edestruct (resize_if_need_spec) with (es := es ++ [(a, kv)])
      as (t' & -> & Hinv' & Hh' & Hb' & He' & Hpu' & Hc'); simpl.
    + rewrite fmap_app. simpl.
      apply (place_item (with_begin b' (with_heap h' t))); simpl; try done.
      * split_and!; simpl; try done.
        -- by eapply slots_ok_frame.
        -- by eapply placed_frame.
        -- unfold slot_keys, home. simpl.
           by rewrite (key_view_frame _ _ _ _ Hkept' Hs).
      * rewrite Hkv. unfold slot_keys, home in *. simpl.
        by rewrite (key_view_frame _ _ _ _ Hkept' Hs).
    + rewrite length_app. simpl. lia.
    + lia.
    + simpl in *. exists t', (es ++ [(a, kv)]). split_and!; try done.
      right. split; [done|]. exists a. split_and!; try done.
Qed.

(** * Deletion *)

(** [find_next] stops at the first slot after [p], in cyclic order, that
    is empty, or holds a key whose home slot is not in the cyclic range
    from the slot after [p] to the slot itself. *)
Lemma find_next_spec t l p j :
  0 < capacity_ t → length (storage t) = capacity_ t → p < capacity_ t →
  slots_ok (heap t) (storage t) l →
  find_next t p = Some j →
  j < capacity_ t ∧
  (storage t !! j = Some None ∨
   ∃ a it, storage t !! j = Some (Some a) ∧ heap t !! a = Some it ∧
     ¬ cdist (capacity_ t) (cinc (capacity_ t) p) (home t (keyValue it).1)
         ≤ cdist (capacity_ t) (cinc (capacity_ t) p) j) ∧
  (∀ x, x < capacity_ t →
     cdist (capacity_ t) (cinc (capacity_ t) p) x
       < cdist (capacity_ t) (cinc (capacity_ t) p) j →
     ∃ k, slot_keys t !! x = Some (Some k) ∧
       cdist (capacity_ t) (cinc (capacity_ t) p) (home t k)
         ≤ cdist (capacity_ t) (cinc (capacity_ t) p) x).
Proof.
  intros Hc Hlen Hp Hs. unfold find_next.
  rewrite (find_next_loop_cscan t) by (try done; by eapply slots_ok_live).
  change (cyclic_inc t p) with (cinc (capacity_ t) p).
  assert (length (slot_keys t) = capacity_ t) as Hlen'.
  { unfold slot_keys. by rewrite key_view_length. }
  assert (cinc (capacity_ t) p < capacity_ t) as Hcp by (by apply cinc_lt).
  intros Hscan.
  destruct (cscan_first _ _ _ _ _ _ Hcp Hlen' Hscan) as (Hj & _ & (c & Hcj & Hst) & Hbefore).
  split; [done|]. split.
  - destruct c as [k|]; simpl in Hst.
    + right. destruct (key_view_inv_Some _ _ _ _ _ Hs Hcj) as (a & it & Hsj & _ & Hit & Hk & _).
      exists a, it. split_and!; try done. rewrite Hk.
      rewrite <-(is_in_range_cdist (capacity_ t)); try done; [|by apply home_lt].
      by destruct (is_in_range _ _ _).
    + left. by eapply key_view_inv_None.
  - intros x Hx Hlt. destruct (Hbefore x Hx Hlt) as (cx & Hcx & Hstx).
    destruct cx as [k|]; simpl in Hstx; [|done].
    exists k. split; [done|].
    rewrite <-(is_in_range_cdist (capacity_ t)); try done; [|by apply home_lt].
    by destruct (is_in_range _ _ _).
Qed.

Lemma find_next_total t l p e0 :
  0 < capacity_ t → length (storage t) = capacity_ t → p < capacity_ t →
  slots_ok (heap t) (storage t) l →
  storage t !! e0 = Some None →
  is_Some (find_next t p).
Proof.
  intros Hc Hlen Hp Hs He0. unfold find_next.
  rewrite (find_next_loop_cscan t) by (try done; by eapply slots_ok_live).
  change (cyclic_inc t p) with (cinc (capacity_ t) p).
  assert (e0 < capacity_ t) as He0lt.
  { rewrite <-Hlen. by eapply lookup_lt_Some. }
  eapply (cscan_total _ _ _ _ _ e0 None); try done.
  - by apply cinc_lt.
  - unfold slot_keys. by rewrite key_view_length.
  - by apply key_view_None.
  - apply cdist_lt; [by apply cinc_lt|done].
Qed.

(** [delete_item] takes an entry out of the chain and leaves the slot
    array alone. *)
Lemma delete_item_spec t es1 a kv es2 :
  wf t (es1 ++ (a, kv) :: es2) →
  ∃ h' b', delete_item (Some a) t = Some (with_heap h' (with_begin b' t)) ∧
    wf (with_heap h' (with_begin b' t)) (es1 ++ es2) ∧
    h' !! a = None ∧ (a ∉ (es1 ++ es2).*1) ∧
    (∀ x, x ≠ a → payload_kept (heap t) h' x).
Proof.
  intros (Hch & Ho & Hnd & Hc & Hlen).
  destruct Hch as (ea & He & Hnda & Hdom & Hb & Hd).
  rewrite fmap_app, fmap_cons in Hnda, Hdom, Hd, Hb. simpl in Hnda, Hdom, Hd, Hb.
  rewrite <-app_assoc in Hnda, Hdom, Hd. simpl in Hnda, Hdom, Hd.
  destruct (delete_Item_chain (heap t) (es1.*1) a (es2.*1 ++ [ea]) Hnda Hdom Hd)
    as (h' & it & Hit & Hn & Hdel & Hd' & Hdom' & Hkept).
  assert (a ∉ es1.*1 ++ es2.*1 ++ [ea]) as Hnin.
  { apply NoDup_app in Hnda as (_ & Hx & Hy). apply NoDup_cons in Hy as [Hy _].
    intros [?|?]%elem_of_app; [|done]. apply (Hx a); set_solver. }
  assert (h' !! a = None) as Hgone.
  { apply not_elem_of_dom. rewrite Hdom'. by rewrite elem_of_list_to_set. }
  set (b' := if bool_decide (Some a = _begin t) then next it else _begin t).
  exists h', b'. split.
  { unfold delete_item. unfold b'. case_bool_decide as Hab; simpl.
    - rewrite <-Hab. simpl. rewrite Hit. simpl. by rewrite Hdel.
    - by rewrite Hdel. }
  assert (a ∉ (es1 ++ es2).*1) as Hnin'.
  { rewrite fmap_app. set_solver. }
  split_and!; try done.
  split_and!; simpl; try done.
  - exists ea. rewrite fmap_app, <-app_assoc. split_and!; try done.
    + apply NoDup_app in Hnda as (N1 & N2 & N3). apply NoDup_cons in N3 as [_ N3].
      apply NoDup_app. split_and!; try done. intros x Hx Hx'. apply (N2 x); set_solver.
    + unfold b'. rewrite Hb, He. destruct (es1.*1) as [|x l1] eqn:E1; simpl.
      * rewrite bool_decide_eq_true_2 by done. rewrite Hn. by rewrite hd_ptr_app.
      * rewrite bool_decide_eq_false_2; [done|]. intros [= ->].
        apply Hnin. set_solver.
  - eapply items_ok_frame.
    + intros x Hx. apply Hkept. intros ->. done.
    + intros x kvx Hin. apply Ho. set_solver.
  - rewrite !fmap_app, !fmap_cons in Hnd. rewrite !fmap_app.
    apply NoDup_app in Hnd as (N1 & N2 & N3). apply NoDup_cons in N3 as [_ N3].
    apply NoDup_app. split_and!; try done. intros x Hx Hx'. apply (N2 x); set_solver.
Qed.

(** One turn of the loop of [erase]: the item of slot [j] moves into the
    hole. *)
Lemma move_step t es p j a it :
  holed t es p → storage t !! j = Some (Some a) → heap t !! a = Some it →
  ¬ cdist (capacity_ t) (cinc (capacity_ t) p) (home t (keyValue it).1)
      ≤ cdist (capacity_ t) (cinc (capacity_ t) p) j →
  holed (with_heap (<[a := set_pos p it]> (heap t))
           (with_storage (<[j := None]> (<[p := Some a]> (storage t))) t)) es j.
Proof.
  intros ((Hch & Ho & Hnd & Hc & Hlen) & Hs & Hp & Hpi & Hhole) Hj Hit Hout.
  assert (j ≠ p) as Hjp by (intros ->; congruence).
  assert (j < capacity_ t) as Hjlt by (rewrite <-Hlen; by eapply lookup_lt_Some).
  assert (p < capacity_ t) as Hplt by (rewrite <-Hlen; by eapply lookup_lt_Some).
  destruct (Hs j a Hj) as (Ha & it0 & Hit0 & Hpos).
  assert (it0 = it) as -> by congruence.
  split_and!; simpl.
  - split_and!; simpl; try done.
    + by apply chain_inv_set_pos.
    + by apply items_ok_set_pos.
    + by rewrite !length_insert.
  - intros i x Hi.
    apply list_lookup_insert_Some in Hi as [(_ & ? & _)|(Hij & Hi)]; [done|].
    apply list_lookup_insert_Some in Hi as [(<- & [= <-] & _)|(Hip & Hi)].
    + split; [done|]. exists (set_pos p it). by rewrite lookup_insert_eq.
    + destruct (Hs i x Hi) as (Hx & itx & Hitx & Hpx). split; [done|].
      exists itx. rewrite lookup_insert_ne; [done|]. intros ->. congruence.
  - intros x Hx. destruct (decide (x = a)) as [->|Hxa].
    + exists (set_pos p it). rewrite lookup_insert_eq. split; [done|]. simpl.
      rewrite list_lookup_insert_ne by done.
      rewrite list_lookup_insert_eq by lia. done.
    + destruct (Hp x Hx) as (itx & Hitx & Hsx).
      exists itx. rewrite lookup_insert_ne by done. split; [done|].
      rewrite !list_lookup_insert_ne; [done|congruence|congruence].
  - unfold slot_keys, home. simpl.
    rewrite key_view_set_pos by done.
    rewrite key_view_insert_None, (key_view_insert _ _ _ _ it) by done.
    apply probe_inv_hole_move; try done.
    + intros k. by apply home_lt.
    + unfold slot_keys. by rewrite key_view_length.
    + by eapply key_view_Some.
  - rewrite list_lookup_insert_eq; [done|]. rewrite length_insert. lia.
Qed.

(** The loop of [erase] comes to an end and closes the hole. *)
Lemma erase_loop_spec es fuel : ∀ t p j e0,
  holed t es p → find_next t p = Some j →
  storage t !! e0 = Some None → e0 ≠ p →
  cdist (capacity_ t) p e0 ≤ fuel →
  ∃ t', erase_loop fuel p j t = Some t' ∧
    slotted t' es (es.*1) ∧
    size_ t' = size_ t ∧ capacity_ t' = capacity_ t ∧ hasher_ t' = hasher_ t ∧
    _begin t' = _begin t ∧ _end t' = _end t ∧
    pos_updated (heap t) (heap t').
Proof.
  induction fuel as [|fuel IH]; intros t p j e0 Hh Hfn He0 Hne Hfuel.
  all: pose proof Hh as (Hwf & Hs & Hp & Hpi & Hhole).
  all: pose proof Hwf as (Hch & Ho & Hnd & Hc & Hlen).
  all: assert (p < capacity_ t) as Hplt by (rewrite <-Hlen; by eapply lookup_lt_Some).
  all: assert (e0 < capacity_ t) as He0lt by (rewrite <-Hlen; by eapply lookup_lt_Some).
  all: destruct (find_next_spec t _ p j Hc Hlen Hplt Hs Hfn) as (Hjlt & Hcase & Hbefore).
  all: assert (∀ k, home t k < capacity_ t) as Hhome by (intros k; by apply home_lt).
  all: assert (length (slot_keys t) = capacity_ t) as Hlen'
         by (unfold slot_keys; by rewrite key_view_length).
  all: destruct Hcase as [Hend|(a & it & Hsj & Hit & Hout)].
  1,3: exists t; simpl; unfold vget; rewrite Hend; simpl;
       split_and!; try done; [|apply pos_updated_refl];
       split_and!; try done;
       eapply (probe_inv_hole_close _ _ Hhome _ p j); try done;
       by apply key_view_None.
  - exfalso. assert (cdist (capacity_ t) p e0 = 0) as Hz by lia.
    apply cdist_zero in Hz; [congruence|done..].
  - assert (j ≠ p) as Hjp by (intros ->; congruence).
    simpl. unfold vget, vset. rewrite Hsj. simpl.
    rewrite bool_decide_eq_true_2 by lia. simpl.
    rewrite length_insert. rewrite bool_decide_eq_true_2 by lia. simpl.
    rewrite list_lookup_insert_ne by done.
    rewrite list_lookup_insert_eq by lia. simpl. rewrite Hit. simpl.
    pose proof (move_step t es p j a it Hh Hsj Hit Hout) as Hh1.
    set (t1 := with_heap _ _) in *.
    assert (e0 ≠ j) as He0j by (intros ->; congruence).
    assert (storage t1 !! e0 = Some None) as He01.
    { simpl. by rewrite !list_lookup_insert_ne. }
    destruct Hh1 as (Hwf1 & Hs1 & Hp1 & Hpi1 & Hhole1).
    destruct (find_next_total t1 (es.*1) j e0) as [j' Hj']; simpl; try done.
    { by rewrite !length_insert. }
    rewrite Hj'. simpl.
    assert (cdist (capacity_ t) j e0 < cdist (capacity_ t) p e0) as Hcloser.
    { destruct (decide (cdist (capacity_ t) (cinc (capacity_ t) p) e0
                        < cdist (capacity_ t) (cinc (capacity_ t) p) j)) as [Hlt|Hge].
      - destruct (Hbefore e0 He0lt Hlt) as (k & Hk & _).
        unfold slot_keys in Hk.
        rewrite (key_view_None (heap t) _ _ He0) in Hk. done.
      - clear -Hge Hplt He0lt Hjlt Hne He0j Hjp.
        unfold cdist, cinc in *. repeat case_bool_decide; lia. }
    destruct (IH t1 j j' e0) as
      (t' & Hr & Hsl' & Hsz' & Hc' & Hh' & Hb' & He' & Hpu'); try done.
    { simpl. lia. }
    exists t'. split; [done|]. simpl in *. split_and!; try done.
    eapply pos_updated_trans; [|done]. by apply pos_updated_set_pos.
Qed.

(** The key view after an item has been destroyed and its slot
    emptied. *)
Lemma key_view_delete h h' s l a j :
  slots_ok h s l → s !! j = Some (Some a) →
  (∀ x, x ≠ a → payload_kept h h' x) →
  key_view h' (<[j := None]> s) = <[j := None]> (key_view h s).
Proof.
  intros Hs Hj Hkept. rewrite key_view_insert_None.
  apply list_eq. intros i. destruct (decide (i = j)) as [->|Hij].
  - rewrite !list_lookup_insert_eq; [done|rewrite key_view_length..];
      by eapply lookup_lt_Some.
  - rewrite !list_lookup_insert_ne by done.
    unfold key_view. rewrite !list_lookup_fmap.
    destruct (s !! i) as [[x|]|] eqn:Hi; simpl; try done.
    destruct (Hs i x Hi) as (_ & itx & Hitx & Hpx).
    destruct (Hs j a Hj) as (_ & ita & Hita & Hpa).
    destruct (Hkept x) with (it := itx) as (it' & Hit' & Hkv & _); [|done|].
    { intros ->. congruence. }
    rewrite Hitx, Hit'. simpl. by rewrite Hkv.
Qed.

(** [erase] leaves a table that does not hold the key as it is, and
    takes the entry of the key out of a table that holds it. *)
Lemma erase_spec t es key :
  Inv t es →
  ∃ t' es', erase key t = Some t' ∧ Inv t' es' ∧
    hasher_ t' = hasher_ t ∧ _end t' = _end t ∧ capacity_ t' = capacity_ t ∧
    (((key ∉ es.*2.*1) ∧ t' = t ∧ es' = es) ∨
     (∃ es1 a v es2, es = es1 ++ (a, (key, v)) :: es2 ∧ es' = es1 ++ es2)).
Proof.
  intros Hinv. pose proof Hinv as (Hsl & Hsz & Hload).
  pose proof Hsl as (Hwf & Hs & Hp & Hpi).
  pose proof Hwf as (Hch & Ho & Hnd & Hc & Hlen).
  unfold erase.
  destruct (find_pos_spec t (es.*1) key Hc Hlen Hs Hpi)
    as (j & -> & Hj & Hcase & _); [rewrite length_fmap; lia|].
  simpl. destruct Hcase as [(a & it & Hsj & Ha & Hit & Hk & Hpos)|[Hsj Hno]].
  2:{ exists t, es. unfold vget. rewrite Hsj. simpl.
      split_and!; try done. left. split_and!; try done.
      intros (a0 & v0 & Hin)%entry_of_key.
      destruct (key_in_slots t es _ _ Hsl Hin) as (it0 & _ & _ & _ & Hk0).
      by apply (Hno (pos it0)). }
  unfold vget. rewrite Hsj. simpl.
  assert ((a, keyValue it) ∈ es) as Hin by (eapply (slot_entry t es (es.*1)); eauto).
  apply list_elem_of_split in Hin as (es1 & es2 & Hes).
  destruct (has_empty_slot _ _ _ Hs) as [e0 He0]; [rewrite length_fmap; lia|].
  assert (e0 ≠ j) as He0j by (intros ->; congruence).
  rewrite Hes in Hwf.
  destruct (delete_item_spec t es1 a (keyValue it) es2 Hwf)
    as (h' & b' & -> & Hwf1 & Hgone & Hnin & Hkept).
  simpl. unfold vset. rewrite bool_decide_eq_true_2 by lia. simpl.
  set (t2 := with_size _ _).
  assert (holed t2 (es1 ++ es2) j) as Hh2.
  { destruct Hwf1 as (Hch1 & Ho1 & Hnd1 & Hc1 & Hlen1). split_and!; simpl.
    - split_and!; simpl; try done. by rewrite length_insert.
    - intros i x Hi.
      apply list_lookup_insert_Some in Hi as [(_ & ? & _)|(Hij & Hi)]; [done|].
      destruct (Hs i x Hi) as (Hx & itx & Hitx & Hpx).
      assert (x ≠ a) as Hxa by (intros ->; congruence).
      split.
      + rewrite Hes, fmap_app, fmap_cons in Hx. rewrite fmap_app. set_solver.
      + destruct (Hkept x Hxa itx Hitx) as (it' & ? & ? & ?).
        exists it'. split; congruence.
    - intros x Hx.
      assert (x ≠ a) as Hxa by (intros ->; done).
      destruct (Hp x) as (itx & Hitx & Hsx).
      { rewrite Hes, fmap_app, fmap_cons. rewrite fmap_app in Hx. set_solver. }
      destruct (Hkept x Hxa itx Hitx) as (it' & ? & ? & Hpos').
      exists it'. split; [done|]. rewrite Hpos'.
      rewrite list_lookup_insert_ne; [done|]. intros Heq. rewrite Heq in Hsj. congruence.
    - unfold slot_keys, home. simpl.
      rewrite (key_view_delete (heap t) h' _ _ a j Hs Hsj Hkept).
      by apply probe_inv_hole_open.
    - by rewrite list_lookup_insert_eq by lia. }
  assert (storage t2 !! e0 = Some None) as He02.
  { simpl. by rewrite list_lookup_insert_ne. }
  destruct Hh2 as (Hwf2 & Hs2 & Hp2 & Hpi2 & Hhole2).
  destruct (find_next_total t2 ((es1 ++ es2).*1) j e0) as [j' Hj']; simpl; try done.
  { by rewrite length_insert. }
  rewrite Hj'. simpl.
  destruct (erase_loop_spec (es1 ++ es2) (capacity_ t) t2 j j' e0) as
    (t3 & -> & Hsl3 & Hsz3 & Hc3 & Hh3 & Hb3 & He3 & Hpu3); simpl; try done.
  { apply Nat.lt_le_incl. apply cdist_lt; [done|].
    rewrite <-Hlen. by eapply lookup_lt_Some. }
  simpl in *.
  assert (length es = S (length (es1 ++ es2))) as Hl.
  { rewrite Hes, !length_app. simpl. lia. }
  destruct (resize_if_need_spec t3 (es1 ++ es2)) as
    (t' & -> & Hinv' & Hh' & Hb' & He' & Hpu' & Hc'); try done; [lia..|].
  exists t', (es1 ++ es2). split; [done|].
  rewrite bool_decide_eq_false_2 in Hc' by lia.
  split_and!; try congruence.
  right. exists es1, a, (keyValue it).2, es2. split; [|done].
  rewrite Hes. repeat f_equal. rewrite <-Hk. by destruct (keyValue it).
Qed.

(** * Iteration and lookup *)

(** Walking from an item of the chain to [end()] yields the pairs from
    this item on. *)
Lemma iterate_loop_spec t es2 : ∀ es1 fuel,
  wf t (es1 ++ es2) → length es2 ≤ fuel →
  iterate_loop fuel t (hd_ptr (es2.*1) (_end t)) = Some (es2.*2).
Proof.
  induction es2 as [|[a kv] es2 IH]; intros es1 fuel Hwf Hfuel.
  - destruct fuel; simpl; unfold end_; by rewrite bool_decide_eq_false_2 by (intros ?; done).
  - destruct fuel as [|fuel]; [simpl in Hfuel; lia|].
    pose proof Hwf as (Hch & Ho & _).
    rewrite fmap_app, fmap_cons in Hch.
    destruct (chain_inv_next _ _ _ _ _ _ Hch) as (it & Hit & Hn & Hne).
    destruct (Ho a kv) as (it' & Hit' & Hkv); [set_solver|].
    simpl in Hit. assert (it' = it) as -> by congruence.
    simpl. unfold end_. rewrite bool_decide_eq_true_2 by done.
    unfold iterator_deref, iterator_incr. simpl. rewrite Hit. simpl.
    rewrite Hn. rewrite (cons_middle _ es1 es2), app_assoc in Hwf.
    rewrite (IH _ fuel Hwf) by (simpl in Hfuel; lia). simpl. by rewrite Hkv.
Qed.

Lemma wf_begin t es : wf t es → _begin t = hd_ptr (es.*1) (_end t).
Proof. intros ((ea & He & _ & _ & Hb & _) & _). done. Qed.

(** Iterating from [begin()] to [end()] yields the pairs of the table in
    chain order. *)
Lemma iterate_spec t es : wf t es → iterate t = Some (es.*2).
Proof.
  intros Hwf. unfold iterate, begin. rewrite (wf_begin t es Hwf).
  apply (iterate_loop_spec t es []); [done|].
  destruct Hwf as (Hch & _). rewrite (chain_inv_size _ _ _ _ Hch), length_fmap. lia.
Qed.

(** The entry a key has in the table, if any; the keys are distinct. *)
Lemma entry_unique (es : list (nat * (KeyType * ValueType))) a1 a2 k v1 v2 :
  NoDup (es.*2.*1) → (a1, (k, v1)) ∈ es → (a2, (k, v2)) ∈ es →
  a1 = a2 ∧ v1 = v2.
Proof.
  intros Hnd H1 H2.
  apply list_elem_of_lookup_1 in H1 as [i1 H1].
  apply list_elem_of_lookup_1 in H2 as [i2 H2].
  assert (es.*2.*1 !! i1 = Some k) as K1 by (by rewrite !list_lookup_fmap, H1).
  assert (es.*2.*1 !! i2 = Some k) as K2 by (by rewrite !list_lookup_fmap, H2).
  assert (i1 = i2) as -> by (by eapply NoDup_lookup).
  split; congruence.
Qed.

(** What the probe of the public lookups finds. *)
Lemma lookup_spec t es key :
  Inv t es →
  ∃ j, find_pos t key = Some j ∧
    ((storage t !! j = Some None ∧ key ∉ es.*2.*1) ∨
     (∃ a v it, storage t !! j = Some (Some a) ∧ (a, (key, v)) ∈ es ∧
        heap t !! a = Some it ∧ keyValue it = (key, v))).
Proof.
  intros (Hsl & Hsz & Hload).
  pose proof Hsl as (Hwf & Hs & Hp & Hpi).
  pose proof Hwf as (Hch & Ho & Hnd & Hc & Hlen).
  destruct (find_pos_spec t (es.*1) key Hc Hlen Hs Hpi)
    as (j & Hfp & Hj & Hcase & _); [rewrite length_fmap; lia|].
  exists j. split; [done|].
  destruct Hcase as [(a & it & Hsj & Ha & Hit & Hk & Hpos)|[Hsj Hno]].
  - right. exists a, (keyValue it).2, it.
    assert ((key, (keyValue it).2) = keyValue it) as Heq.
    { rewrite <-Hk. by destruct (keyValue it). }
    split_and!; try done. rewrite Heq.
    eapply (slot_entry t es (es.*1)); eauto.
  - left. split; [done|].
    intros (a0 & v0 & Hin)%entry_of_key.
    destruct (key_in_slots t es _ _ Hsl Hin) as (it0 & _ & _ & _ & Hk0).
    by apply (Hno (pos it0)).
Qed.

Lemma entry_not_end t es a kv : wf t es → (a, kv) ∈ es → Some a ≠ _end t.
Proof.
  intros (Hch & _) Hin.
  destruct (chain_inv_sentinel _ _ _ _ Hch) as (ea & it & He & _ & Hnin).
  rewrite He. intros [= ->]. apply Hnin. apply list_elem_of_fmap. by exists (ea, kv).
Qed.

(** [find] returns [end()] for a key the table does not hold, and an
    iterator to the entry of the key otherwise. *)
Lemma find_spec t es key :
  Inv t es →
  ((key ∉ es.*2.*1) ∧ find key t = Some (end_ t)) ∨
  (∃ a v, (a, (key, v)) ∈ es ∧ find key t = Some (Some a) ∧ Some a ≠ end_ t ∧
          iterator_deref t (Some a) = Some (key, v)).
Proof.
  intros Hinv. destruct (lookup_spec t es key Hinv) as (j & Hfp & Hcase).
  unfold find. rewrite Hfp. simpl. unfold vget.
  destruct Hcase as [[Hsj Hk]|(a & v & it & Hsj & Hin & Hit & Hkv)]; rewrite Hsj; simpl.
  - by left.
  - right. exists a, v. split_and!; try done.
    + destruct Hinv as ((Hwf & _) & _). by eapply entry_not_end.
    + unfold iterator_deref. simpl. rewrite Hit. simpl. by rewrite Hkv.
Qed.

(** [at] throws for a key the table does not hold, and returns the value
    of the key otherwise. *)
Lemma at_spec t es key :
  Inv t es →
  ((key ∉ es.*2.*1) ∧ at_ key t = Some (inl out_of_range)) ∨
  (∃ a v, (a, (key, v)) ∈ es ∧ at_ key t = Some (inr v)).
Proof.
  intros Hinv. destruct (lookup_spec t es key Hinv) as (j & Hfp & Hcase).
  unfold at_. rewrite Hfp. simpl. unfold vget.
  destruct Hcase as [[Hsj Hk]|(a & v & it & Hsj & Hin & Hit & Hkv)]; rewrite Hsj; simpl.
  - by left.
  - right. exists a, v. split; [done|]. rewrite Hit. simpl. by rewrite Hkv.
Qed.

(** * [operator[]] *)

(** [operator[]] returns the item of the key when the table holds it;
    otherwise it does what [insert] does with a default-constructed
    value, and returns the new item. *)
Lemma operator_index_spec t es key :
  Inv t es →
  ∃ a t' es', operator_index key t = Some (a, t') ∧ Inv t' es' ∧
    ((∃ v, (a, (key, v)) ∈ es ∧ t' = t ∧ es' = es ∧ read_ref a t' = Some v) ∨
     ((key ∉ es.*2.*1) ∧ (a ∉ es.*1) ∧
      es' = es ++ [(a, (key, ValueType_default))] ∧
      read_ref a t' = Some ValueType_default ∧
      insert (key, ValueType_default) t = Some t')).
Proof.
  intros Hinv. destruct (lookup_spec t es key Hinv) as (j & Hfp & Hcase).
  unfold operator_index. rewrite Hfp. simpl. unfold vget.
  destruct Hcase as [[Hsj Hk]|(a & v & it & Hsj & Hin & Hit & Hkv)]; rewrite Hsj; simpl.
  - destruct (insert_spec t es (key, ValueType_default) Hinv)
      as (t' & es' & Hins & Hinv' & _ & _ & [(? & _)|(_ & a & Ha & Hes' & _)]); [done|].
    pose proof Hins as Hins'.
    unfold insert in Hins. simpl in Hins. rewrite Hfp in Hins. simpl in Hins.
    unfold vget in Hins. rewrite Hsj in Hins. simpl in Hins.
    destruct (create_item key ValueType_default t) as [[item t0]|]; simpl in *; [|done].
    destruct (vset (storage t0) j item) as [s|]; simpl in *; [|done].
    destruct (s !! j) as [q|]; simpl in *; [|done].
    destruct (modify (set_pos j) q (heap t0)) as [h|]; simpl in *; [|done].
    rewrite Hins. simpl.
    destruct (lookup_spec t' es' key Hinv') as (j' & Hfp' & Hcase').
    rewrite Hfp'. simpl.
    destruct Hcase' as [[_ Hk']|(a' & v' & it' & Hsj' & Hin' & Hit' & Hkv')].
    { exfalso. apply Hk'. rewrite Hes', !fmap_app. simpl. set_solver. }
    rewrite Hsj'. simpl. rewrite Hit'. simpl.
    assert ((a, (key, ValueType_default)) ∈ es') as Hnew by (rewrite Hes'; set_solver).
    pose proof Hinv' as (((_ & _ & Hnd' & _) & _) & _).
    destruct (entry_unique es' a' a key v' ValueType_default Hnd' Hin' Hnew) as [-> ->].
    exists a, t', es'. split_and!; try done.
    right. split_and!; try done.
    unfold read_ref. rewrite Hit'. simpl. by rewrite Hkv'.
  - rewrite Hsj. simpl. rewrite Hit. simpl.
    exists a, t, es. split_and!; try done. left. exists v. split_and!; try done.
    unfold read_ref. rewrite Hit. simpl. by rewrite Hkv.
Qed.

(** * [clear] and [delete_all] *)

Lemma remove_slots_ok h h' s l1 a l2 j :
  slots_ok h s (l1 ++ a :: l2) → s !! j = Some (Some a) →
  (∀ x, x ≠ a → payload_kept h h' x) →
  slots_ok h' (<[j := None]> s) (l1 ++ l2).
Proof.
  intros Hs Hj Hkept i x Hi.
  apply list_lookup_insert_Some in Hi as [(_ & ? & _)|(Hij & Hi)]; [done|].
  destruct (Hs i x Hi) as (Hx & itx & Hitx & Hpx).
  destruct (Hs j a Hj) as (_ & ita & Hita & Hpa).
  assert (x ≠ a) as Hxa by (intros ->; congruence).
  split; [set_solver|].
  destruct (Hkept x Hxa itx Hitx) as (it' & ? & ? & ?).
  exists it'. split; congruence.
Qed.

Lemma remove_placed h h' s l1 a l2 j :
  placed h s (l1 ++ a :: l2) → s !! j = Some (Some a) →
  (a ∉ l1 ++ l2) →
  (∀ x, x ≠ a → payload_kept h h' x) →
  placed h' (<[j := None]> s) (l1 ++ l2).
Proof.
  intros Hp Hj Hnin Hkept x Hx.
  assert (x ≠ a) as Hxa by (intros ->; done).
  destruct (Hp x) as (itx & Hitx & Hsx); [set_solver|].
  destruct (Hkept x Hxa itx Hitx) as (it' & ? & ? & Hpos').
  exists it'. split; [done|]. rewrite Hpos'.
  rewrite list_lookup_insert_ne; [done|]. intros Heq. rewrite Heq in Hj. congruence.
Qed.

(** The loop of [clear] empties the slot of each item of the chain and
    destroys the item. *)
Lemma clear_loop_spec es : ∀ t fuel,
  wf t es →
  slots_ok (heap t) (storage t) (es.*1) → placed (heap t) (storage t) (es.*1) →
  length es ≤ fuel →
  ∃ t', clear_loop fuel (_begin t) t = Some t' ∧
    wf t' [] ∧ slots_ok (heap t') (storage t') [] ∧
    capacity_ t' = capacity_ t ∧ hasher_ t' = hasher_ t ∧ _end t' = _end t.
Proof.
  induction es as [|[a kv] es IH]; intros t fuel Hwf Hs Hp Hfuel.
  - exists t. rewrite (wf_begin _ _ Hwf). simpl.
    destruct fuel; simpl; by rewrite bool_decide_eq_false_2 by (intros ?; done).
  - destruct fuel as [|fuel]; [simpl in Hfuel; lia|].
    rewrite (wf_begin _ _ Hwf). simpl.
    pose proof Hwf as (Hch & Ho & Hnd & Hc & Hlen).
    destruct (chain_inv_next _ _ _ [] a (es.*1) Hch) as (it & Hit & Hn & Hne).
    rewrite bool_decide_eq_true_2 by done. rewrite Hit. simpl.
    destruct (Hp a) as (it' & Hit' & Hsa); [set_solver|].
    assert (it' = it) as -> by congruence.
    assert (pos it < length (storage t)) as Hpos by (by eapply lookup_lt_Some).
    unfold vset. rewrite bool_decide_eq_true_2 by done. simpl.
    set (t0 := with_storage _ t).
    destruct (delete_item_spec t0 [] a kv es) as (h' & b' & -> & Hwf1 & Hgone & Hnin & Hkept).
    { split_and!; simpl; try done. by rewrite length_insert. }
    simpl. set (t1 := with_heap h' _).
    assert (next it = _begin t1) as ->.
    { pose proof (wf_begin _ _ Hwf1) as Hb1. simpl in Hb1, Hn. unfold t1. simpl.
      congruence. }
    destruct (IH t1 fuel Hwf1) as (t' & Hr & Hwf' & Hs' & Hc' & Hh' & He').
    + exact (remove_slots_ok (heap t) h' _ [] a (es.*1) _ Hs Hsa Hkept).
    + exact (remove_placed (heap t) h' _ [] a (es.*1) _ Hp Hsa Hnin Hkept).
    + simpl in Hfuel. lia.
    + exists t'. by rewrite Hr.
Qed.

(** A table with no item in any slot. *)
Lemma Inv_empty t :
  wf t [] → slots_ok (heap t) (storage t) [] → size_ t = 0 → Inv t [].
Proof.
  intros Hwf Hs Hsz. pose proof Hwf as (_ & _ & _ & Hc & _).
  split_and!; simpl; try done; [|lia].
  split_and!; simpl; try done.
  - intros a Ha. by apply elem_of_nil in Ha.
  - intros i k x Hi. unfold slot_keys in Hi.
    destruct (key_view_inv_Some _ _ _ _ _ Hs Hi) as (a & _ & _ & Ha & _).
    by apply elem_of_nil in Ha.
Qed.

(** [clear] empties the table and keeps its capacity. *)
Lemma clear_spec t es :
  Inv t es →
  ∃ t', clear t = Some t' ∧ Inv t' [] ∧
    capacity_ t' = capacity_ t ∧ hasher_ t' = hasher_ t ∧ _end t' = _end t.
Proof.
  intros ((Hwf & Hs & Hp & _) & _ & _). unfold clear.
  destruct (clear_loop_spec es t (base.size (heap t)) Hwf Hs Hp)
    as (t' & -> & Hwf' & Hs' & Hc' & Hh' & He').
  { destruct Hwf as (Hch & _). rewrite (chain_inv_size _ _ _ _ Hch), length_fmap. lia. }
  simpl. eexists. split; [done|]. split_and!; try done.
  apply Inv_empty; simpl; try done.
Qed.

(** * Construction *)

(** [init] builds an empty table of capacity 1 around a fresh sentinel. *)
Lemma init_spec hs :
  ∃ t, init hs = Some t ∧ Inv t [] ∧ hasher_ t = hs ∧ capacity_ t = 1.
Proof.
  unfold init, new_sentinel, new_Item.
  generalize (fresh (dom (∅ : gmap nat Item))). intros a.
  unfold connect. rewrite lookup_insert_eq. simpl.
  eexists. split; [done|]. split_and!; try done.
  apply Inv_empty; simpl; try done.
  - split_and!; simpl.
    + exists a. split_and!; try done.
      * apply NoDup_singleton.
      * rewrite dom_insert_L, dom_empty_L. simpl. set_solver.
      * simpl. eexists. rewrite lookup_insert_eq. done.
    + intros x kv Hx. by apply elem_of_nil in Hx.
    + apply NoDup_nil_2.
    + lia.
    + done.
  - intros i x Hi. by destruct i.
Qed.

(** The loop of [delete_all] destroys every item a slot points to. *)
Lemma delete_all_loop_spec (s : list ptr) : ∀ t es,
  wf t es →
  (∀ i j a, s !! i = Some (Some a) → s !! j = Some (Some a) → i = j) →
  (∀ a, Some a ∈ s ↔ a ∈ es.*1) →
  ∃ t', foldl (λ acc p, t ← acc; delete_item p t) (Some t) s = Some t' ∧
    wf t' [] ∧ storage t' = storage t ∧
    capacity_ t' = capacity_ t ∧ hasher_ t' = hasher_ t ∧ _end t' = _end t.
Proof.
  induction s as [|[a|] s IH]; intros t es Hwf Hinj Hmem.
  - exists t. simpl. destruct es as [|[a kv] es]; [done|].
    exfalso. eapply (elem_of_nil (Some a)). apply Hmem. set_solver.
  - assert (a ∈ es.*1) as Ha by (apply Hmem; set_solver).
    apply entry_of_addr in Ha as [kv Hin].
    apply list_elem_of_split in Hin as (es1 & es2 & ->).
    destruct (delete_item_spec t es1 a kv es2 Hwf) as (h' & b' & Hdel & Hwf1 & Hgone & Hnin & Hkept).
    simpl. rewrite Hdel.
    destruct (IH _ (es1 ++ es2) Hwf1) as (t' & Hr & Hwf' & Hst' & Hc' & Hh' & He').
    + intros i j x Hi Hj. assert (S i = S j) by (by eapply Hinj). lia.
    + intros x. split.
      * intros Hx. assert (x ≠ a) as Hxa.
        { intros ->. apply list_elem_of_lookup_1 in Hx as [i Hi].
          assert (S i = 0) by (by eapply Hinj). lia. }
        assert (x ∈ (es1 ++ (a, kv) :: es2).*1) as Hx' by (apply Hmem; set_solver).
        rewrite fmap_app, fmap_cons in Hx'. rewrite fmap_app. set_solver.
      * intros Hx. assert (x ≠ a) as Hxa by (intros ->; done).
        assert (Some x ∈ Some a :: s) as Hx'.
        { apply Hmem. rewrite fmap_app, fmap_cons. rewrite fmap_app in Hx. set_solver. }
        apply elem_of_cons in Hx' as [[= ->]|?]; done.
    + exists t'. by rewrite Hr.
  - simpl. unfold delete_item at 2. simpl.
    apply (IH t es Hwf).
    + intros i j x Hi Hj. assert (S i = S j) by (by eapply Hinj). lia.
    + intros x. rewrite <-Hmem. set_solver.
Qed.

(** [delete_all] empties the table and takes its capacity back to 1. *)
Lemma delete_all_spec t es :
  Inv t es →
  ∃ t', delete_all t = Some t' ∧ Inv t' [] ∧
    capacity_ t' = 1 ∧ hasher_ t' = hasher_ t ∧ _end t' = _end t.
Proof.
  intros ((Hwf & Hs & Hp & _) & _ & _). unfold delete_all.
  destruct (delete_all_loop_spec (storage t) t es Hwf) as
    (t1 & -> & Hwf1 & Hst1 & Hc1 & Hh1 & He1).
  { intros i j a Hi Hj.
    destruct (Hs i a Hi) as (_ & it & Hit & Hpi), (Hs j a Hj) as (_ & it' & Hit' & Hpj).
    congruence. }
  { intros a. split.
    - intros [i Hi]%list_elem_of_lookup_1. by destruct (Hs i a Hi).
    - intros Ha. destruct (Hp a Ha) as (it & _ & Hsa). by eapply list_elem_of_lookup_2. }
  simpl. eexists. split; [done|]. split_and!; try done.
  destruct Hwf1 as ((ea & He & Hnd & Hdom & Hb & Hd) & Ho & Hndk & _).
  apply Inv_empty; simpl; try done.
  - split_and!; simpl; try done; [|lia].
    exists ea. split_and!; try done.
  - intros i x Hi. by destruct i.
Qed.

(** * Sequences of insertions *)

Lemma filter_all {A} (P : A → Prop) `{!∀ x, Decision (P x)} (l : list A) :
  Forall P l → filter P l = l.
Proof.
  induction 1 as [|x l Hx _ IH]; [done|].
  rewrite filter_cons_True by done. by rewrite IH.
Qed.

Lemma insert_represents t l kv :
  represents t l →
  ∃ t', insert kv t = Some t' ∧ represents t' (insert_abs kv l) ∧
        hasher_ t' = hasher_ t.
Proof.
  intros (es & Hinv & <-).
  destruct (insert_spec t es kv Hinv)
    as (t' & es' & Hins & Hinv' & Hh & _ & [(Hk & -> & ->)|(Hk & a & Ha & -> & _)]).
  - exists t. split_and!; try done. exists es. split; [done|].
    unfold insert_abs. by rewrite decide_True.
  - exists t'. split_and!; try done. exists (es ++ [(a, kv)]). split; [done|].
    unfold insert_abs. rewrite decide_False by done. by rewrite fmap_app.
Qed.

Lemma erase_represents t l key :
  represents t l →
  ∃ t', erase key t = Some t' ∧ represents t' (erase_abs key l) ∧
        hasher_ t' = hasher_ t ∧ capacity_ t' = capacity_ t.
Proof.
  intros (es & Hinv & <-).
  destruct (erase_spec t es key Hinv)
    as (t' & es' & Her & Hinv' & Hh & _ & Hc & [(Hk & -> & ->)|(es1 & a & v & es2 & -> & ->)]).
  - exists t. split_and!; try done. exists es. split; [done|].
    unfold erase_abs. symmetry. apply filter_all.
    apply Forall_forall. intros kv Hin ?. apply Hk. apply list_elem_of_fmap. by exists kv.
  - exists t'. split_and!; try done. exists (es1 ++ es2). split; [done|].
    destruct Hinv as (((_ & _ & Hnd & _) & _) & _).
    rewrite !fmap_app, !fmap_cons in Hnd. simpl in Hnd.
    apply NoDup_app in Hnd as (_ & Hd1 & Hd2). apply NoDup_cons in Hd2 as [Hd2 _].
    unfold erase_abs. rewrite !fmap_app, fmap_cons, filter_app, filter_cons. simpl.
    rewrite decide_False by (intros ?; done).
    rewrite !filter_all; [done|..]; apply Forall_forall; intros kv Hin Heq.
    + apply Hd2. rewrite <-Heq. apply list_elem_of_fmap. by exists kv.
    + apply (Hd1 key); [|set_solver]. rewrite <-Heq. apply list_elem_of_fmap. by exists kv.
Qed.

Lemma insert_each_represents l : ∀ t acc,
  represents t acc →
  ∃ t', insert_each l t = Some t' ∧ represents t' (insert_each_abs l acc) ∧
        hasher_ t' = hasher_ t.
Proof.
  induction l as [|kv l IH]; intros t acc Hr; simpl.
  - by exists t.
  - destruct (insert_represents t acc kv Hr) as (t1 & -> & Hr1 & Hh1). simpl.
    destruct (IH t1 _ Hr1) as (t' & -> & Hr' & Hh'). exists t'.
    split_and!; try done. congruence.
Qed.

(** The loop over another table calls [insert] on each of its pairs, in
    its iteration order. *)
Lemma insert_from_spec other es2 : ∀ es1 fuel t,
  wf other (es1 ++ es2) → length es2 ≤ fuel →
  insert_from fuel other (hd_ptr (es2.*1) (_end other)) t = insert_each (es2.*2) t.
Proof.
  induction es2 as [|[a kv] es2 IH]; intros es1 fuel t Hwf Hfuel.
  - destruct fuel; simpl; unfold end_; by rewrite bool_decide_eq_false_2 by (intros ?; done).
  - destruct fuel as [|fuel]; [simpl in Hfuel; lia|].
    pose proof Hwf as (Hch & Ho & _).
    rewrite fmap_app, fmap_cons in Hch.
    destruct (chain_inv_next _ _ _ _ _ _ Hch) as (it & Hit & Hn & Hne).
    destruct (Ho a kv) as (it' & Hit' & Hkv); [set_solver|].
    simpl in Hit. assert (it' = it) as -> by congruence.
    simpl. unfold end_. rewrite bool_decide_eq_true_2 by done.
    unfold iterator_deref, iterator_incr. simpl. rewrite Hit. simpl. rewrite Hkv.
    destruct (insert kv t) as [t1|]; simpl; [|done].
    rewrite Hn. rewrite (cons_middle _ es1 es2), app_assoc in Hwf.
    apply (IH _ fuel t1 Hwf). simpl in Hfuel. lia.
Qed.

Lemma insert_from_begin other es t :
  wf other es →
  insert_from (base.size (heap other)) other (begin other) t = insert_each (es.*2) t.
Proof.
  intros Hwf. unfold begin. rewrite (wf_begin _ _ Hwf).
  apply (insert_from_spec other es []); [done|].
  destruct Hwf as (Hch & _). rewrite (chain_inv_size _ _ _ _ Hch), length_fmap. lia.
Qed.

(** * Writing through a reference *)

Lemma set_entry_addrs a v es : (set_entry a v es).*1 = es.*1.
Proof.
  unfold set_entry. rewrite <-list_fmap_compose. apply list_fmap_ext.
  intros i [x kv] _. simpl. by case_decide.
Qed.

Lemma set_entry_keys a v es : (set_entry a v es).*2.*1 = es.*2.*1.
Proof.
  unfold set_entry. rewrite <-!list_fmap_compose. apply list_fmap_ext.
  intros i [x kv] _. simpl. by case_decide.
Qed.

(** Assigning to the value of an entry changes this value and nothing
    else. *)
Lemma write_ref_spec t es a kv v :
  Inv t es → (a, kv) ∈ es →
  ∃ t', write_ref a v t = Some t' ∧ Inv t' (set_entry a v es) ∧
    capacity_ t' = capacity_ t ∧ hasher_ t' = hasher_ t ∧ size_ t' = size_ t ∧
    storage t' = storage t.
Proof.
  intros (((Hch & Ho & Hnd & Hc & Hlen) & Hs & Hp & Hpi) & Hsz & Hload) Hin.
  destruct (Ho a kv Hin) as (it & Hit & Hkv).
  unfold write_ref, modify. simpl. rewrite Hit. simpl.
  eexists. split; [done|]. split_and!; try done.
  assert (∀ x, payload_kept (heap t) (<[a:=set_value v it]> (heap t)) x ∨ x = a) as Hk.
  { intros x. destruct (decide (x = a)) as [->|Hne]; [by right|left].
    intros itx Hx. exists itx. by rewrite lookup_insert_ne. }
  assert (key_view (<[a:=set_value v it]> (heap t)) (storage t)
          = key_view (heap t) (storage t)) as Hkv'.
  { unfold key_view. apply list_eq. intros i. rewrite !list_lookup_fmap.
    destruct (storage t !! i) as [[x|]|]; simpl; try done.
    destruct (decide (x = a)) as [->|Hne].
    - by rewrite lookup_insert_eq, Hit.
    - by rewrite lookup_insert_ne. }
  split_and!; simpl; try done; [|unfold set_entry; by rewrite length_fmap].
  split_and!; simpl.
  - split_and!; simpl; try done.
    + rewrite set_entry_addrs. destruct Hch as (ea & -> & Hnda & Hdom & Hb & Hd).
      exists ea. split_and!; try done.
      * rewrite dom_insert_L, Hdom. apply elem_of_dom_2 in Hit. set_solver.
      * eapply dll_frame; [|done]. intros x itx _ Hx.
        destruct (decide (x = a)) as [->|Hne].
        -- exists (set_value v it). rewrite lookup_insert_eq.
           assert (itx = it) as -> by congruence. done.
        -- exists itx. by rewrite lookup_insert_ne.
    + intros x kvx Hx. unfold set_entry in Hx.
      apply list_elem_of_fmap in Hx as ([y kvy] & Heq & Hy). simpl in Heq.
      destruct (Ho y kvy Hy) as (ity & Hity & Hkvy).
      case_decide as Hya; injection Heq as -> ->.
      * subst y. exists (set_value v it). rewrite lookup_insert_eq.
        assert (ity = it) as -> by congruence. simpl. by rewrite Hkvy.
      * exists ity. by rewrite lookup_insert_ne.
    + by rewrite set_entry_keys.
  - rewrite set_entry_addrs. intros i x Hi.
    destruct (Hs i x Hi) as (Hx & itx & Hitx & Hpx). split; [done|].
    destruct (decide (x = a)) as [->|Hne].
    + exists (set_value v it). rewrite lookup_insert_eq.
      assert (itx = it) as -> by congruence. done.
    + exists itx. by rewrite lookup_insert_ne.
  - rewrite set_entry_addrs. intros x Hx.
    destruct (Hp x Hx) as (itx & Hitx & Hsx).
    destruct (decide (x = a)) as [->|Hne].
    + exists (set_value v it). rewrite lookup_insert_eq.
      assert (itx = it) as -> by congruence. done.
    + exists itx. by rewrite lookup_insert_ne.
  - unfold slot_keys, home in *. simpl. by rewrite Hkv'.
Qed.

(** * Constructors and assignment *)

Lemma HashMap_new_spec hasher :
  ∃ t, HashMap_new hasher = Some t ∧ Inv t [] ∧ hasher_ t = hasher_arg hasher ∧
       capacity_ t = 1.
Proof. apply init_spec. Qed.

Lemma HashMap_of_list_spec l hasher :
  ∃ t, HashMap_of_list l hasher = Some t ∧
       represents t (insert_each_abs l []) ∧ hasher_ t = hasher_arg hasher.
Proof.
  unfold HashMap_of_list.
  destruct (init_spec (hasher_arg hasher)) as (t0 & -> & Hinv0 & Hh0 & _). simpl.
  destruct (insert_each_represents l t0 []) as (t & -> & Hr & Hh).
  { by exists []. }
  exists t. split_and!; try done. congruence.
Qed.

Lemma HashMap_copy_spec other eso hasher :
  Inv other eso →
  ∃ t, HashMap_copy other hasher = Some t ∧
       represents t (insert_each_abs (eso.*2) []) ∧ hasher_ t = hasher_arg hasher.
Proof.
  intros ((Hwf & _) & _). unfold HashMap_copy.
  destruct (init_spec (hasher_arg hasher)) as (t0 & -> & Hinv0 & Hh0 & _). simpl.
  rewrite (insert_from_begin other eso t0 Hwf).
  destruct (insert_each_represents (eso.*2) t0 []) as (t & -> & Hr & Hh).
  { by exists []. }
  exists t. split_and!; try done. congruence.
Qed.

(** Inserting pairs with distinct keys into an empty table keeps them
    all, in order. *)
Lemma insert_each_abs_NoDup (l acc : list (KeyType * ValueType)) :
  NoDup ((acc ++ l).*1) → insert_each_abs l acc = acc ++ l.
Proof.
  revert acc. induction l as [|kv l IH]; intros acc Hnd.
  - by rewrite app_nil_r.
  - change (insert_each_abs (kv :: l) acc)
      with (insert_each_abs l (insert_abs kv acc)).
    assert (insert_abs kv acc = acc ++ [kv]) as ->.
    { unfold insert_abs. rewrite decide_False; [done|].
      rewrite fmap_app, fmap_cons in Hnd.
      apply NoDup_app in Hnd as (_ & Hd & _).
      intros ?. apply (Hd kv.1); set_solver. }
    rewrite IH; rewrite <-app_assoc; done.
Qed.

Lemma Inv_represents t es : Inv t es → represents t (es.*2).
Proof. intros. by exists es. Qed.

Lemma represents_NoDup t l : represents t l → NoDup (l.*1).
Proof. intros (es & (((_ & _ & Hnd & _) & _) & _) & <-). done. Qed.

Lemma represents_size t l : represents t l → size t = length l.
Proof. intros (es & (_ & Hsz & _) & <-). unfold size. by rewrite length_fmap. Qed.

Lemma represents_iterate t l : represents t l → iterate t = Some l.
Proof. intros (es & ((Hwf & _) & _) & <-). by apply iterate_spec. Qed.

(** [operator=] from another object: the destination is emptied by
    [delete_all] and filled with the pairs of the source, in the
    iteration order of the source. *)
Lemma operator_assign_spec objs this other t o est eso :
  other ≠ this → objs !! this = Some t → objs !! other = Some o →
  Inv t est → Inv o eso →
  ∃ t0 t', delete_all t = Some t0 ∧ insert_each (eso.*2) t0 = Some t' ∧
    operator_assign this other objs = Some (<[this := t']> objs) ∧
    represents t' (eso.*2) ∧ hasher_ t' = hasher_ t.
Proof.
  intros Hne Ht Ho Hinvt Hinvo.
  destruct (delete_all_spec t est Hinvt) as (t0 & Hda & Hinv0 & Hc0 & Hh0 & He0).
  destruct (insert_each_represents (eso.*2) t0 []) as (t' & Hie & Hr & Hh).
  { by exists []. }
  exists t0, t'. split_and!; try done.
  - unfold operator_assign. rewrite bool_decide_eq_true_2 by done.
    rewrite Ht, Ho. simpl. rewrite Hda. simpl.
    destruct Hinvo as ((Hwf & _) & _).
    rewrite (insert_from_begin o eso t0 Hwf), Hie. done.
  - rewrite insert_each_abs_NoDup in Hr; [done|].
    by destruct Hinvo as (((_ & _ & Hnd & _) & _) & _).
  - congruence.
Qed.

(** * Reachable tables *)

(** Every reachable table satisfies the invariant. *)
Lemma reachable_Inv t : reachable t → ∃ es, Inv t es.
Proof.
  induction 1 as [hasher t Hn|l hasher t Hl|other hasher t _ [eso IHo] Hc
                 |objs this other objs' t _ IH Ha Ht
                 |kv t t' _ [es IH] Hi|key t t' _ [es IH] He
                 |key t a t' _ [es IH] Hx|key a v t t' _ [es IH] Hf Hne Hw
                 |t t' _ [es IH] Hc].
  - destruct (HashMap_new_spec hasher) as (t0 & Hn0 & Hinv & _).
    exists []. congruence.
  - destruct (HashMap_of_list_spec l hasher) as (t0 & Hn0 & (es & Hinv & _) & _).
    exists es. congruence.
  - destruct (HashMap_copy_spec other eso hasher IHo) as (t0 & Hn0 & (es & Hinv & _) & _).
    exists es. congruence.
  - unfold operator_assign in Ha. case_bool_decide as Hne.
    + destruct (objs !! this) as [t0|] eqn:Ht0; simpl in Ha; [|done].
      destruct (objs !! other) as [o|] eqn:Ho; simpl in Ha; [|done].
      destruct (IH _ _ Ht0) as [est Hinvt], (IH _ _ Ho) as [eso Hinvo].
      destruct (operator_assign_spec objs this other t0 o est eso Hne Ht0 Ho Hinvt Hinvo)
        as (t1 & t2 & _ & _ & Ha' & (es & Hinv & _) & _).
      unfold operator_assign in Ha'. rewrite bool_decide_eq_true_2 in Ha' by done.
      rewrite Ht0, Ho in Ha'. simpl in Ha'. rewrite Ha in Ha'. injection Ha' as ->.
      rewrite lookup_insert_eq in Ht. injection Ht as <-. by exists es.
    + destruct (objs !! this) as [t0|] eqn:Ht0; simpl in Ha; [|done].
      injection Ha as <-. apply (IH this). congruence.
  - destruct (insert_spec t es kv IH) as (t0 & es' & Hi0 & Hinv & _).
    exists es'. congruence.
  - destruct (erase_spec t es key IH) as (t0 & es' & He0 & Hinv & _).
    exists es'. congruence.
  - destruct (operator_index_spec t es key IH) as (a0 & t0 & es' & Hx0 & Hinv & _).
    exists es'. congruence.
  - destruct (find_spec t es key IH) as [[_ Hf']|(a' & v' & Hin & Hf' & _)].
    + rewrite Hf in Hf'. injection Hf' as Hf'. done.
    + assert (a' = a) as -> by congruence.
      destruct (write_ref_spec t es a _ v IH Hin) as (t0 & Hw0 & Hinv & _).
      exists (set_entry a v es). congruence.
  - destruct (clear_spec t es IH) as (t0 & Hc0 & Hinv & _).
    exists []. congruence.
Qed.

(** * Lists of pairs under a sequence of insertions *)

Lemma insert_abs_keys kv (acc : list (KeyType * ValueType)) k :
  k ∈ (insert_abs kv acc).*1 ↔ k ∈ acc.*1 ∨ k = kv.1.
Proof.
  unfold insert_abs. case_decide as Hin.
  - split; [by left|]. intros [?| ->]; done.
  - rewrite fmap_app. simpl. set_solver.
Qed.

Lemma insert_abs_NoDup kv (acc : list (KeyType * ValueType)) :
  NoDup (acc.*1) → NoDup ((insert_abs kv acc).*1).
Proof.
  intros Hnd. unfold insert_abs. case_decide as Hin; [done|].
  rewrite fmap_app. simpl. apply NoDup_app. split_and!; [done| |apply NoDup_singleton].
  intros x Hx ->%list_elem_of_singleton. done.
Qed.

Lemma insert_each_abs_cons kv l (acc : list (KeyType * ValueType)) :
  insert_each_abs (kv :: l) acc = insert_each_abs l (insert_abs kv acc).
Proof. done. Qed.

Lemma insert_each_abs_keys l : ∀ (acc : list (KeyType * ValueType)) k,
  k ∈ (insert_each_abs l acc).*1 ↔ k ∈ acc.*1 ∨ k ∈ l.*1.
Proof.
  induction l as [|kv l IH]; intros acc k.
  - simpl. set_solver.
  - rewrite insert_each_abs_cons, IH, insert_abs_keys, fmap_cons. set_solver.
Qed.

Lemma insert_each_abs_keys_NoDup l : ∀ (acc : list (KeyType * ValueType)),
  NoDup (acc.*1) → NoDup ((insert_each_abs l acc).*1).
Proof.
  induction l as [|kv l IH]; intros acc Hnd; [done|].
  rewrite insert_each_abs_cons. apply IH. by apply insert_abs_NoDup.
Qed.

(** The pairs a sequence of insertions leaves: those that were there,
    and for each new key the first pair of the sequence with this key. *)
Lemma insert_each_abs_elem l : ∀ (acc : list (KeyType * ValueType)) k v,
  (k, v) ∈ insert_each_abs l acc ↔
  (k, v) ∈ acc ∨ ((k ∉ acc.*1) ∧ first_value k l = Some v).
Proof.
  induction l as [|[k' v'] l IH]; intros acc k v.
  - simpl. split; [by left|]. by intros [?|[_ ?]].
  - rewrite insert_each_abs_cons, IH. simpl.
    unfold insert_abs. simpl. destruct (decide (k' ∈ acc.*1)) as [Hin|Hnin].
    + destruct (decide (k' = k)) as [<-|Hne]; [|done].
      split; (intros [?|[? _]]; [by left|done]).
    + rewrite fmap_app. simpl. destruct (decide (k' = k)) as [<-|Hne].
      * split.
        -- intros [[?|Heq%list_elem_of_singleton]%elem_of_app|[Hk _]].
           ++ by left.
           ++ right. split; [done|]. by injection Heq as ->.
           ++ exfalso. apply Hk. set_solver.
        -- intros [?|[_ [= <-]]]; left; set_solver.
      * split.
        -- intros [[?|Heq%list_elem_of_singleton]%elem_of_app|[Hk ?]].
           ++ by left.
           ++ by injection Heq as -> ->.
           ++ right. split; [set_solver|done].
        -- intros [?|[Hk ?]]; [left; set_solver|].
           right. split; [|done]. set_solver.
Qed.

Lemma first_value_None k (l : list (KeyType * ValueType)) :
  first_value k l = None ↔ k ∉ l.*1.
Proof.
  induction l as [|kv l IH]; simpl.
  - split; [intros _ ?%elem_of_nil; done|done].
  - case_decide as Hk.
    + split; [done|]. intros Hn. exfalso. apply Hn. set_solver.
    + rewrite IH. set_solver.
Qed.

(** The number of pairs a sequence of insertions into the empty list
    leaves is the number of distinct keys of the sequence. *)
Lemma insert_each_abs_length (l : list (KeyType * ValueType)) :
  length (insert_each_abs l []) = length (remove_dups (l.*1)).
Proof.
  rewrite <-(length_fmap fst). apply Permutation_length.
  apply NoDup_Permutation.
  - apply insert_each_abs_keys_NoDup. simpl. apply NoDup_nil_2.
  - apply NoDup_remove_dups.
  - intros k. rewrite insert_each_abs_keys, elem_of_remove_dups. simpl. set_solver.
Qed.

(** What [at] returns in a table that holds the pairs [l]. *)
Lemma at_represents t l key :
  represents t l →
  at_ key t = Some (match first_value key l with
                    | Some v => inr v
                    | None => inl out_of_range
                    end) ∧
  (∀ v, first_value key l = Some v ↔ (key, v) ∈ l).
Proof.
  intros (es & Hinv & <-).
  pose proof Hinv as (((_ & _ & Hnd & _) & _) & _).
  assert (∀ v, first_value key (es.*2) = Some v ↔ (key, v) ∈ es.*2) as Hfv.
  { intros v. pose proof (insert_each_abs_NoDup (es.*2) [] Hnd) as Heq. simpl in Heq.
    rewrite <-Heq at 2. rewrite insert_each_abs_elem. simpl. split.
    - intros ?. right. split; [|done]. by intros ?%elem_of_nil.
    - by intros [?%elem_of_nil|[_ ?]]. }
  split; [|done].
  destruct (at_spec t es key Hinv) as [[Hk ->]|(a & v & Hin & ->)].
  - apply first_value_None in Hk. by rewrite Hk.
  - assert (first_value key (es.*2) = Some v) as ->; [|done].
    apply Hfv. apply list_elem_of_fmap. by exists (a, (key, v)).
Qed.

(** * The properties of the specification *)

Lemma option_eq_Some {A} (x y : option A) :
  (∀ v, x = Some v ↔ y = Some v) → x = y.
Proof.
  intros H. destruct x as [a|], y as [b|]; try done.
  - symmetry. by apply H.
  - symmetry. by apply (H a).
  - by apply (H b).
Qed.

Lemma reachable_represents t : reachable t → ∃ l, represents t l.
Proof. intros [es Hinv]%reachable_Inv. exists (es.*2). by exists es. Qed.

Lemma represents_iterate_inv t l l' :
  represents t l → iterate t = Some l' → l' = l.
Proof. intros Hr Hi. rewrite (represents_iterate _ _ Hr) in Hi. congruence. Qed.

(** [find] returns [end()] exactly for the keys the table does not
    hold. *)
Lemma find_represents t l key :
  represents t l →
  (find key t = Some (end_ t) ↔ key ∉ l.*1) ∧
  (key ∈ l.*1 → ∃ a v, find key t = Some (Some a) ∧ Some a ≠ end_ t ∧
                       (key, v) ∈ l ∧ iterator_deref t (Some a) = Some (key, v) ∧
                       read_ref a t = Some v).
Proof.
  intros (es & Hinv & <-).
  destruct (find_spec t es key Hinv) as [[Hk Hf]|(a & v & Hin & Hf & Hne & Hd)].
  - split; [by rewrite Hf|]. intros ?. done.
  - assert (key ∈ es.*2.*1) as Hk by (by apply (entry_key_in es a (key, v))).
    split.
    + rewrite Hf. split; [|done]. intros [= Heq]. by rewrite Heq in Hne.
    + intros _. exists a, v. split_and!; try done.
      * apply list_elem_of_fmap. by exists (a, (key, v)).
      * unfold iterator_deref, read_ref in *. simpl in *.
        destruct (heap t !! a) as [it|]; simpl in *; [|done].
        injection Hd as Hd. by rewrite Hd.
Qed.

(** C1.  For every sequence of pairs, calling [insert] on each pair in
    order on a new table gives a table whose size is the number of
    distinct keys of the sequence and in which each key has the value
    of its first occurrence; [insert] with a key the table holds leaves
    the table, and so the value of the key, as it is. *)
Theorem insert_first_wins (hasher : option Hash) (l : list (KeyType * ValueType)) :
  ∃ t0 t, HashMap_new hasher = Some t0 ∧ insert_each l t0 = Some t ∧
    size t = length (remove_dups (l.*1)) ∧
    (∀ key, at_ key t = Some (match first_value key l with
                              | Some v => inr v
                              | None => inl out_of_range
                              end)) ∧
    (∀ kv, kv.1 ∈ l.*1 → insert kv t = Some t) ∧
    (∀ t' key v v', reachable t' → at_ key t' = Some (inr v) →
                    insert (key, v') t' = Some t').
Proof.
  destruct (HashMap_new_spec hasher) as (t0 & Hn & Hinv0 & _).
  destruct (insert_each_represents l t0 []) as (t & Hi & Hr & _); [by exists []|].
  exists t0, t. split_and!; try done.
  - by rewrite (represents_size _ _ Hr), insert_each_abs_length.
  - intros key. destruct (at_represents t _ key Hr) as [-> Hfv].
    assert (first_value key (insert_each_abs l []) = first_value key l) as ->; [|done].
    apply option_eq_Some. intros v.
    rewrite Hfv, insert_each_abs_elem. simpl. split.
    + by intros [?%elem_of_nil|[_ ?]].
    + intros ?. right. split; [|done]. by intros ?%elem_of_nil.
  - intros kv Hk. destruct Hr as (es & Hinv & Hes).
    destruct (insert_spec t es kv Hinv)
      as (t' & es' & Hins & _ & _ & _ & [(_ & -> & _)|(Hnk & _)]); [done|].
    exfalso. apply Hnk. rewrite Hes. apply insert_each_abs_keys. by right.
  - intros t' key v v' [es Hinv]%reachable_Inv Hat.
    destruct (at_spec t' es key Hinv) as [[_ Ha]|(a & v0 & Hin & _)]; [congruence|].
    destruct (insert_spec t' es (key, v') Hinv)
      as (t'' & es' & Hins & _ & _ & _ & [(_ & -> & _)|(Hnk & _)]); [done|].
    exfalso. apply Hnk. simpl. by apply (entry_key_in es a (key, v0)).
Qed.

Lemma run_operation_represents o t l :
  represents t l →
  ∃ t', run_operation o t = Some t' ∧ represents t' (run_operation_abs o l).
Proof.
  intros Hr. destruct o as [kv|key|key|]; simpl.
  - destruct (insert_represents t l kv Hr) as (t' & ? & ? & _). eauto.
  - destruct (erase_represents t l key Hr) as (t' & ? & ? & _). eauto.
  - destruct (insert_represents t l (key, ValueType_default) Hr) as (t' & Hi & Hr' & _).
    destruct Hr as (es & Hinv & <-).
    destruct (operator_index_spec t es key Hinv)
      as (a & t1 & es' & -> & Hinv' & [(v & Hin & -> & -> & _)|(Hk & _ & _ & _ & Hi')]); simpl.
    + exists t. split; [done|]. exists es. split; [done|].
      unfold insert_abs. rewrite decide_True; [done|]. simpl.
      by apply (entry_key_in es a (key, v)).
    + exists t1. split; [done|]. congruence.
  - destruct Hr as (es & Hinv & <-).
    destruct (clear_spec t es Hinv) as (t' & -> & Hinv' & _).
    exists t'. split; [done|]. by exists [].
Qed.

Lemma run_operations_represents ops : ∀ t l,
  represents t l →
  ∃ t', run_operations ops t = Some t' ∧ represents t' (run_operations_abs ops l).
Proof.
  induction ops as [|o ops IH]; intros t l Hr; simpl.
  - by exists t.
  - destruct (run_operation_represents o t l Hr) as (t1 & -> & Hr1). simpl.
    apply IH. done.
Qed.

(** C2.  Iterating from [begin()] to [end()] yields the pairs of the
    table in the order of the first insertion of the keys that are
    still there; a key that is erased and inserted again is at the
    tail; and [resize] keeps the chain as it is: it rewrites the slot
    array and the position each item records, and nothing else. *)
Theorem iteration_in_insertion_order :
  (∀ hasher ops, ∃ t0 t,
     HashMap_new hasher = Some t0 ∧ run_operations ops t0 = Some t ∧
     iterate t = Some (run_operations_abs ops [])) ∧
  (∀ t l key v, reachable t → iterate t = Some l →
     ∃ t1 t2, erase key t = Some t1 ∧ insert (key, v) t1 = Some t2 ∧
       iterate t2 = Some (erase_abs key l ++ [(key, v)])) ∧
  (∀ t l n, reachable t → iterate t = Some l → length l < n →
     ∃ t', resize n t = Some t' ∧ iterate t' = Some l ∧
       pos_updated (heap t) (heap t') ∧
       _begin t' = _begin t ∧ _end t' = _end t ∧
       hasher_ t' = hasher_ t ∧ size_ t' = size_ t).
Proof.
  split_and!.
  - intros hasher ops.
    destruct (HashMap_new_spec hasher) as (t0 & Hn & Hinv0 & _).
    destruct (run_operations_represents ops t0 []) as (t & Hrun & Hr); [by exists []|].
    exists t0, t. split_and!; try done. by apply represents_iterate.
  - intros t l key v [l0 Hr]%reachable_represents Hit.
    apply (represents_iterate_inv _ _ _ Hr) in Hit as ->.
    destruct (erase_represents t l0 key Hr) as (t1 & He & Hr1 & _).
    destruct (insert_represents t1 _ (key, v) Hr1) as (t2 & Hi & Hr2 & _).
    exists t1, t2. split_and!; try done.
    rewrite (represents_iterate _ _ Hr2). f_equal.
    unfold insert_abs. rewrite decide_False; [done|]. simpl.
    intros ([k' v'] & Heq & Hin)%list_elem_of_fmap. simpl in Heq. subst k'.
    unfold erase_abs in Hin. apply list_elem_of_filter in Hin as [Hne _]. done.
  - intros t l n [es Hinv]%reachable_Inv Hit Hn.
    pose proof Hinv as ((Hwf & _) & Hsz & _).
    rewrite (iterate_spec t es Hwf) in Hit. injection Hit as <-.
    rewrite length_fmap in Hn.
    destruct (resize_spec t es n Hwf Hn) as
      (t' & Hr & (Hwf' & _) & Hsz' & Hc' & Hh' & Hb' & He' & Hpu').
    exists t'. split_and!; try done; [|congruence].
    by apply iterate_spec.
Qed.

(** C3, as amended.  [erase] of a key right after [insert] of a pair
    with this key leaves a table in which [find] of the key is [end()];
    its size is the size before the [insert] when the table did not
    hold the key then, and one less when it did. *)
Theorem erase_after_insert t key v :
  reachable t →
  ∃ t1 t2, insert (key, v) t = Some t1 ∧ erase key t1 = Some t2 ∧
    find key t2 = Some (end_ t2) ∧
    size t2 = (if bool_decide (find key t = Some (end_ t))
               then size t else size t - 1).
Proof.
  intros [l Hr]%reachable_represents.
  destruct (insert_represents t l (key, v) Hr) as (t1 & Hi & Hr1 & _).
  destruct (erase_represents t1 _ key Hr1) as (t2 & He & Hr2 & _).
  exists t1, t2. split_and!; try done.
  - apply (find_represents t2 _ key Hr2).
    intros ([k' v'] & Heq & Hin)%list_elem_of_fmap. simpl in Heq. subst k'.
    unfold erase_abs in Hin. apply list_elem_of_filter in Hin as [Hne _]. done.
  - rewrite (represents_size _ _ Hr2), (represents_size _ _ Hr).
    pose proof (represents_NoDup _ _ Hr) as Hnd.
    destruct (find_represents t l key Hr) as [Hf _].
    unfold insert_abs, erase_abs. simpl. case_bool_decide as Hfe.
    + apply Hf in Hfe. rewrite decide_False by done.
      rewrite filter_app, filter_cons_False, filter_nil, app_nil_r by (simpl; intros ?; done).
      rewrite filter_all; [done|]. apply Forall_forall. intros kv Hin ?.
      apply Hfe. apply list_elem_of_fmap. by exists kv.
    + assert (key ∈ l.*1) as Hk.
      { destruct (decide (key ∈ l.*1)); [done|]. exfalso. apply Hfe. by apply Hf. }
      rewrite decide_True by done.
      apply list_elem_of_fmap in Hk as ([k' v'] & Heq & Hin). simpl in Heq. subst k'.
      apply list_elem_of_split in Hin as (l1 & l2 & ->).
      rewrite fmap_app, fmap_cons in Hnd. simpl in Hnd.
      apply NoDup_app in Hnd as (_ & Hd1 & Hd2). apply NoDup_cons in Hd2 as [Hd2 _].
      rewrite filter_app, filter_cons_False by (simpl; intros ?; done).
      rewrite !filter_all.
      * rewrite !length_app. simpl. lia.
      * apply Forall_forall. intros kv Hin Heq. apply Hd2. rewrite <-Heq.
        apply list_elem_of_fmap. by exists kv.
      * apply Forall_forall. intros kv Hin Heq. apply (Hd1 key); [|set_solver].
        rewrite <-Heq. apply list_elem_of_fmap. by exists kv.
Qed.

(** ** Growth *)

Lemma doubling_of_one_double c : doubling_of_one c → doubling_of_one (c * 2).
Proof. intros [n ->]. exists (S n). rewrite Nat.pow_succ_r'. lia. Qed.

Lemma insert_item_capacity item t t' :
  insert_item item t = Some t' → capacity_ t' = capacity_ t ∧ _end t' = _end t.
Proof.
  unfold insert_item. intros H.
  destruct (load (heap t) item) as [it|]; simpl in H; [|done].
  destruct (find_pos t (keyValue it).1) as [j|]; simpl in H; [|done].
  destruct (vget (storage t) j) as [p|]; simpl in H; [|done].
  case_bool_decide; [|by injection H as <-].
  destruct (vset (storage t) j item) as [s|]; simpl in H; [|done].
  destruct (vget s j) as [q|]; simpl in H; [|done].
  destruct (modify (set_pos j) q (heap t)) as [h|]; simpl in H; [|done].
  by injection H as <-.
Qed.

Lemma resize_loop_capacity fuel : ∀ item t t',
  resize_loop fuel item t = Some t' → capacity_ t' = capacity_ t.
Proof.
  induction fuel as [|fuel IH]; intros item t t'; simpl.
  - case_bool_decide; [done|]. by intros [= <-].
  - case_bool_decide; [|by intros [= <-]].
    destruct (insert_item item t) as [t1|] eqn:H1; simpl; [|done].
    destruct (load (heap t1) item) as [it|]; simpl; [|done].
    intros H2. apply IH in H2. apply insert_item_capacity in H1 as [? _]. congruence.
Qed.

Lemma resize_capacity n t t' : resize n t = Some t' → capacity_ t' = n.
Proof. unfold resize. intros H. by apply resize_loop_capacity in H. Qed.

Lemma insert_capacity t es kv t' :
  Inv t es → insert kv t = Some t' →
  size t' * 4 < capacity_ t' * 3 ∧
  capacity_ t' = (if bool_decide (find kv.1 t = Some (end_ t) ∧
                                  capacity_ t * 3 ≤ (size t + 1) * 4)
                  then capacity_ t * 2 else capacity_ t).
Proof.
  intros Hinv Hi.
  destruct (insert_spec t es kv Hinv)
    as (t1 & es' & Hi1 & Hinv' & _ & _ & Hcase).
  assert (t1 = t') as -> by congruence.
  split; [by destruct Hinv' as (_ & _ & ?)|].
  destruct (find_represents t _ kv.1 (Inv_represents _ _ Hinv)) as [Hf _].
  destruct Hcase as [(Hk & -> & _)|(Hk & a & _ & _ & ->)].
  - rewrite bool_decide_eq_false_2; [done|]. intros [Hfe _]. by apply Hf in Hfe.
  - unfold size. replace (size_ t + 1) with (S (size_ t)) by lia.
    apply Hf in Hk. repeat case_bool_decide; try done; tauto.
Qed.

Lemma insert_doubling t es kv t' :
  Inv t es → insert kv t = Some t' →
  doubling_of_one (capacity_ t) → doubling_of_one (capacity_ t').
Proof.
  intros Hinv Hi Hd. destruct (insert_capacity t es kv t' Hinv Hi) as [_ ->].
  case_bool_decide; [by apply doubling_of_one_double|done].
Qed.

Lemma insert_each_doubling l : ∀ t es t',
  Inv t es → insert_each l t = Some t' →
  doubling_of_one (capacity_ t) → doubling_of_one (capacity_ t').
Proof.
  induction l as [|kv l IH]; intros t es t' Hinv; simpl.
  - by intros [= <-].
  - destruct (insert_spec t es kv Hinv) as (t1 & es' & Hi1 & Hinv' & _).
    rewrite Hi1. simpl. intros Hie Hd. apply (IH t1 es' t' Hinv' Hie).
    by apply (insert_doubling t es kv t1).
Qed.

Lemma reachable_doubling t : reachable t → doubling_of_one (capacity_ t).
Proof.
  induction 1 as [hasher t Hn|l hasher t Hl|other hasher t Ho IHo Hc
                 |objs this other objs' t Hobjs IH Ha Ht
                 |kv t t' Hr IH Hi|key t t' Hr IH He
                 |key t a t' Hr IH Hx|key a v t t' Hr IH Hf Hne Hw
                 |t t' Hr IH Hc].
  - destruct (HashMap_new_spec hasher) as (t0 & Hn0 & _ & _ & Hc).
    assert (t0 = t) as -> by congruence. rewrite Hc. by exists 0.
  - unfold HashMap_of_list in Hl.
    destruct (init_spec (hasher_arg hasher)) as (t0 & Hn0 & Hinv & _ & Hc).
    rewrite Hn0 in Hl. simpl in Hl.
    apply (insert_each_doubling l t0 [] t Hinv Hl). rewrite Hc. by exists 0.
  - unfold HashMap_copy in Hc.
    destruct (init_spec (hasher_arg hasher)) as (t0 & Hn0 & Hinv & _ & Hc0).
    rewrite Hn0 in Hc. simpl in Hc.
    destruct (reachable_Inv _ Ho) as [eso ((Hwf & _) & _)].
    rewrite (insert_from_begin other eso t0 Hwf) in Hc.
    apply (insert_each_doubling _ t0 [] t Hinv Hc). rewrite Hc0. by exists 0.
  - unfold operator_assign in Ha. case_bool_decide as Hne.
    + destruct (objs !! this) as [t0|] eqn:Ht0; simpl in Ha; [|done].
      destruct (objs !! other) as [o|] eqn:Ho; simpl in Ha; [|done].
      destruct (reachable_Inv _ (Hobjs _ _ Ht0)) as [est Hinvt].
      destruct (reachable_Inv _ (Hobjs _ _ Ho)) as [eso ((Hwf & _) & _)].
      destruct (delete_all_spec t0 est Hinvt) as (t1 & Hda & Hinv1 & Hc1 & _).
      rewrite Hda in Ha. simpl in Ha.
      rewrite (insert_from_begin o eso t1 Hwf) in Ha.
      destruct (insert_each _ t1) as [t2|] eqn:Hie; simpl in Ha; [|done].
      injection Ha as <-. rewrite lookup_insert_eq in Ht. injection Ht as <-.
      apply (insert_each_doubling _ t1 [] t2 Hinv1 Hie). rewrite Hc1. by exists 0.
    + destruct (objs !! this) as [t0|] eqn:Ht0; simpl in Ha; [|done].
      injection Ha as <-. apply (IH this). congruence.
  - destruct (reachable_Inv _ Hr) as [es Hinv]. by apply (insert_doubling t es kv t').
  - destruct (reachable_Inv _ Hr) as [es Hinv].
    destruct (erase_spec t es key Hinv) as (t0 & es' & He0 & _ & _ & _ & Hc & _).
    assert (t0 = t') as -> by congruence. by rewrite Hc.
  - destruct (reachable_Inv _ Hr) as [es Hinv].
    destruct (operator_index_spec t es key Hinv)
      as (a0 & t0 & es' & Hx0 & _ & [(_ & _ & -> & _)|(_ & _ & _ & _ & Hi)]).
    + assert (t = t') as <- by congruence. done.
    + assert (t0 = t') as -> by congruence.
      by apply (insert_doubling t es (key, ValueType_default) t').
  - destruct (reachable_Inv _ Hr) as [es Hinv].
    destruct (find_spec t es key Hinv) as [[_ Hf']|(a' & v' & Hin & Hf' & _)].
    { rewrite Hf in Hf'. injection Hf' as Hf'. done. }
    assert (a' = a) as -> by congruence.
    destruct (write_ref_spec t es a _ v Hinv Hin) as (t0 & Hw0 & _ & Hc & _).
    assert (t0 = t') as -> by congruence. by rewrite Hc.
  - destruct (reachable_Inv _ Hr) as [es Hinv].
    destruct (clear_spec t es Hinv) as (t0 & Hc0 & _ & Hc' & _).
    assert (t0 = t') as -> by congruence. by rewrite Hc'.
Qed.

(** C4.  [resize_if_need] resizes exactly when [size_ * 4 >= capacity_
    * 3], and then to twice the capacity; the capacity of a reachable
    table is 1 doubled a number of times, its size stays below three
    quarters of it, and so it does after an [insert], which doubles the
    capacity exactly when it adds a pair that takes the size to three
    quarters or more. *)
Theorem growth_policy :
  (∀ t, resize_if_need t =
        if bool_decide (capacity_ t * 3 ≤ size_ t * 4)
        then resize (capacity_ t * 2) t else Some t) ∧
  (∀ t n t', resize n t = Some t' → capacity_ t' = n) ∧
  (∀ t, reachable t →
     doubling_of_one (capacity_ t) ∧
     size t * 4 < capacity_ t * 3 ∧
     resize_if_need t = Some t ∧
     (∀ kv t', insert kv t = Some t' →
        size t' * 4 < capacity_ t' * 3 ∧
        capacity_ t' = (if bool_decide (find kv.1 t = Some (end_ t) ∧
                                        capacity_ t * 3 ≤ (size t + 1) * 4)
                        then capacity_ t * 2 else capacity_ t)) ∧
     (∀ key t', erase key t = Some t' →
        size t' * 4 < capacity_ t' * 3 ∧ capacity_ t' = capacity_ t)).
Proof.
  split_and!.
  - done.
  - intros t n t'. apply resize_capacity.
  - intros t Hr. destruct (reachable_Inv _ Hr) as [es Hinv].
    pose proof Hinv as (_ & _ & Hload).
    split_and!.
    + by apply reachable_doubling.
    + done.
    + unfold resize_if_need. rewrite bool_decide_eq_false_2; [done|]. lia.
    + intros kv t' Hi. by eapply insert_capacity.
    + intros key t' He.
      destruct (erase_spec t es key Hinv) as (t0 & es' & He0 & Hinv' & _ & _ & Hc & _).
      assert (t0 = t') as -> by congruence.
      split; [by destruct Hinv' as (_ & _ & ?)|done].
Qed.

(** ** Probing *)

Lemma iter_cinc n h d :
  h < n → d < n →
  Nat.iter d (cinc n) h < n ∧ cdist n h (Nat.iter d (cinc n) h) = d.
Proof.
  intros Hh. induction d as [|d IH]; intros Hd; simpl.
  - split; [done|]. unfold cdist. case_bool_decide; lia.
  - destruct IH as [IH1 IH2]; [lia|].
    revert IH1 IH2. generalize (Nat.iter d (cinc n) h). intros x Hx Hdx.
    unfold cdist, cinc in *. repeat case_bool_decide; lia.
Qed.

Lemma iter_cinc_cdist n h i :
  h < n → i < n → Nat.iter (cdist n h i) (cinc n) h = i.
Proof.
  intros Hh Hi.
  destruct (iter_cinc n h (cdist n h i) Hh) as [H1 H2]; [by apply cdist_lt|].
  by apply (cdist_inj n h).
Qed.

Lemma slotted_contiguous t es l : slotted t es l → contiguous t.
Proof.
  intros ((_ & _ & _ & Hc & Hlen) & Hs & _ & Hpi) i a it h Hi Hit Hh.
  unfold get_hash in Hh. rewrite bool_decide_eq_false_2 in Hh by lia.
  injection Hh as <-. fold (home t (keyValue it).1).
  change (cyclic_inc t) with (cinc (capacity_ t)).
  assert (i < capacity_ t) as Hilt by (rewrite <-Hlen; by eapply lookup_lt_Some).
  pose proof (home_lt t (keyValue it).1 Hc) as Hhome.
  split; [by apply iter_cinc_cdist|].
  intros d Hd.
  destruct (iter_cinc (capacity_ t) (home t (keyValue it).1) d Hhome) as [Hx Hdx].
  { pose proof (cdist_lt (capacity_ t) _ i Hhome Hilt). lia. }
  destruct (Hpi i (keyValue it).1 (Nat.iter d (cinc (capacity_ t)) (home t (keyValue it).1)))
    as [k' Hk']; try done.
  - by eapply key_view_Some.
  - lia.
  - destruct (key_view_inv_Some _ _ _ _ _ Hs Hk') as (a' & _ & Ha' & _). eauto.
Qed.

Lemma reachable_contiguous t : reachable t → contiguous t.
Proof.
  intros [es (Hsl & _)]%reachable_Inv. by eapply slotted_contiguous.
Qed.

(** C5.  The slot array of a reachable table is contiguous along every
    probe, and so it is after [insert], [erase], [operator[]], [clear]
    and [resize]. *)
Theorem probe_contiguity t :
  reachable t →
  contiguous t ∧
  (∀ kv t', insert kv t = Some t' → contiguous t') ∧
  (∀ key t', erase key t = Some t' → contiguous t') ∧
  (∀ key a t', operator_index key t = Some (a, t') → contiguous t') ∧
  (∀ t', clear t = Some t' → contiguous t') ∧
  (∀ n t', size t < n → resize n t = Some t' → contiguous t').
Proof.
  intros Hr. split_and!.
  - by apply reachable_contiguous.
  - intros kv t' Hi. apply reachable_contiguous. by eapply reach_insert.
  - intros key t' He. apply reachable_contiguous. by eapply reach_erase.
  - intros key a t' Hx. apply reachable_contiguous. by eapply reach_index.
  - intros t' Hc. apply reachable_contiguous. by eapply reach_clear.
  - intros n t' Hn Hrs. destruct (reachable_Inv _ Hr) as [es ((Hwf & _) & Hsz & _)].
    destruct (resize_spec t es n Hwf) as (t0 & Hr0 & Hsl & _); [unfold size in Hn; lia|].
    assert (t0 = t') as -> by congruence. by eapply slotted_contiguous.
Qed.

Lemma in_cyclic_range_cdist n i from to :
  i < n → from < n → to < n →
  in_cyclic_range n i from to ↔ cdist n from i ≤ cdist n from to.
Proof.
  intros Hi Hf Ht. split.
  - intros (d & Hd & <-).
    destruct (iter_cinc n from d Hf) as [_ ->]; [|done].
    pose proof (cdist_lt n from to Hf Ht). lia.
  - intros Hle. exists (cdist n from i). split; [done|]. by apply iter_cinc_cdist.
Qed.

(** C6.  [find_next] scans from the slot after [pos], in cyclic order,
    and returns the first index that is empty or holds an item whose
    home slot is not in the cyclic range from the slot after [pos] to
    this index; [is_in_range] decides this range, wrapped around or
    not; and the scan comes to an end when a slot is empty. *)
Theorem find_next_first_displaceable t pos :
  0 < capacity_ t → length (storage t) = capacity_ t → pos < capacity_ t →
  live (heap t) (storage t) →
  (∀ i from to, i < capacity_ t → from < capacity_ t → to < capacity_ t →
     (is_in_range i from to = true ↔ in_cyclic_range (capacity_ t) i from to)) ∧
  (∀ j, find_next t pos = Some j →
     ∃ d, d < capacity_ t ∧
       j = Nat.iter d (cyclic_inc t) (cyclic_inc t pos) ∧
       stops_at t pos j ∧
       ∀ d', d' < d →
         ¬ stops_at t pos (Nat.iter d' (cyclic_inc t) (cyclic_inc t pos))) ∧
  ((∃ e, storage t !! e = Some None) → is_Some (find_next t pos)).
Proof.
  intros Hc Hlen Hp Hlive.
  assert (∀ i from to, i < capacity_ t → from < capacity_ t → to < capacity_ t →
     (is_in_range i from to = true ↔ in_cyclic_range (capacity_ t) i from to)) as Hrange.
  { intros i from to Hi Hf Ht.
    rewrite (is_in_range_cdist (capacity_ t)) by done.
    by rewrite in_cyclic_range_cdist. }
  assert (length (slot_keys t) = capacity_ t) as Hlen'.
  { unfold slot_keys. by rewrite key_view_length. }
  assert (cinc (capacity_ t) pos < capacity_ t) as Hcp by (by apply cinc_lt).
  assert (∀ k, get_hash t k = Some (home t k)) as Hgh.
  { intros k. unfold get_hash. by rewrite bool_decide_eq_false_2 by lia. }
  split_and!; [done| |].
  - intros j. unfold find_next.
    rewrite (find_next_loop_cscan t) by done.
    change (cyclic_inc t) with (cinc (capacity_ t)).
    intros Hscan.
    destruct (cscan_first _ _ _ _ _ _ Hcp Hlen' Hscan)
      as (Hj & _ & (c & Hcj & Hst) & Hbefore).
    exists (cdist (capacity_ t) (cinc (capacity_ t) pos) j).
    split; [by apply cdist_lt|]. split; [by rewrite iter_cinc_cdist|]. split.
    + destruct c as [k|]; simpl in Hst.
      * right. destruct (key_view_live_Some _ _ _ _ Hlive Hcj) as (a & it & Hsj & Hit & Hk).
        exists a, it, (home t k). rewrite Hk. split_and!; try done.
        rewrite <-Hrange; try done; [|by apply home_lt].
        change (cyclic_inc t pos) with (cinc (capacity_ t) pos).
        by destruct (is_in_range _ _ _).
      * left. by eapply key_view_live_None.
    + intros d' Hd'.
      destruct (iter_cinc (capacity_ t) (cinc (capacity_ t) pos) d' Hcp) as [Hx Hdx].
      { pose proof (cdist_lt (capacity_ t) _ j Hcp Hj). lia. }
      revert Hx Hdx. generalize (Nat.iter d' (cinc (capacity_ t)) (cinc (capacity_ t) pos)).
      intros x Hx Hdx.
      destruct (Hbefore x Hx) as (cx & Hcx & Hstx); [lia|].
      destruct cx as [k|]; simpl in Hstx; [|done].
      unfold slot_keys in Hcx.
      intros [Hnone|(a & it & h & Hsx & Hit & Hh & Hout)].
      * rewrite (key_view_None (heap t) _ _ Hnone) in Hcx. done.
      * rewrite (key_view_Some _ _ _ _ _ Hsx Hit) in Hcx. injection Hcx as <-.
        rewrite Hgh in Hh. injection Hh as <-.
        apply Hout. apply Hrange; try done; [by apply home_lt|].
        change (cyclic_inc t pos) with (cinc (capacity_ t) pos).
        by destruct (is_in_range _ _ _).
  - intros [e He]. unfold find_next.
    rewrite (find_next_loop_cscan t) by done.
    change (cyclic_inc t pos) with (cinc (capacity_ t) pos).
    assert (e < capacity_ t) as Helt by (rewrite <-Hlen; by eapply lookup_lt_Some).
    eapply (cscan_total _ _ _ _ _ e None); try done.
    + by apply key_view_None.
    + by apply cdist_lt.
Qed.

(** ** Termination of the probe *)

Lemma find_pos_loop_fuel t key : ∀ fuel fuel' i j,
  find_pos_loop t key fuel i = Some j → fuel ≤ fuel' →
  find_pos_loop t key fuel' i = Some j.
Proof.
  induction fuel as [|fuel IH]; intros fuel' i j; simpl; [done|].
  intros H Hle. destruct fuel' as [|fuel']; [lia|]. simpl.
  destruct (vget (storage t) i) as [[a|]|]; simpl in *; try done.
  destruct (heap t !! a) as [it|]; simpl in *; [|done].
  case_bool_decide; [done|]. apply (IH fuel'); [done|lia].
Qed.

(** C8.  A reachable table has fewer elements than slots, so one slot at
    least is empty, and [find_pos] comes to an end for every key: it
    returns after at most [capacity_] steps, whatever bound the loop is
    given beyond that. *)
Theorem never_full t :
  reachable t →
  size t < capacity_ t ∧
  (∃ j, storage t !! j = Some None) ∧
  (∀ key, ∃ h j, get_hash t key = Some h ∧ find_pos t key = Some j ∧
     ∀ fuel, capacity_ t ≤ fuel → find_pos_loop t key fuel h = Some j).
Proof.
  intros [es Hinv]%reachable_Inv.
  pose proof Hinv as (((Hch & Ho & Hnd & Hc & Hlen) & Hs & Hp & Hpi) & Hsz & Hload).
  split_and!.
  - unfold size. lia.
  - apply (has_empty_slot _ _ _ Hs). rewrite length_fmap. lia.
  - intros key.
    destruct (find_pos_spec t (es.*1) key Hc Hlen Hs Hpi) as (j & Hfp & _);
      [rewrite length_fmap; lia|].
    exists (home t key), j. split_and!; try done.
    + unfold get_hash. by rewrite bool_decide_eq_false_2 by lia.
    + intros fuel Hfuel. apply (find_pos_loop_fuel t key (capacity_ t)); [|done].
      unfold find_pos, get_hash in Hfp. rewrite bool_decide_eq_false_2 in Hfp by lia.
      done.
Qed.

(** ** Access by key *)

(** C7.  [at] throws exactly for the keys the table does not hold and
    returns the value of the key otherwise; [operator[]] never throws:
    for a key the table does not hold it adds the key with a
    default-constructed value at the tail, which makes the table one
    larger, and returns a reference to this value; for a key the table
    holds it leaves the table as it is and returns a reference to the
    value of the key. *)
Theorem at_throws_index_inserts t key :
  reachable t →
  ∃ l, iterate t = Some l ∧
    (at_ key t = Some (inl out_of_range) ↔ key ∉ l.*1) ∧
    (∀ v, (key, v) ∈ l ↔ at_ key t = Some (inr v)) ∧
    ∃ a t', operator_index key t = Some (a, t') ∧
      find key t' = Some (Some a) ∧
      (key ∉ l.*1 →
         size t' = size t + 1 ∧
         iterate t' = Some (l ++ [(key, ValueType_default)]) ∧
         read_ref a t' = Some ValueType_default ∧
         at_ key t' = Some (inr ValueType_default)) ∧
      (∀ v, (key, v) ∈ l → t' = t ∧ read_ref a t' = Some v).
Proof.
  intros [es Hinv]%reachable_Inv.
  pose proof (Inv_represents _ _ Hinv) as Hr.
  pose proof Hinv as (((_ & _ & Hnd & _) & _) & _).
  exists (es.*2). split; [by apply represents_iterate|].
  destruct (at_represents t _ key Hr) as [Hat Hfv].
  split_and!.
  - rewrite Hat, <-first_value_None.
    destruct (first_value key es.*2); split; intros; done.
  - intros v. rewrite <-Hfv, Hat.
    destruct (first_value key es.*2); split; intros [= ->]; done.
  - destruct (operator_index_spec t es key Hinv)
      as (a & t' & es' & Hx & Hinv' & Hcase).
    exists a, t'. split; [done|].
    pose proof (Inv_represents _ _ Hinv') as Hr'.
    assert (∃ v, (a, (key, v)) ∈ es' ∧ read_ref a t' = Some v) as (v' & Hin' & Hrd').
    { destruct Hcase as [(v & Hin & -> & -> & Hrd)|(_ & _ & -> & Hrd & _)].
      - by exists v.
      - exists ValueType_default. split; [set_solver|done]. }
    split_and!.
    + destruct (find_spec t' es' key Hinv') as [[Hk _]|(a' & v'' & Hin'' & Hf & _)].
      * exfalso. apply Hk. by apply (entry_key_in es' a (key, v')).
      * pose proof Hinv' as (((_ & _ & Hnd' & _) & _) & _).
        destruct (entry_unique es' a' a key v'' v' Hnd' Hin'' Hin') as [-> _]. done.
    + intros Hk. destruct Hcase as [(v & Hin & _)|(_ & _ & -> & Hrd & Hins)].
      { exfalso. apply Hk. by apply (entry_key_in es a (key, v)). }
      split_and!; try done.
      * rewrite (represents_size _ _ Hr'), (represents_size _ _ Hr), fmap_app, length_app.
        done.
      * rewrite (represents_iterate _ _ Hr'). by rewrite fmap_app.
      * assert ((a, (key, ValueType_default)) ∈ es ++ [(a, (key, ValueType_default))])
          as Hnew by set_solver.
        destruct (at_spec t' _ key Hinv') as [[Hk' _]|(a' & v'' & Hin'' & ->)].
        -- exfalso. apply Hk'. by apply (entry_key_in _ a (key, ValueType_default)).
        -- pose proof Hinv' as (((_ & _ & Hnd' & _) & _) & _).
           destruct (entry_unique _ a' a key v'' ValueType_default Hnd' Hin'' Hnew)
             as [_ ->]. done.
    + intros v Hin. destruct Hcase as [(v0 & Hin0 & -> & -> & Hrd)|(Hk & _)].
      * split; [done|]. rewrite Hrd. f_equal.
        apply list_elem_of_fmap in Hin as ([a1 [k1 v1]] & [= <- <-] & Hin1).
        by destruct (entry_unique es a a1 key v0 v Hnd Hin0 Hin1) as [_ ->].
      * exfalso. apply Hk. apply list_elem_of_fmap. by exists (key, v).
Qed.

(** ** Copies *)

(** Two tables that hold the same pairs answer [at] alike. *)
Lemma at_represents_eq t1 t2 l key :
  represents t1 l → represents t2 l → at_ key t1 = at_ key t2.
Proof.
  intros H1 H2.
  destruct (at_represents t1 l key H1) as [-> _].
  by destruct (at_represents t2 l key H2) as [-> _].
Qed.

(** C9.  Assigning a table to itself changes nothing.  Assigning another
    table empties the destination and inserts the pairs of the source
    in the iteration order of the source, which is then the iteration
    order of the destination; it gives a table that iterates and
    answers as the one [clear] and these insertions give. *)
Theorem copy_assignment (objs : gmap nat HashMap) this t :
  (∀ i x, objs !! i = Some x → reachable x) →
  objs !! this = Some t →
  operator_assign this this objs = Some objs ∧
  (∀ other o, other ≠ this → objs !! other = Some o →
     ∃ lo t0 t' tc tc',
       iterate o = Some lo ∧
       delete_all t = Some t0 ∧ insert_each lo t0 = Some t' ∧
       operator_assign this other objs = Some (<[this := t']> objs) ∧
       iterate t' = Some lo ∧ size t' = size o ∧
       (∀ key, at_ key t' = at_ key o) ∧
       clear t = Some tc ∧ insert_each lo tc = Some tc' ∧
       iterate tc' = iterate t' ∧ size tc' = size t' ∧
       (∀ key, at_ key tc' = at_ key t')).
Proof.
  intros Hobjs Ht. split.
  - unfold operator_assign. rewrite bool_decide_eq_false_2 by (intros ?; done).
    by rewrite Ht.
  - intros other o Hne Ho.
    destruct (reachable_Inv _ (Hobjs _ _ Ht)) as [est Hinvt].
    destruct (reachable_Inv _ (Hobjs _ _ Ho)) as [eso Hinvo].
    destruct (operator_assign_spec objs this other t o est eso Hne Ht Ho Hinvt Hinvo)
      as (t0 & t' & Hda & Hie & Ha & Hr' & _).
    destruct (clear_spec t est Hinvt) as (tc & Hc & Hinvc & _).
    destruct (insert_each_represents (eso.*2) tc []) as (tc' & Hiec & Hrc & _).
    { by exists []. }
    rewrite insert_each_abs_NoDup in Hrc
      by (by destruct Hinvo as (((_ & _ & Hnd & _) & _) & _)).
    simpl in Hrc.
    pose proof (Inv_represents _ _ Hinvo) as Hro.
    exists (eso.*2), t0, t', tc, tc'. split_and!; try done.
    + by apply represents_iterate.
    + by apply represents_iterate.
    + by rewrite (represents_size _ _ Hr'), (represents_size _ _ Hro).
    + intros key. by apply (at_represents_eq _ _ (eso.*2)).
    + by rewrite (represents_iterate _ _ Hrc), (represents_iterate _ _ Hr').
    + by rewrite (represents_size _ _ Hrc), (represents_size _ _ Hr').
    + intros key. by apply (at_represents_eq _ _ (eso.*2)).
Qed.

(** C10.  The copy constructor called with the source alone gives a
    table whose hasher is the default-constructed one, whatever the
    hasher of the source is; the copy holds the pairs of the source in
    the same order. *)
Theorem copy_constructor_default_hasher other :
  reachable other →
  ∃ t, HashMap_copy other None = Some t ∧
    hash_function t = Hash_default ∧
    (hash_function other ≠ Hash_default →
     hash_function t ≠ hash_function other) ∧
    iterate t = iterate other.
Proof.
  intros [eso Hinvo]%reachable_Inv.
  destruct (HashMap_copy_spec other eso None Hinvo) as (t & Hc & Hr & Hh).
  exists t. unfold hash_function. split_and!; try done.
  - rewrite Hh. intros Hne Heq. by apply Hne.
  - rewrite insert_each_abs_NoDup in Hr
      by (by destruct Hinvo as (((_ & _ & Hnd & _) & _) & _)).
    simpl in Hr. rewrite (represents_iterate _ _ Hr).
    symmetry. apply represents_iterate. by apply Inv_represents.
Qed.

(** * Further properties of the member functions *)

Lemma reachable_iterate t l :
  reachable t → iterate t = Some l → represents t l.
Proof.
  intros [l' Hr]%reachable_represents Hi.
  by rewrite (represents_iterate_inv _ _ _ Hr Hi).
Qed.

Lemma Inv_NoDup t es : Inv t es → NoDup (es.*2.*1).
Proof. by intros (((_ & _ & Hnd & _) & _) & _). Qed.

Lemma find_entry t es a key v :
  Inv t es → (a, (key, v)) ∈ es →
  find key t = Some (Some a) ∧ Some a ≠ end_ t ∧
  iterator_deref t (Some a) = Some (key, v).
Proof.
  intros Hinv Hin.
  destruct (find_spec t es key Hinv) as [[Hn _]|(a' & v' & Hin' & Hf & Hne & Hd)].
  - destruct Hn. apply (entry_key_in es a (key, v)). done.
  - destruct (entry_unique es a a' key v v') as [-> ->]; [|done..].
    by eapply Inv_NoDup.
Qed.

Lemma find_entry_inv t es a key :
  Inv t es → find key t = Some (Some a) → Some a ≠ end_ t →
  ∃ v, (a, (key, v)) ∈ es.
Proof.
  intros Hinv Hf Hne.
  destruct (find_spec t es key Hinv) as [[_ Hf']|(a' & v' & Hin' & Hf' & _)].
  - rewrite Hf in Hf'. by injection Hf' as Hf'.
  - rewrite Hf in Hf'. injection Hf' as ->. by exists v'.
Qed.

(** ** Emptied tables *)

Lemma Inv_nil_state t :
  Inv t [] →
  size t = 0 ∧ begin t = end_ t ∧ storage t = replicate (capacity_ t) None ∧
  ∃ ea e, end_ t = Some ea ∧ heap t = {[ea := e]} ∧ prev e = None ∧ next e = None.
Proof.
  intros (((Hch & _ & _ & Hc & Hlen) & Hso & _ & _) & Hsz & _).
  destruct Hch as (ea & He & Hnd & Hdom & Hb & Hdll). simpl in *.
  destruct Hdll as (e & Hea & Hp & Hn & _). simpl in Hn.
  split_and!; [done| exact Hb | |].
  - symmetry. apply replicate_as_Forall. split; [done|].
    apply Forall_lookup. intros i [a|] Hi; [|done].
    destruct (Hso i a Hi) as [Hin _]. by apply elem_of_nil in Hin.
  - exists ea, e. split_and!; [done| |done..].
    rewrite union_empty_r_L in Hdom.
    destruct (dom_singleton_inv_L _ _ Hdom) as [e' Hh].
    rewrite Hh in Hea |- *.
    rewrite lookup_singleton_eq in Hea. by injection Hea as ->.
Qed.

(** X1.  [delete_all] brings a table back to the state of a new one: no
    pair, one empty slot, and a heap that holds the sentinel alone,
    linked to nothing; the hasher and the sentinel are those the table
    had. *)
Theorem delete_all_resets t :
  reachable t →
  ∃ t' ea e, delete_all t = Some t' ∧ end_ t = Some ea ∧
    t' = mkHashMap 0 1 (hash_function t) (Some ea) (Some ea) [None] {[ea := e]} ∧
    prev e = None ∧ next e = None.
Proof.
  intros [es Hinv]%reachable_Inv.
  destruct (delete_all_spec t es Hinv) as (t' & Hd & Hinv' & Hcap & Hh & He).
  destruct (Inv_nil_state t' Hinv') as (Hsz & Hb & Hs & ea & e & Hea & Hheap & Hp & Hn).
  exists t', ea, e. unfold end_, begin, size, hash_function in *.
  split_and!; [done|congruence| |done..].
  destruct t'; simpl in *. rewrite Hcap in Hs. simpl in Hs. congruence.
Qed.

(** X2.  The destructor frees every item the table owns, the sentinel
    last, and follows no pointer to an item it has freed: it runs to its
    end and leaves no allocation. *)
Theorem destructor_frees_all t :
  reachable t → destructor t = Some ∅.
Proof.
  intros [es Hinv]%reachable_Inv.
  destruct (delete_all_spec t es Hinv) as (t' & Hd & Hinv' & _).
  destruct (Inv_nil_state t' Hinv') as (_ & _ & _ & ea & e & Hea & Hheap & Hp & Hn).
  unfold destructor. rewrite Hd. simpl. unfold end_ in Hea. rewrite Hea, Hheap.
  unfold delete_Item, disconnect. rewrite lookup_singleton_eq. simpl.
  rewrite Hp, Hn. simpl. by rewrite delete_singleton_eq.
Qed.

(** X3.  [clear] empties the table and keeps its capacity: every slot is
    null, [begin()] is [end()], no key is found, every item but the
    sentinel is freed, and the hasher is the one the table had. *)
Theorem clear_empties t :
  reachable t →
  ∃ t', clear t = Some t' ∧
    size t' = 0 ∧ empty t' = true ∧ begin t' = end_ t' ∧
    iterate t' = Some [] ∧
    (∀ key, find key t' = Some (end_ t') ∧
            at_ key t' = Some (inl out_of_range)) ∧
    capacity_ t' = capacity_ t ∧
    storage t' = replicate (capacity_ t) None ∧
    hash_function t' = hash_function t ∧ end_ t' = end_ t ∧
    base.size (heap t') = 1.
Proof.
  intros [es Hinv]%reachable_Inv.
  destruct (clear_spec t es Hinv) as (t' & Hc & Hinv' & Hcap & Hh & He).
  destruct (Inv_nil_state t' Hinv') as (Hsz & Hb & Hs & ea & e & Hea & Hheap & _).
  exists t'. split_and!; try done.
  - unfold empty. unfold size in Hsz. by rewrite Hsz.
  - by rewrite (iterate_spec t' []); [|apply Hinv'].
  - intros key. split.
    + destruct (find_spec t' [] key Hinv') as [[_ Hf]|(a & v & Hin & _)]; [done|].
      by apply elem_of_nil in Hin.
    + destruct (at_spec t' [] key Hinv') as [[_ Hf]|(a & v & Hin & _)]; [done|].
      by apply elem_of_nil in Hin.
  - by rewrite <- Hcap.
  - rewrite Hheap. apply map_size_singleton.
Qed.

(** X4.  [empty()] tells whether [begin()] is [end()], and whether the
    iteration yields nothing. *)
Theorem empty_iff_begin_is_end t :
  reachable t →
  empty t = iterator_eq (begin t) (end_ t) ∧
  iterator_ne (begin t) (end_ t) = negb (empty t) ∧
  (empty t = true ↔ iterate t = Some []).
Proof.
  intros [es Hinv]%reachable_Inv.
  pose proof Hinv as ((Hwf & _) & Hsz & _).
  rewrite (iterate_spec t es Hwf).
  pose proof (wf_begin t es Hwf) as Hb.
  unfold empty, iterator_eq, iterator_ne, begin, end_. rewrite Hsz, Hb.
  destruct es as [|[a kv] es]; simpl.
  - rewrite !bool_decide_eq_true_2 by done.
    rewrite bool_decide_eq_false_2 by (intros H; by apply H). done.
  - pose proof (entry_not_end t ((a, kv) :: es) a kv Hwf (list_elem_of_here _ _)) as Hne.
    rewrite !bool_decide_eq_false_2 by done.
    rewrite bool_decide_eq_true_2 by done. split_and!; [done..|]. split; [done|].
    intros [=].
Qed.

(** X5.  The heap of a table holds one item per pair and the sentinel,
    and nothing else: no operation leaks an item.  The sentinel is the
    last item of the chain and the item at [begin()] the first. *)
Theorem heap_is_chain_and_sentinel t :
  reachable t →
  base.size (heap t) = S (size t) ∧
  (∃ e, load (heap t) (end_ t) = Some e ∧ next e = None) ∧
  (∃ b, load (heap t) (begin t) = Some b ∧ prev b = None).
Proof.
  intros [es Hinv]%reachable_Inv.
  pose proof Hinv as ((Hwf & _) & Hsz & _).
  pose proof Hwf as (Hch & _).
  split_and!.
  - rewrite (chain_inv_size _ _ _ _ Hch). unfold size.
    by rewrite Hsz, !length_fmap.
  - destruct Hch as (ea & He & _ & _ & _ & Hdll).
    apply dll_app in Hdll as [_ (e & Hea & _ & Hn & _)].
    exists e. unfold end_. rewrite He. done.
  - destruct Hch as (ea & He & _ & _ & Hb & Hdll).
    unfold begin. rewrite Hb.
    destruct (es.*1) as [|a l]; simpl in *.
    + destruct Hdll as (e & Hea & Hp & _). exists e. by rewrite He.
    + destruct Hdll as (b & Hba & Hp & _). by exists b.
Qed.

(** ** Lookups before and after an operation *)

Lemma addr_unique (es : list (nat * (KeyType * ValueType))) a kv1 kv2 :
  NoDup (es.*1) → (a, kv1) ∈ es → (a, kv2) ∈ es → kv1 = kv2.
Proof.
  intros Hnd H1 H2.
  apply list_elem_of_lookup_1 in H1 as [i1 H1].
  apply list_elem_of_lookup_1 in H2 as [i2 H2].
  assert (es.*1 !! i1 = Some a) as K1 by (by rewrite list_lookup_fmap, H1).
  assert (es.*1 !! i2 = Some a) as K2 by (by rewrite list_lookup_fmap, H2).
  assert (i1 = i2) as -> by (by eapply NoDup_lookup).
  congruence.
Qed.

Lemma Inv_NoDup_addrs t es : Inv t es → NoDup (es.*1).
Proof.
  intros ((((ea & _ & Hnd & _) & _) & _) & _).
  by apply NoDup_app in Hnd as (? & _).
Qed.

(** The live addresses of a table are those of its entries and that of
    the sentinel. *)
Lemma heap_addrs t es a :
  Inv t es → Some a ≠ end_ t → is_Some (heap t !! a) ↔ a ∈ es.*1.
Proof.
  intros ((((ea & He & _ & Hdom & _) & _) & _) & _) Hne.
  rewrite <- elem_of_dom, Hdom, elem_of_list_to_set, elem_of_app, list_elem_of_singleton.
  unfold end_ in Hne. rewrite He in Hne. split; [|by left].
  intros [?| ->]; [done|]. by destruct Hne.
Qed.

(** Two tables whose entries for [key] agree answer [at] and [find] for
    [key] alike. *)
Lemma lookups_agree t es t' es' key :
  Inv t es → Inv t' es' → _end t' = _end t →
  (∀ a v, (a, (key, v)) ∈ es ↔ (a, (key, v)) ∈ es') →
  at_ key t' = at_ key t ∧ find key t' = find key t.
Proof.
  intros Hinv Hinv' He Hiff.
  destruct (at_spec t es key Hinv) as [[Hk Ha]|(a & v & Hin & Ha)];
    destruct (at_spec t' es' key Hinv') as [[Hk' Ha']|(a' & v' & Hin' & Ha')].
  - destruct (find_spec t es key Hinv) as [[_ Hf]|(a & v & Hin & _)];
      [|destruct Hk; by apply (entry_key_in es a (key, v))].
    destruct (find_spec t' es' key Hinv') as [[_ Hf']|(a & v & Hin & _)];
      [|destruct Hk'; by apply (entry_key_in es' a (key, v))].
    unfold end_ in *. split; congruence.
  - destruct Hk. apply (entry_key_in es a' (key, v')). by apply Hiff.
  - destruct Hk'. apply (entry_key_in es' a (key, v)). by apply Hiff.
  - apply Hiff in Hin'.
    destruct (entry_unique es a a' key v v') as [-> ->];
      [by eapply Inv_NoDup|done..|].
    split; [congruence|].
    destruct (find_entry t es a' key v' Hinv Hin) as [-> _].
    apply Hiff in Hin.
    by destruct (find_entry t' es' a' key v' Hinv' Hin) as [-> _].
Qed.

(** X6.  [insert] keeps every iterator and every reference the table has
    handed out, also when it rehashes: a key that was found is found at
    the same item, with the same pair.  A key that was not there gets an
    item that was not allocated before, which holds the pair; no other
    key changes its answer. *)
Theorem insert_keeps_iterators t kv :
  reachable t →
  ∃ t', insert kv t = Some t' ∧
    (∀ k a, find k t = Some (Some a) → Some a ≠ end_ t →
       find k t' = Some (Some a) ∧
       iterator_deref t' (Some a) = iterator_deref t (Some a)) ∧
    (∀ k, k ≠ kv.1 → at_ k t' = at_ k t ∧ find k t' = find k t) ∧
    (find kv.1 t = Some (end_ t) →
       ∃ a, find kv.1 t' = Some (Some a) ∧ Some a ≠ end_ t' ∧
            iterator_deref t' (Some a) = Some kv ∧ heap t !! a = None).
Proof.
  intros [es Hinv]%reachable_Inv.
  destruct (insert_spec t es kv Hinv) as (t' & es' & Hi & Hinv' & _ & He & Hcase).
  exists t'. split; [done|].
  assert (∀ e, e ∈ es → e ∈ es') as Hsub.
  { destruct Hcase as [(_ & _ & ->)|(_ & a & _ & -> & _)]; [done|].
    intros e ?. apply elem_of_app. by left. }
  split_and!.
  - intros k a Hf Hne.
    destruct (find_entry_inv t es a k Hinv Hf Hne) as [v Hin].
    destruct (find_entry t es a k v Hinv Hin) as (_ & _ & ->).
    destruct (find_entry t' es' a k v Hinv' (Hsub _ Hin)) as (-> & _ & ->). done.
  - intros k Hk. apply (lookups_agree t es t' es' k Hinv Hinv' He).
    destruct Hcase as [(_ & _ & ->)|(_ & a & _ & -> & _)]; [done|].
    intros a' v. rewrite elem_of_app, list_elem_of_singleton. split; [by left|].
    intros [?|[= _ Heq]]; [done|]. destruct Hk. by rewrite <- Heq.
  - intros Hf.
    destruct Hcase as [(Hk & _ & _)|(Hk & a & Ha & -> & _)].
    { destruct (entry_of_key es kv.1 Hk) as (a & v & Hin).
      destruct (find_entry t es a kv.1 v Hinv Hin) as (Hf' & Hne & _).
      rewrite Hf in Hf'. by injection Hf' as Hf'. }
    exists a. destruct kv as [k v]. simpl in *.
    destruct (find_entry t' (es ++ [(a, (k, v))]) a k v Hinv') as (? & Hne & ?).
    { apply elem_of_app. right. apply list_elem_of_here. }
    split_and!; [done..|].
    apply eq_None_not_Some. intros Hs. apply Ha.
    apply (heap_addrs t es a Hinv); [|done].
    unfold end_ in *. by rewrite <- He.
Qed.

(** X7.  [erase] of a key the table does not hold changes nothing.
    [erase] of a key it holds frees the item of the key and makes the
    table one smaller.  In both cases the key is not found afterwards,
    every other key keeps its value, and the iterators to the other
    pairs stay valid though items move between slots. *)
Theorem erase_keeps_other_iterators t key :
  reachable t →
  ∃ t', erase key t = Some t' ∧
    find key t' = Some (end_ t') ∧ at_ key t' = Some (inl out_of_range) ∧
    (find key t = Some (end_ t) → t' = t) ∧
    (∀ a, find key t = Some (Some a) → Some a ≠ end_ t →
       heap t' !! a = None ∧ S (size t') = size t) ∧
    (∀ k, k ≠ key → at_ k t' = at_ k t ∧ find k t' = find k t) ∧
    (∀ k a, k ≠ key → find k t = Some (Some a) → Some a ≠ end_ t →
       iterator_deref t' (Some a) = iterator_deref t (Some a)).
Proof.
  intros [es Hinv]%reachable_Inv.
  destruct (erase_spec t es key Hinv) as (t' & es' & Hi & Hinv' & _ & He & _ & Hcase).
  exists t'. split; [done|].
  pose proof (Inv_NoDup t es Hinv) as Hnd.
  assert (key ∉ es'.*2.*1) as Hk'.
  { destruct Hcase as [(? & _ & ->)|(es1 & a & v & es2 & -> & ->)]; [done|].
    revert Hnd. rewrite !fmap_app, !fmap_cons. simpl. intros Hnd.
    apply NoDup_app in Hnd as (_ & Hd1 & Hd2). apply NoDup_cons in Hd2 as [Hd2 _].
    rewrite <- !fmap_app. rewrite !fmap_app.
    intros [?|?]%elem_of_app; [|done]. apply (Hd1 key); [done|]. apply list_elem_of_here. }
  assert (∀ k a v, k ≠ key → (a, (k, v)) ∈ es ↔ (a, (k, v)) ∈ es') as Hiff.
  { destruct Hcase as [(? & _ & ->)|(es1 & a0 & v0 & es2 & -> & ->)]; [done|].
    intros k a v Hk. rewrite !elem_of_app, elem_of_cons. split; [|tauto].
    intros [?|[[= _ Heq]|?]]; [tauto| |tauto]. by destruct Hk. }
  split_and!.
  - destruct (find_spec t' es' key Hinv') as [[_ Hf]|(a & v & Hin & _)]; [done|].
    destruct Hk'. by apply (entry_key_in es' a (key, v)).
  - destruct (at_spec t' es' key Hinv') as [[_ Hf]|(a & v & Hin & _)]; [done|].
    destruct Hk'. by apply (entry_key_in es' a (key, v)).
  - intros Hf. destruct Hcase as [(? & ? & _)|(es1 & a & v & es2 & -> & _)]; [done|].
    destruct (find_entry t _ a key v Hinv) as (Hf' & Hne & _).
    { apply elem_of_app. right. apply list_elem_of_here. }
    rewrite Hf in Hf'. by injection Hf' as Hf'.
  - intros a Hf Hne.
    destruct (find_entry_inv t es a key Hinv Hf Hne) as [v Hin].
    destruct Hcase as [(Hk & _ & _)|(es1 & a0 & v0 & es2 & -> & ->)].
    { destruct Hk. by apply (entry_key_in es a (key, v)). }
    destruct (entry_unique _ a a0 key v v0 Hnd Hin) as [-> ->].
    { apply elem_of_app. right. apply list_elem_of_here. }
    split.
    + apply eq_None_not_Some. intros Hs.
      apply (heap_addrs t' _ a0 Hinv') in Hs; [|unfold end_ in *; by rewrite He].
      pose proof (Inv_NoDup_addrs t _ Hinv) as Hnda.
      revert Hnda Hs. rewrite !fmap_app, !fmap_cons. simpl. intros Hnda.
      apply NoDup_app in Hnda as (_ & Hd1 & Hd2). apply NoDup_cons in Hd2 as [Hd2 _].
      intros [?|?]%elem_of_app; [|done]. apply (Hd1 a0); [done|]. apply list_elem_of_here.
    + destruct Hinv as (_ & Hs & _). destruct Hinv' as (_ & Hs' & _).
      unfold size. rewrite Hs, Hs', !length_app. simpl. lia.
  - intros k Hk. apply (lookups_agree t es t' es' k Hinv Hinv' He).
    intros a v. by apply Hiff.
  - intros k a Hk Hf Hne.
    destruct (find_entry_inv t es a k Hinv Hf Hne) as [v Hin].
    destruct (find_entry t es a k v Hinv Hin) as (_ & _ & ->).
    apply Hiff in Hin; [|done].
    by destruct (find_entry t' es' a k v Hinv' Hin) as (_ & _ & ->).
Qed.

(** ** Writing through an iterator or a reference *)

Lemma set_entry_elem a v (es : list (nat * (KeyType * ValueType))) a' k' v' :
  (a', (k', v')) ∈ set_entry a v es ↔
  if decide (a' = a) then v' = v ∧ ∃ v0, (a, (k', v0)) ∈ es
  else (a', (k', v')) ∈ es.
Proof.
  unfold set_entry. rewrite list_elem_of_fmap. split.
  - intros ([a0 [k0 v0]] & Heq & Hin). simpl in Heq.
    destruct (decide (a0 = a)) as [->|Hne]; injection Heq as -> -> ->.
    + rewrite decide_True by done. split; [done|]. by exists v0.
    + by rewrite decide_False.
  - destruct (decide (a' = a)) as [->|Hne].
    + intros [-> [v0 Hin]]. exists (a, (k', v0)). simpl. by rewrite decide_True.
    + intros Hin. exists (a', (k', v')). simpl. by rewrite decide_False.
Qed.

Lemma write_ref_lookups t es a key v0 v :
  Inv t es → (a, (key, v0)) ∈ es →
  ∃ t', write_ref a v t = Some t' ∧ Inv t' (set_entry a v es) ∧
    _end t' = _end t ∧ size_ t' = size_ t ∧ capacity_ t' = capacity_ t ∧
    (a, (key, v)) ∈ set_entry a v es ∧
    at_ key t' = Some (inr v) ∧
    (∀ k, find k t' = find k t) ∧
    (∀ k, k ≠ key → at_ k t' = at_ k t).
Proof.
  intros Hinv Hin.
  destruct (write_ref_spec t es a (key, v0) v Hinv Hin) as (t' & Hw & Hinv' & Hc & _ & Hs & _).
  exists t'.
  assert (_end t' = _end t) as He.
  { unfold write_ref in Hw. destruct (modify _ _ _); [|done]. by injection Hw as <-. }
  assert ((a, (key, v)) ∈ set_entry a v es) as Hin'.
  { apply set_entry_elem. rewrite decide_True by done. split; [done|]. by exists v0. }
  pose proof (Inv_NoDup t es Hinv) as Hnd.
  pose proof (Inv_NoDup_addrs t es Hinv) as Hnda.
  pose proof (Inv_NoDup t' _ Hinv') as Hnd'.
  split_and!; [done..| | |].
  - destruct (at_spec t' _ key Hinv') as [[Hk _]|(a2 & v2 & Hin2 & ->)].
    { destruct Hk. by apply (entry_key_in _ a (key, v)). }
    by destruct (entry_unique _ a a2 key v v2 Hnd' Hin' Hin2) as [_ ->].
  - intros k.
    destruct (find_spec t es k Hinv) as [[Hk ->]|(a1 & v1 & Hin1 & -> & _)];
      destruct (find_spec t' _ k Hinv') as [[Hk' ->]|(a2 & v2 & Hin2 & -> & _)].
    + unfold end_. by rewrite He.
    + destruct Hk. rewrite <- (set_entry_keys a v es).
      by apply (entry_key_in _ a2 (k, v2)).
    + destruct Hk'. rewrite (set_entry_keys a v es).
      by apply (entry_key_in _ a1 (k, v1)).
    + apply set_entry_elem in Hin2. destruct (decide (a2 = a)) as [->|Hne].
      * destruct Hin2 as [_ [v3 Hin3]].
        by destruct (entry_unique es a1 a k v1 v3 Hnd Hin1 Hin3) as [-> _].
      * by destruct (entry_unique es a1 a2 k v1 v2 Hnd Hin1 Hin2) as [-> _].
  - intros k Hk.
    destruct (at_spec t es k Hinv) as [[Hk1 ->]|(a1 & v1 & Hin1 & ->)];
      destruct (at_spec t' _ k Hinv') as [[Hk' ->]|(a2 & v2 & Hin2 & ->)].
    + done.
    + destruct Hk1. rewrite <- (set_entry_keys a v es).
      by apply (entry_key_in _ a2 (k, v2)).
    + destruct Hk'. rewrite (set_entry_keys a v es).
      by apply (entry_key_in _ a1 (k, v1)).
    + apply set_entry_elem in Hin2. destruct (decide (a2 = a)) as [->|Hne].
      * destruct Hin2 as [_ [v3 Hin3]].
        pose proof (addr_unique es a _ _ Hnda Hin Hin3) as [= ?]. by destruct Hk.
      * by destruct (entry_unique es a1 a2 k v1 v2 Hnd Hin1 Hin2) as [_ ->].
Qed.

(** X8.  Assigning to the value of the pair an iterator from [find]
    points to changes the value of this key and nothing else: the keys
    and their order, the size, the capacity and what [find] returns for
    any key stay, and every other key keeps its value. *)
Theorem write_through_iterator t key a v :
  reachable t → find key t = Some (Some a) → Some a ≠ end_ t →
  ∃ t', write_ref a v t = Some t' ∧
    iterator_deref t' (Some a) = Some (key, v) ∧
    at_ key t' = Some (inr v) ∧
    (∀ k, find k t' = find k t) ∧
    (∀ k, k ≠ key → at_ k t' = at_ k t) ∧
    size t' = size t ∧ capacity_ t' = capacity_ t ∧
    ∃ l l', iterate t = Some l ∧ iterate t' = Some l' ∧ l'.*1 = l.*1.
Proof.
  intros [es Hinv]%reachable_Inv Hf Hne.
  destruct (find_entry_inv t es a key Hinv Hf Hne) as [v0 Hin].
  destruct (write_ref_lookups t es a key v0 v Hinv Hin)
    as (t' & Hw & Hinv' & He & Hs & Hc & Hin' & Hat & Hfind & Hoth).
  exists t'. split_and!; try done.
  - by destruct (find_entry t' _ a key v Hinv' Hin') as (_ & _ & ->).
  - exists (es.*2), ((set_entry a v es).*2). split_and!.
    + apply iterate_spec, Hinv.
    + apply iterate_spec, Hinv'.
    + apply set_entry_keys.
Qed.

Lemma insert_other_keys t es kv t' :
  Inv t es → insert kv t = Some t' →
  ∀ k, k ≠ kv.1 → at_ k t' = at_ k t ∧ find k t' = find k t.
Proof.
  intros Hinv Hi k Hk.
  destruct (insert_spec t es kv Hinv) as (t'' & es' & Hi' & Hinv' & _ & He & Hcase).
  rewrite Hi in Hi'. injection Hi' as <-.
  apply (lookups_agree t es t' es' k Hinv Hinv' He).
  destruct Hcase as [(_ & _ & ->)|(_ & a & _ & -> & _)]; [done|].
  intros a' v. rewrite elem_of_app, list_elem_of_singleton. split; [by left|].
  intros [?|[= _ Heq]]; [done|]. destruct Hk. by rewrite <- Heq.
Qed.

(** X9.  The assignment [m[key] = v] makes [v] the value of [key],
    whether the table held the key or not, and leaves the value of
    every other key as it is; the table grows by one pair exactly when
    it did not hold the key. *)
Theorem index_assign_overwrites t key v :
  reachable t →
  ∃ a t1 t2, operator_index key t = Some (a, t1) ∧ write_ref a v t1 = Some t2 ∧
    at_ key t2 = Some (inr v) ∧
    (∀ k, k ≠ key → at_ k t2 = at_ k t) ∧
    size t2 = (if bool_decide (find key t = Some (end_ t))
               then S (size t) else size t).
Proof.
  intros [es Hinv]%reachable_Inv.
  destruct (operator_index_spec t es key Hinv) as (a & t1 & es1 & Hi & Hinv1 & Hcase).
  assert (∃ v0, (a, (key, v0)) ∈ es1) as [v0 Hin].
  { destruct Hcase as [(v0 & ? & _ & -> & _)|(_ & _ & -> & _)]; [by exists v0|].
    exists ValueType_default. apply elem_of_app. right. apply list_elem_of_here. }
  destruct (write_ref_lookups t1 es1 a key v0 v Hinv1 Hin)
    as (t2 & Hw & Hinv2 & He & Hs & Hc & Hin' & Hat & Hfind & Hoth).
  exists a, t1, t2. split_and!; [done..| |].
  - intros k Hk. rewrite (Hoth k Hk).
    destruct Hcase as [(_ & _ & -> & _)|(_ & _ & _ & _ & Hins)]; [done|].
    by apply (insert_other_keys t es (key, ValueType_default) t1 Hinv Hins).
  - unfold size. rewrite Hs.
    destruct Hcase as [(v1 & Hin1 & -> & _)|(Hk & _ & -> & _)].
    + destruct (find_entry t es a key v1 Hinv Hin1) as (Hf & Hne & _).
      rewrite bool_decide_eq_false_2; [done|].
      rewrite Hf. by intros [= ?].
    + destruct (find_spec t es key Hinv) as [[_ Hf]|(a' & v' & Hin'' & _)].
      * rewrite bool_decide_eq_true_2 by done.
        destruct Hinv as (_ & -> & _). destruct Hinv1 as (_ & -> & _).
        rewrite length_app. simpl. lia.
      * destruct Hk. by apply (entry_key_in es a' (key, v')).
Qed.

(** X10.  The constructors from a sequence of pairs: a sequence with
    distinct keys gives a table that iterates to the sequence itself and
    answers every pair of it; and the pairs a table iterates to give,
    with any hasher, a table that iterates and answers as this one. *)
Theorem of_list_round_trip :
  (∀ l hasher, NoDup (l.*1) →
     ∃ t, HashMap_of_list l hasher = Some t ∧
       iterate t = Some l ∧ size t = length l ∧
       hash_function t = hasher_arg hasher ∧
       ∀ k v, (k, v) ∈ l → at_ k t = Some (inr v)) ∧
  (∀ t l hasher, reachable t → iterate t = Some l →
     ∃ t', HashMap_of_list l hasher = Some t' ∧
       iterate t' = Some l ∧ size t' = size t ∧
       ∀ key, at_ key t' = at_ key t).
Proof.
  assert (∀ l hasher, NoDup (l.*1) →
     ∃ t, HashMap_of_list l hasher = Some t ∧ represents t l ∧
          hasher_ t = hasher_arg hasher) as Hof.
  { intros l hasher Hnd.
    destruct (HashMap_of_list_spec l hasher) as (t & Ht & Hr & Hh).
    rewrite (insert_each_abs_NoDup l []) in Hr by done. by exists t. }
  split.
  - intros l hasher Hnd. destruct (Hof l hasher Hnd) as (t & Ht & Hr & Hh).
    exists t. split_and!; [done| | |done|].
    + by apply represents_iterate.
    + by apply represents_size.
    + intros k v Hin. destruct (at_represents t l k Hr) as [-> Hfv].
      apply Hfv in Hin. by rewrite Hin.
  - intros t l hasher Hreach Hit.
    pose proof (reachable_iterate t l Hreach Hit) as Hr.
    destruct (Hof l hasher (represents_NoDup t l Hr)) as (t' & Ht & Hr' & Hh).
    exists t'. split_and!; [done| | |].
    + by apply represents_iterate.
    + by rewrite (represents_size t' l), (represents_size t l).
    + intros key. by apply (at_represents_eq t' t l).
Qed.

(** ** The slot array *)

Lemma occupied_elem (s : list ptr) a :
  a ∈ occupied s ↔ ∃ i, s !! i = Some (Some a).
Proof.
  unfold occupied. rewrite list_elem_of_omap. split.
  - intros (p & Hp & Hid). simpl in Hid. subst p.
    by apply list_elem_of_lookup_1 in Hp.
  - intros [i Hi]. exists (Some a). split; [|done]. by eapply list_elem_of_lookup_2.
Qed.

Lemma occupied_NoDup (s : list ptr) :
  (∀ i j a, s !! i = Some (Some a) → s !! j = Some (Some a) → i = j) →
  NoDup (occupied s).
Proof.
  induction s as [|p s IH]; intros Hinj; [apply NoDup_nil_2|].
  assert (NoDup (occupied s)) as Hnd.
  { apply IH. intros i j a Hi Hj.
    by injection (Hinj (S i) (S j) a Hi Hj). }
  destruct p as [a|]; [|done].
  change (occupied (Some a :: s)) with (a :: occupied s).
  apply NoDup_cons. split; [|done].
  intros [j Hj]%occupied_elem. by specialize (Hinj 0 (S j) a eq_refl Hj).
Qed.

Lemma key_slot_unique t es i j a a' it it' :
  Inv t es →
  storage t !! i = Some (Some a) → heap t !! a = Some it →
  storage t !! j = Some (Some a') → heap t !! a' = Some it' →
  (keyValue it).1 = (keyValue it').1 → i = j.
Proof.
  intros Hinv Hi Ha Hj Ha' Hk.
  pose proof Hinv as (Hsl & _). pose proof Hsl as (_ & Hso & _).
  pose proof (slot_entry t es _ i a it Hsl (λ _ H, H) Hi Ha) as Hin.
  pose proof (slot_entry t es _ j a' it' Hsl (λ _ H, H) Hj Ha') as Hin'.
  destruct (keyValue it) as [k v], (keyValue it') as [k' v']. simpl in Hk. subst k'.
  destruct (entry_unique es a a' k v v' (Inv_NoDup t es Hinv) Hin Hin') as [-> _].
  destruct (Hso i a' Hi) as (_ & it1 & H1 & <-).
  destruct (Hso j a' Hj) as (_ & it2 & H2 & <-). congruence.
Qed.

(** X11.  Every item records the slot that points to it: a non-null slot
    [i] points to a live item other than the sentinel whose [pos] is
    [i], and every live item other than the sentinel is pointed to by
    the slot at its [pos]. *)
Theorem pos_is_slot t :
  reachable t →
  (∀ i a, storage t !! i = Some (Some a) →
     Some a ≠ end_ t ∧ ∃ it, heap t !! a = Some it ∧ pos it = i) ∧
  (∀ a it, heap t !! a = Some it → Some a ≠ end_ t →
     storage t !! pos it = Some (Some a)).
Proof.
  intros [es Hinv]%reachable_Inv.
  pose proof Hinv as ((Hwf & Hso & Hpl & _) & _).
  split.
  - intros i a Hi. destruct (Hso i a Hi) as (Hin & Hit). split; [|done].
    apply entry_of_addr in Hin as [kv Hin]. by apply (entry_not_end t es a kv).
  - intros a it Ha Hne.
    assert (a ∈ es.*1) as Hin by (by apply (heap_addrs t es a Hinv)).
    destruct (Hpl a Hin) as (it' & Ha' & Hs). congruence.
Qed.

(** X12.  The slot array has [capacity_] slots; [size()] is the number
    of its non-null slots, no two of which point to the same item; and
    the items they point to are the live items other than the
    sentinel. *)
Theorem size_counts_occupied_slots t :
  reachable t →
  length (storage t) = capacity_ t ∧
  size t = length (occupied (storage t)) ∧
  NoDup (occupied (storage t)) ∧
  (∀ a, a ∈ occupied (storage t) ↔ is_Some (heap t !! a) ∧ Some a ≠ end_ t).
Proof.
  intros [es Hinv]%reachable_Inv.
  pose proof Hinv as ((Hwf & Hso & Hpl & _) & Hsz & _).
  assert (NoDup (occupied (storage t))) as Hnd.
  { apply occupied_NoDup. intros i j a Hi Hj.
    destruct (Hso i a Hi) as (_ & it1 & H1 & <-).
    destruct (Hso j a Hj) as (_ & it2 & H2 & <-). congruence. }
  assert (∀ a, a ∈ occupied (storage t) ↔ a ∈ es.*1) as Hel.
  { intros a. rewrite occupied_elem. split.
    - intros [i Hi]. by destruct (Hso i a Hi).
    - intros Hin. destruct (Hpl a Hin) as (it & _ & Hs). eauto. }
  split_and!; [apply Hwf| |done|].
  - unfold size. rewrite Hsz, <- (length_fmap fst es).
    apply Permutation_length. symmetry.
    apply NoDup_Permutation; [done|by eapply Inv_NoDup_addrs|done].
  - intros a. rewrite Hel. split.
    + intros Hin. pose proof Hin as [kv Hkv]%entry_of_addr.
      pose proof (entry_not_end t es a kv Hwf Hkv) as Hne.
      split; [|done]. by apply (heap_addrs t es a Hinv).
    + intros [Hs Hne]. by apply (heap_addrs t es a Hinv).
Qed.

(** X13.  [find_pos] returns an index of the slot array that is reached
    from the home slot of the key by [cyclic_inc] over slots that all
    hold other keys.  When the table holds the key, the slot at this
    index is the one slot that holds it; when it does not, the slot is
    null: the first free slot of the probe. *)
Theorem find_pos_contract t key :
  reachable t →
  ∃ h j, get_hash t key = Some h ∧ find_pos t key = Some j ∧
    j < capacity_ t ∧
    Nat.iter (cdist (capacity_ t) h j) (cyclic_inc t) h = j ∧
    (∀ d, d < cdist (capacity_ t) h j →
       ∃ a it, storage t !! Nat.iter d (cyclic_inc t) h = Some (Some a) ∧
               heap t !! a = Some it ∧ (keyValue it).1 ≠ key) ∧
    ((storage t !! j = Some None ∧
      ∀ i a it, storage t !! i = Some (Some a) → heap t !! a = Some it →
                (keyValue it).1 ≠ key) ∨
     (∃ a it, storage t !! j = Some (Some a) ∧ heap t !! a = Some it ∧
        (keyValue it).1 = key ∧
        ∀ i a' it', storage t !! i = Some (Some a') → heap t !! a' = Some it' →
                    (keyValue it').1 = key → i = j)).
Proof.
  intros [es Hinv]%reachable_Inv.
  pose proof Hinv as (((_ & _ & _ & Hc & Hlen) & Hso & _ & Hpi) & Hsz & Hlf).
  destruct (find_pos_spec t (es.*1) key Hc Hlen Hso Hpi) as (j & Hf & Hj & Hcase & Hbefore).
  { rewrite length_fmap. lia. }
  exists (home t key), j.
  pose proof (home_lt t key Hc) as Hhome.
  assert (∀ i a it, storage t !! i = Some (Some a) → heap t !! a = Some it →
            (keyValue it).1 = key → i = j) as Huniq.
  { intros i a it Hi Ha Hk.
    destruct Hcase as [(a0 & it0 & Hj0 & _ & Ha0 & Hk0 & _)|(_ & Hno)].
    - apply (key_slot_unique t es i j a a0 it it0 Hinv); congruence.
    - destruct (Hno i). rewrite <- Hk. by apply (key_view_Some _ _ i a it). }
  change (cyclic_inc t) with (cinc (capacity_ t)).
  split_and!; [|done..| | |].
  - unfold get_hash. by rewrite bool_decide_eq_false_2 by lia.
  - by apply iter_cinc_cdist.
  - intros d Hd.
    destruct (iter_cinc (capacity_ t) (home t key) d Hhome) as [Hx Hdx].
    { pose proof (cdist_lt (capacity_ t) _ j Hhome Hj). lia. }
    destruct (Hbefore _ Hx) as [k' Hk']; [lia|].
    destruct (key_view_inv_Some _ _ _ _ _ Hso Hk') as (a & it & Ha & _ & Hit & Hk & _).
    exists a, it. split_and!; [done..|]. intros Heq.
    rewrite Heq in Hk. subst k'.
    pose proof (Huniq _ a it Ha Hit Heq) as Hxj. rewrite Hxj in Hdx. lia.
  - destruct Hcase as [(a0 & it0 & Hj0 & _ & Ha0 & Hk0 & _)|(Hj0 & Hno)].
    + right. exists a0, it0. by split_and!.
    + left. split; [done|]. intros i a it Hi Ha Hk.
      destruct (Hno i). rewrite <- Hk. by apply (key_view_Some _ _ i a it).
Qed.

(** X14.  [get_hash] is an index of the slot array, and [cyclic_inc]
    walks one cycle through all slots: from a slot, every slot is
    reached after exactly one number of steps below [capacity_], and
    [capacity_] steps lead back to the slot. *)
Theorem cyclic_inc_cycle t :
  0 < capacity_ t →
  (∀ key, ∃ h, get_hash t key = Some h ∧ h < capacity_ t) ∧
  (∀ i, i < capacity_ t →
     cyclic_inc t i < capacity_ t ∧
     Nat.iter (capacity_ t) (cyclic_inc t) i = i) ∧
  (∀ i j, i < capacity_ t → j < capacity_ t →
     ∃ d, d < capacity_ t ∧ Nat.iter d (cyclic_inc t) i = j ∧
       ∀ d', d' < capacity_ t → Nat.iter d' (cyclic_inc t) i = j → d' = d).
Proof.
  intros Hc. change (cyclic_inc t) with (cinc (capacity_ t)). split_and!.
  - intros key. exists (home t key). split; [|by apply home_lt].
    unfold get_hash. by rewrite bool_decide_eq_false_2 by lia.
  - intros i Hi. split; [by apply cinc_lt|].
    destruct (capacity_ t) as [|n] eqn:Hn; [lia|]. simpl.
    destruct (iter_cinc (S n) i n Hi) as [Hx Hd]; [lia|].
    revert Hx Hd. generalize (Nat.iter n (cinc (S n)) i). intros x Hx Hd. cyc.
  - intros i j Hi Hj. exists (cdist (capacity_ t) i j). split_and!.
    + by apply cdist_lt.
    + by apply iter_cinc_cdist.
    + intros d' Hd' <-. by destruct (iter_cinc (capacity_ t) i d' Hi Hd') as [_ ->].
Qed.

(** ** Sequences of operations *)

Lemma run_operation_reachable o t :
  reachable t →
  ∃ t', run_operation o t = Some t' ∧ reachable t' ∧ end_ t' = end_ t ∧
        (capacity_ t' = capacity_ t ∨ capacity_ t' = capacity_ t * 2).
Proof.
  intros Hreach. pose proof Hreach as [es Hinv]%reachable_Inv.
  assert (∀ kv t', insert kv t = Some t' →
            end_ t' = end_ t ∧
            (capacity_ t' = capacity_ t ∨ capacity_ t' = capacity_ t * 2)) as Hins.
  { intros kv t' Hi.
    destruct (insert_spec t es kv Hinv) as (t'' & es' & Hi' & _ & _ & He & Hcase).
    rewrite Hi in Hi'. injection Hi' as <-. split; [done|].
    destruct Hcase as [(_ & -> & _)|(_ & a & _ & _ & ->)]; [by left|].
    case_bool_decide; [by right|by left]. }
  destruct o as [kv|key|key|]; simpl.
  - destruct (insert_spec t es kv Hinv) as (t' & es' & Hi & _).
    destruct (Hins kv t' Hi). exists t'. split_and!; [done|by eapply reach_insert|done..].
  - destruct (erase_spec t es key Hinv) as (t' & es' & Hi & _ & _ & He & Hc & _).
    exists t'. split_and!; [done|by eapply reach_erase|done|by left].
  - destruct (operator_index_spec t es key Hinv) as (a & t' & es' & Hi & _ & Hcase).
    exists t'. rewrite Hi. simpl. split; [done|]. split; [by eapply reach_index|].
    destruct Hcase as [(_ & _ & -> & _)|(_ & _ & _ & _ & Hi')]; [by split; [|left]|].
    by eapply Hins.
  - destruct (clear_spec t es Hinv) as (t' & Hi & _ & Hc & _ & He).
    exists t'. split_and!; [done|by eapply reach_clear|done|by left].
Qed.

(** X15.  Every sequence of [insert], [erase], [operator[]] and [clear]
    runs to its end; it keeps the sentinel, so that [end()] stays the
    same iterator, and it never makes the slot array smaller: the
    capacity after it is the capacity before it, doubled a number of
    times. *)
Theorem operations_keep_end_and_slots ops : ∀ t,
  reachable t →
  ∃ t' n, run_operations ops t = Some t' ∧ reachable t' ∧
          end_ t' = end_ t ∧ capacity_ t' = capacity_ t * 2 ^ n.
Proof.
  induction ops as [|o ops IH]; intros t Hreach; simpl.
  - exists t, 0. split_and!; [done..|]. simpl. lia.
  - destruct (run_operation_reachable o t Hreach) as (t1 & -> & Hreach1 & He1 & Hc1).
    simpl.
    destruct (IH t1 Hreach1) as (t' & n & Hr & Hreach' & He' & Hc').
    destruct Hc1 as [Hc1|Hc1].
    + exists t', n. split_and!; [done..|congruence|]. by rewrite Hc', Hc1.
    + exists t', (S n). split_and!; [done..|congruence|]. rewrite Hc', Hc1.
      rewrite Nat.pow_succ_r'. lia.
Qed.

Lemma erase_each_represents ks : ∀ t l,
  represents t l →
  ∃ t' l', run_operations (Erase <$> ks) t = Some t' ∧ represents t' l' ∧
    capacity_ t' = capacity_ t ∧
    (∀ kv, kv ∈ l' ↔ kv ∈ l ∧ kv.1 ∉ ks).
Proof.
  induction ks as [|k ks IH]; intros t l Hr; simpl.
  - exists t, l. split_and!; [done..|]. intros kv. split; [|tauto].
    intros ?. split; [done|]. apply not_elem_of_nil.
  - destruct (erase_represents t l k Hr) as (t1 & -> & Hr1 & _ & Hc1). simpl.
    destruct (IH t1 _ Hr1) as (t' & l' & Hrun & Hr' & Hc' & Hel).
    exists t', l'. split_and!; [done..|congruence|].
    intros kv. rewrite Hel. unfold erase_abs.
    rewrite list_elem_of_filter, not_elem_of_cons. tauto.
Qed.

(** X16.  Calling [erase] for a sequence of keys that holds every key of
    the table leaves the table empty, whatever the order of the keys
    and whatever else the sequence holds; the capacity stays. *)
Theorem erase_every_key_empties t l ks :
  reachable t → iterate t = Some l → (∀ k, k ∈ l.*1 → k ∈ ks) →
  ∃ t', run_operations (Erase <$> ks) t = Some t' ∧
    empty t' = true ∧ begin t' = end_ t' ∧ iterate t' = Some [] ∧
    base.size (heap t') = 1 ∧ capacity_ t' = capacity_ t.
Proof.
  intros Hreach Hit Hall.
  pose proof (reachable_iterate t l Hreach Hit) as Hr.
  destruct (erase_each_represents ks t l Hr) as (t' & l' & Hrun & Hr' & Hc & Hel).
  assert (l' = []) as ->.
  { destruct l' as [|kv l']; [done|].
    destruct (proj1 (Hel kv) (list_elem_of_here _ _)) as [Hin Hn].
    destruct Hn. apply Hall. apply list_elem_of_fmap. by exists kv. }
  destruct Hr' as (es & Hinv & Hes). apply fmap_nil_inv in Hes as ->.
  destruct (Inv_nil_state t' Hinv) as (Hsz & Hb & _ & ea & e & _ & Hh & _).
  exists t'. split_and!; [done| |done| | |done].
  - unfold empty. unfold size in Hsz. by rewrite Hsz.
  - by rewrite (iterate_spec t' []); [|apply Hinv].
  - rewrite Hh. apply map_size_singleton.
Qed.

(** ** Iterators *)

(** X17.  The iterator [find] returns for a key points to the pair of
    the key, and walking on from it with [++] visits the pairs that
    follow this pair in the iteration from [begin()], up to [end()]:
    one step leads to what [find] returns for the next key, or to
    [end()] after the last pair. *)
Theorem iterator_walk_from_find t l1 k v l2 :
  reachable t → iterate t = Some (l1 ++ (k, v) :: l2) →
  ∃ a nx, find k t = Some (Some a) ∧
    iterator_ne (Some a) (end_ t) = true ∧
    iterator_deref t (Some a) = Some (k, v) ∧
    iterator_incr t (Some a) = Some nx ∧
    iterator_post_incr t (Some a) = Some (Some a, nx) ∧
    Some nx = match l2 with
              | [] => Some (end_ t)
              | kv' :: _ => find kv'.1 t
              end ∧
    iterate_loop (base.size (heap t)) t (Some a) = Some ((k, v) :: l2) ∧
    (l1 = [] → begin t = Some a).
Proof.
  intros [es Hinv]%reachable_Inv Hit.
  pose proof Hinv as ((Hwf & _) & _). pose proof Hwf as (Hch & _).
  rewrite (iterate_spec t es Hwf) in Hit. injection Hit as Hes.
  apply fmap_app_inv in Hes as (es1 & es' & -> & Hes' & ->).
  destruct es' as [|[a kv] es2]; [done|]. simpl in Hes'. injection Hes' as <- ->.
  assert ((a, (k, v)) ∈ es1 ++ (a, (k, v)) :: es2) as Hin.
  { apply elem_of_app. right. apply list_elem_of_here. }
  destruct (find_entry t _ a k v Hinv Hin) as (Hf & Hne & Hd).
  pose proof Hch as Hch'. rewrite fmap_app, fmap_cons in Hch'. simpl in Hch'.
  destruct (chain_inv_next _ _ _ _ _ _ Hch') as (it & Ha & Hn & _).
  exists a, (hd_ptr (es2.*1) (_end t)).
  split_and!; [done| |done| | | | |].
  - unfold iterator_ne. by rewrite bool_decide_eq_true_2.
  - unfold iterator_incr. simpl. rewrite Ha. simpl. by rewrite Hn.
  - unfold iterator_post_incr. simpl. rewrite Ha. simpl. by rewrite Hn.
  - destruct es2 as [|[a' [k' v']] es2]; simpl; [done|].
    destruct (find_entry t _ a' k' v' Hinv) as (-> & _); [|done].
    apply elem_of_app. right. apply elem_of_cons. right. apply list_elem_of_here.
  - apply (iterate_loop_spec t ((a, (k, v)) :: es2) es1 _ Hwf).
    rewrite (chain_inv_size _ _ _ _ Hch), length_fmap, length_app. simpl. lia.
  - intros ->%fmap_nil_inv. unfold begin. by rewrite (wf_begin t _ Hwf).
Qed.

(** ** Rehashing *)

(** X18.  [resize] to any capacity that keeps the load below three
    quarters, larger or smaller than the one the table has, keeps what
    the lookups answer: [find] returns the same iterator for every key
    and [at] the same value, and the table is as well-formed as
    before. *)
Theorem resize_keeps_lookups t n :
  reachable t → size t * 4 < n * 3 →
  ∃ t', resize n t = Some t' ∧ capacity_ t' = n ∧ size t' = size t ∧
    (∀ key, find key t' = find key t ∧ at_ key t' = at_ key t) ∧
    (∀ it, iterator_deref t' it = iterator_deref t it ∧
           iterator_incr t' it = iterator_incr t it) ∧
    ∃ es, Inv t es ∧ Inv t' es.
Proof.
  intros [es Hinv]%reachable_Inv Hn.
  pose proof Hinv as ((Hwf & _) & Hsz & _). unfold size in *.
  destruct (resize_spec t es n Hwf) as (t' & Hr & Hsl & Hsz' & Hc & _ & _ & He & Hpu);
    [lia|].
  assert (Inv t' es) as Hinv'.
  { split_and!; [done..|]. rewrite Hsz', Hc. lia. }
  exists t'. split_and!; [done|done|congruence| | |by exists es].
  - intros key. destruct (lookups_agree t es t' es key Hinv Hinv' He) as [-> ->]; done.
  - intros [a|]; [|done]. unfold iterator_deref, iterator_incr. simpl.
    destruct (Hpu a) as [[-> ->]|(it & j & -> & ->)]; done.
Qed.

(** ** Creating and deleting an item *)

Lemma set_prev_id (it : Item) p : prev it = p → set_prev p it = it.
Proof. intros <-. by destruct it. Qed.

Lemma set_next_id (it : Item) p : next it = p → set_next p it = it.
Proof. intros <-. by destruct it. Qed.

(** X19.  [delete_item] undoes [create_item]: the item [create_item]
    allocates is a new one that holds the pair and is linked in before
    the sentinel, and deleting it right away unlinks it and gives back
    the table as it was, chain, [begin()] and heap. *)
Theorem delete_item_undoes_create_item t key value :
  reachable t →
  ∃ a t1, create_item key value t = Some (Some a, t1) ∧
    heap t !! a = None ∧
    iterator_deref t1 (Some a) = Some (key, value) ∧
    iterator_incr t1 (Some a) = Some (end_ t1) ∧
    delete_item (Some a) t1 = Some t.
Proof.
  intros [es Hinv]%reachable_Inv.
  pose proof Hinv as (((Hch & _) & _) & _).
  destruct Hch as (ea & He & Hnd & Hdom & Hb & Hdll).
  apply dll_app in Hdll as [Hdl (e_it & Hea & Hpe & _)].
  remember (es.*1) as l eqn:Hl. clear Hl.
  unfold create_item, delete_item, new_Item, connect.
  rewrite He. simpl. rewrite Hea. simpl.
  pose proof (is_fresh (dom (heap t))) as Hfresh. revert Hfresh.
  generalize (fresh (dom (heap t))). intros a Hfresh.
  assert (heap t !! a = None) as Ha by (by apply not_elem_of_dom).
  assert (a ≠ ea) as Hne by (intros ->; congruence).
  assert (ea ≠ a) as Hne' by done.
  rewrite lookup_insert_eq. simpl.
  rewrite lookup_insert_ne by done. rewrite Hea. simpl.
  destruct l as [|la l' _] using rev_ind.
  - simpl in *. rewrite Hpe. simpl.
    rewrite lookup_insert_ne by done. rewrite lookup_insert_eq. simpl.
    eexists a, _. split; [done|]. split; [done|].
    unfold iterator_deref, iterator_incr, end_. simpl.
    rewrite lookup_insert_ne by done. rewrite lookup_insert_eq. simpl.
    split; [done|]. split; [by rewrite He|].
    rewrite bool_decide_eq_true_2 by done. simpl.
    unfold delete_Item, disconnect. simpl.
    rewrite lookup_insert_ne by done. rewrite lookup_insert_eq. simpl.
    rewrite lookup_insert_eq. simpl.
    rewrite insert_insert_eq, delete_insert_ne, delete_insert_id by done.
    rewrite insert_id by (by rewrite Hea; destruct e_it; simpl in *; subst).
    destruct t; simpl in *. unfold with_heap, with_begin. simpl. congruence.
  - rewrite last_ptr_snoc in Hpe.
    apply dll_app in Hdl as [_ (lit & Hla & _ & Hnl & _)]. simpl in Hnl.
    assert (la ≠ ea) as Hlea.
    { intros ->. apply NoDup_app in Hnd as (_ & Hd & _).
      apply (Hd ea); [|apply list_elem_of_here].
      apply elem_of_app. right. apply list_elem_of_here. }
    assert (la ≠ a) as Hlaa by (intros ->; congruence).
    assert (Some a ≠ _begin t) as Hba.
    { rewrite Hb. intros Heq. apply Hfresh. rewrite Hdom.
      apply elem_of_list_to_set, elem_of_app. left.
      destruct l' as [|x l']; simpl in Heq; injection Heq as ->;
        [apply list_elem_of_here|apply list_elem_of_here]. }
    rewrite Hpe. simpl.
    rewrite !lookup_insert_ne by done. rewrite Hla. simpl.
    rewrite !lookup_insert_ne by done. rewrite lookup_insert_eq. simpl.
    eexists a, _. split; [done|]. split; [done|].
    unfold iterator_deref, iterator_incr, end_. simpl.
    rewrite !lookup_insert_ne by done. rewrite lookup_insert_eq. simpl.
    split; [done|]. split; [by rewrite He|].
    rewrite bool_decide_eq_false_2 by done. simpl.
    unfold delete_Item, disconnect. simpl.
    rewrite !lookup_insert_ne by done. rewrite lookup_insert_eq. simpl.
    rewrite lookup_insert_ne by done. rewrite lookup_insert_eq. simpl.
    rewrite lookup_insert_ne by done. rewrite lookup_insert_eq. simpl.
    f_equal. destruct t; simpl in *. unfold with_heap. simpl. f_equal.
    apply map_eq. intros x.
    destruct (decide (x = a)) as [->|Hxa]; [by rewrite lookup_delete_eq|].
    rewrite lookup_delete_ne by done.
    destruct (decide (x = la)) as [->|Hxl].
    { rewrite lookup_insert_eq, Hla. destruct lit; simpl in *; by subst. }
    rewrite lookup_insert_ne by done.
    destruct (decide (x = ea)) as [->|Hxe].
    { rewrite lookup_insert_eq, Hea. destruct e_it; simpl in *; by subst. }
    by rewrite !lookup_insert_ne by done.
Qed.

(** ** The capacity of a table that was only filled *)

Lemma insert_snug t es kv t' :
  Inv t es → insert kv t = Some t' → snug t → snug t'.
Proof.
  intros Hinv Hi Hs.
  destruct (insert_spec t es kv Hinv) as (t'' & es' & Hi' & Hinv' & _ & _ & Hcase).
  rewrite Hi in Hi'. injection Hi' as <-.
  destruct Hcase as [(_ & -> & _)|(_ & a & _ & -> & Hc)]; [done|].
  destruct Hinv as (_ & Hsz & _). destruct Hinv' as (_ & Hsz' & _).
  rewrite length_app in Hsz'. simpl in Hsz'.
  right. case_bool_decide as Hd.
  - exists (capacity_ t). split; [done|]. lia.
  - destruct Hs as [[Hs0 Hc1]|(c & Hc2 & Hl)]; [lia|].
    exists c. split; [congruence|]. lia.
Qed.

Lemma insert_each_snug l : ∀ t es t',
  Inv t es → insert_each l t = Some t' → snug t → snug t'.
Proof.
  induction l as [|kv l IH]; intros t es t' Hinv; simpl.
  - by intros [= <-].
  - destruct (insert_spec t es kv Hinv) as (t1 & es' & Hi1 & Hinv' & _).
    rewrite Hi1. simpl. intros Hie Hs. apply (IH t1 es' t' Hinv' Hie).
    by apply (insert_snug t es kv t1).
Qed.

Lemma snug_tight t : reachable t → snug t → tight t.
Proof.
  intros Hreach Hs.
  pose proof (reachable_doubling t Hreach) as Hd.
  destruct (reachable_Inv t Hreach) as (es & _ & _ & Hl).
  split_and!; [done..|].
  intros c' [m ->] Hl'.
  destruct Hs as [[_ ->]|(c & Hc & Hlc)].
  { pose proof (Nat.pow_nonzero 2 m). lia. }
  destruct Hd as [k Hk]. rewrite Hk.
  destruct k as [|k]; [simpl in Hk; lia|].
  rewrite Nat.pow_succ_r' in Hk.
  assert (2 ^ k < 2 ^ m) as Hlt by lia.
  apply Nat.pow_lt_mono_r_iff in Hlt; [|lia].
  apply Nat.pow_le_mono_r; lia.
Qed.

Lemma Inv_nil_snug t : Inv t [] → capacity_ t = 1 → snug t.
Proof. intros (_ & Hsz & _) Hc. by left. Qed.

(** X20.  A table that has been filled and not touched since, by a
    constructor from a sequence, by the copy constructor or by an
    assignment, has the least capacity the growth policy allows for its
    size.  So a copy never has more slots than its source, and has
    fewer when pairs were erased from the source. *)
Theorem built_tables_are_tight :
  (∀ l hasher, ∃ t, HashMap_of_list l hasher = Some t ∧ tight t) ∧
  (∀ other hasher, reachable other →
     ∃ t, HashMap_copy other hasher = Some t ∧ tight t ∧
          capacity_ t ≤ capacity_ other) ∧
  (∀ (objs : gmap nat HashMap) this other t o,
     (∀ i x, objs !! i = Some x → reachable x) →
     other ≠ this → objs !! this = Some t → objs !! other = Some o →
     ∃ t', operator_assign this other objs = Some (<[this := t']> objs) ∧
           tight t' ∧ capacity_ t' ≤ capacity_ o).
Proof.
  split_and!.
  - intros l hasher.
    destruct (HashMap_of_list_spec l hasher) as (t & Ht & _).
    exists t. split; [done|].
    apply snug_tight; [by eapply reach_of_list|].
    unfold HashMap_of_list in Ht.
    destruct (init_spec (hasher_arg hasher)) as (t0 & Hi & Hinv0 & _ & Hc0).
    rewrite Hi in Ht. simpl in Ht.
    apply (insert_each_snug l t0 [] t Hinv0 Ht). by apply Inv_nil_snug.
  - intros other hasher Hreach.
    destruct (reachable_Inv other Hreach) as [eso Hinvo].
    destruct (HashMap_copy_spec other eso hasher Hinvo) as (t & Ht & Hr & _).
    rewrite (insert_each_abs_NoDup (eso.*2) []) in Hr by (by eapply Inv_NoDup).
    simpl in Hr.
    assert (tight t) as Htight.
    { apply snug_tight; [by eapply reach_copy|].
      unfold HashMap_copy in Ht.
      destruct (init_spec (hasher_arg hasher)) as (t0 & Hi & Hinv0 & _ & Hc0).
      rewrite Hi in Ht. simpl in Ht.
      rewrite (insert_from_begin other eso t0) in Ht by apply Hinvo.
      apply (insert_each_snug _ t0 [] t Hinv0 Ht). by apply Inv_nil_snug. }
    exists t. split_and!; [done..|].
    destruct Htight as (_ & _ & Hmin). apply Hmin; [by apply reachable_doubling|].
    pose proof (represents_size t _ Hr) as Hs. unfold size in Hs. rewrite Hs.
    destruct Hinvo as (_ & Hso & Hlo). rewrite length_fmap, <- Hso. done.
  - intros objs this other t o Hall Hne Ht Ho.
    destruct (reachable_Inv t (Hall _ _ Ht)) as [est Hinvt].
    destruct (reachable_Inv o (Hall _ _ Ho)) as [eso Hinvo].
    destruct (operator_assign_spec objs this other t o est eso Hne Ht Ho Hinvt Hinvo)
      as (t0 & t' & Hd & Hie & Has & Hr & _).
    assert (tight t') as Htight.
    { apply snug_tight.
      - eapply (reach_assign objs this other); [done..|]. by rewrite lookup_insert_eq.
      - destruct (delete_all_spec t est Hinvt) as (t0' & Hd' & Hinv0 & Hc0 & _).
        rewrite Hd in Hd'. injection Hd' as <-.
        apply (insert_each_snug _ t0 [] t' Hinv0 Hie). by apply Inv_nil_snug. }
    exists t'. split_and!; [done..|].
    destruct Htight as (_ & _ & Hmin).
    apply Hmin; [by apply reachable_doubling, (Hall _ _ Ho)|].
    pose proof (represents_size t' _ Hr) as Hs. unfold size in Hs. rewrite Hs.
    destruct Hinvo as (_ & Hso & Hlo). rewrite length_fmap, <- Hso. done.
Qed.

End HashMap.

(** * The theorems at work on tables of numbers

    Keys and values are natural numbers; a hasher is a seed that is
    added to the key; the default-constructed key, value and seed are 0. *)

Section Witnesses.

Local Abbreviation hc := (λ seed k : nat, seed + k).
Local Abbreviation of_list := (HashMap_of_list hc 0 0 0).
Local Abbreviation reach := (reachable hc 0 0 0).

(** Three insertions, two of them with the key 1. *)
Lemma insert_first_wins_witness :
  ∃ t0 t, HashMap_new 0 0 0 None = Some t0 ∧
    insert_each hc [(1, 10); (2, 20); (1, 11)] t0 = Some t ∧
    size t = 2 ∧ at_ hc 1 t = Some (inr 10) ∧ at_ hc 3 t = Some (inl out_of_range) ∧
    insert hc (1, 99) t = Some t.
Proof.
  destruct (insert_first_wins hc 0 0 0 None [(1, 10); (2, 20); (1, 11)])
    as (t0 & t & H0 & H1 & Hsz & Hat & Hnoop & _).
  exists t0, t. split; [exact H0|]. split; [exact H1|]. split.
  { rewrite Hsz. vm_compute. reflexivity. }
  split; [rewrite (Hat 1); reflexivity|]. split; [rewrite (Hat 3); reflexivity|].
  apply Hnoop. apply list_elem_of_here.
Defined.


(** The scenario of the specification: three insertions, then [erase]
    of the second key and [insert] of this key again; and a [resize]
    to 16 slots. *)
Lemma iteration_in_insertion_order_witness :
  ∃ t, of_list [(1, 10); (2, 20); (3, 30)] None = Some t ∧ reach t ∧
    iterate t = Some [(1, 10); (2, 20); (3, 30)] ∧
    (∃ t1 t2, erase hc 2 t = Some t1 ∧ insert hc (2, 26) t1 = Some t2 ∧
       iterate t2 = Some [(1, 10); (3, 30); (2, 26)]) ∧
    (∃ t', resize hc 16 t = Some t' ∧
       iterate t' = Some [(1, 10); (2, 20); (3, 30)] ∧
       pos_updated (heap t) (heap t') ∧ size_ t' = size_ t).
Proof.
  destruct (of_list [(1, 10); (2, 20); (3, 30)] None) as [t|] eqn:E;
    [|by vm_compute in E].
  assert (reach t) as Hr by (eapply reach_of_list; exact E).
  assert (iterate t = Some [(1, 10); (2, 20); (3, 30)]) as Hi.
  { vm_compute in E. injection E as <-. by vm_compute. }
  destruct (iteration_in_insertion_order hc 0 0 0) as (_ & H2 & H3).
  exists t. split; [reflexivity|]. split; [exact Hr|]. split; [exact Hi|]. split.
  - destruct (H2 t _ 2 26 Hr Hi) as (t1 & t2 & He & Hin & Hit).
    exists t1, t2. split; [exact He|]. split; [exact Hin|]. exact Hit.
  - destruct (H3 t _ 16 Hr Hi) as (t' & Hrs & Hit & Hpu & _ & _ & _ & Hsz).
    { simpl. lia. }
    exists t'. split; [exact Hrs|]. split; [exact Hit|]. split; [exact Hpu|exact Hsz].
Defined.

(** [insert] and [erase] of a key the table does not hold, and of a key
    it holds. *)
Lemma erase_after_insert_witness :
  ∃ t, of_list [(1, 10); (2, 20)] None = Some t ∧ reach t ∧
    (∃ t1 t2, insert hc (3, 30) t = Some t1 ∧ erase hc 3 t1 = Some t2 ∧
       find hc 3 t2 = Some (end_ t2) ∧ size t2 = 2) ∧
    (∃ t1 t2, insert hc (1, 11) t = Some t1 ∧ erase hc 1 t1 = Some t2 ∧
       find hc 1 t2 = Some (end_ t2) ∧ size t2 = 1).
Proof.
  destruct (of_list [(1, 10); (2, 20)] None) as [t|] eqn:E; [|by vm_compute in E].
  assert (reach t) as Hr by (eapply reach_of_list; exact E).
  exists t. split; [reflexivity|]. split; [exact Hr|]. split.
  - destruct (erase_after_insert hc 0 0 0 t 3 30 Hr) as (t1 & t2 & Hi & He & Hf & Hsz).
    exists t1, t2. split; [exact Hi|]. split; [exact He|]. split; [exact Hf|].
    rewrite Hsz. vm_compute in E. injection E as <-. vm_compute. reflexivity.
  - destruct (erase_after_insert hc 0 0 0 t 1 11 Hr) as (t1 & t2 & Hi & He & Hf & Hsz).
    exists t1, t2. split; [exact Hi|]. split; [exact He|]. split; [exact Hf|].
    rewrite Hsz. vm_compute in E. injection E as <-. vm_compute. reflexivity.
Defined.

(** C3 as the specification states it fails on a table that holds the
    key: the [insert] changes nothing and the [erase] takes the key out,
    so the size is one less than before the [insert]. *)
Lemma erase_after_insert_size_counterexample :
  ¬ (∀ t key v t1 t2,
       reach t → insert hc (key, v) t = Some t1 → erase hc key t1 = Some t2 →
       find hc key t2 = Some (end_ t2) ∧ size t2 = size t).
Proof.
  intros H.
  destruct (of_list [(1, 10)] None) as [t|] eqn:E; [|by vm_compute in E].
  assert (reach t) as Hr by (eapply reach_of_list; exact E).
  destruct (insert hc (1, 11) t) as [t1|] eqn:E1;
    [|vm_compute in E; injection E as <-; vm_compute in E1; discriminate].
  destruct (erase hc 1 t1) as [t2|] eqn:E2;
    [|vm_compute in E; injection E as <-; vm_compute in E1; injection E1 as <-;
      vm_compute in E2; discriminate].
  destruct (H t 1 11 t1 t2 Hr E1 E2) as [_ Hsz].
  vm_compute in E. injection E as <-.
  vm_compute in E1. injection E1 as <-.
  vm_compute in E2. injection E2 as <-.
  vm_compute in Hsz. discriminate.
Qed.

(** A table of two pairs in four slots; the third pair takes the size
    to three quarters of the capacity, which doubles. *)
Lemma growth_policy_witness :
  ∃ t, of_list [(1, 10); (2, 20)] None = Some t ∧ reach t ∧
    capacity_ t = 4 ∧ doubling_of_one (capacity_ t) ∧
    size t * 4 < capacity_ t * 3 ∧
    ∃ t', insert hc (3, 30) t = Some t' ∧ capacity_ t' = 8 ∧
          size t' * 4 < capacity_ t' * 3.
Proof.
  destruct (of_list [(1, 10); (2, 20)] None) as [t|] eqn:E; [|by vm_compute in E].
  assert (reach t) as Hr by (eapply reach_of_list; exact E).
  destruct (growth_policy hc 0 0 0) as (_ & _ & H3).
  destruct (H3 t Hr) as (Hd & Hl & _ & Hins & _).
  exists t. split; [reflexivity|]. split; [exact Hr|]. split.
  { vm_compute in E. injection E as <-. reflexivity. }
  split; [exact Hd|]. split; [exact Hl|].
  destruct (insert hc (3, 30) t) as [t'|] eqn:E';
    [|vm_compute in E; injection E as <-; vm_compute in E'; discriminate].
  destruct (Hins _ _ E') as [Hl' Hc'].
  exists t'. split; [reflexivity|]. split; [|exact Hl'].
  rewrite Hc'. vm_compute in E. injection E as <-. vm_compute. reflexivity.
Defined.

(** Three keys with the home slot 7 in eight slots: the probe wraps
    around the end of the array.  [erase] of the first key shifts the
    two others back. *)
Lemma probe_contiguity_witness :
  ∃ t, of_list [(7, 1); (15, 2); (23, 3)] None = Some t ∧ reach t ∧
    key_view (heap t) (storage t)
      = [Some 15; Some 23; None; None; None; None; None; Some 7] ∧
    contiguous hc t ∧
    ∃ t', erase hc 7 t = Some t' ∧
      key_view (heap t') (storage t')
        = [Some 23; None; None; None; None; None; None; Some 15] ∧
      contiguous hc t'.
Proof.
  destruct (of_list [(7, 1); (15, 2); (23, 3)] None) as [t|] eqn:E;
    [|by vm_compute in E].
  assert (reach t) as Hr by (eapply reach_of_list; exact E).
  destruct (probe_contiguity hc 0 0 0 t Hr) as (Hc & _ & He & _).
  exists t. split; [reflexivity|]. split; [exact Hr|]. split.
  { vm_compute in E. injection E as <-. vm_compute. reflexivity. }
  split; [exact Hc|].
  destruct (erase hc 7 t) as [t'|] eqn:E';
    [|vm_compute in E; injection E as <-; vm_compute in E'; discriminate].
  exists t'. split; [reflexivity|]. split; [|exact (He 7 t' E')].
  vm_compute in E. injection E as <-.
  vm_compute in E'. injection E' as <-. vm_compute. reflexivity.
Defined.

(** In the same table [find_next] for the slot 7 stops at the slot 0:
    the home slot 7 of its key is not in the cyclic range from 0 to 0.
    The cyclic range from 6 to 1 wraps around and contains 0. *)
Lemma find_next_first_displaceable_witness :
  ∃ t, of_list [(7, 1); (15, 2); (23, 3)] None = Some t ∧
    0 < capacity_ t ∧ length (storage t) = capacity_ t ∧ 7 < capacity_ t ∧
    live (heap t) (storage t) ∧
    find_next hc t 7 = Some 0 ∧ stops_at hc t 7 0 ∧
    is_in_range 7 0 0 = false ∧
    in_cyclic_range (capacity_ t) 0 6 1.
Proof.
  destruct (of_list [(7, 1); (15, 2); (23, 3)] None) as [t|] eqn:E;
    [|by vm_compute in E].
  assert (capacity_ t = 8) as Hcap.
  { vm_compute in E. injection E as <-. reflexivity. }
  assert (length (storage t) = capacity_ t) as Hlen.
  { vm_compute in E. injection E as <-. reflexivity. }
  assert (live (heap t) (storage t)) as Hlive.
  { vm_compute in E. injection E as <-. intros i a.
    do 8 (destruct i as [|i]; [vm_compute; intros [= <-] || intros [=]; eexists; reflexivity|]).
    intros [=]. }
  assert (find_next hc t 7 = Some 0) as Hfn.
  { vm_compute in E. injection E as <-. vm_compute. reflexivity. }
  assert (0 < capacity_ t) as H0 by (rewrite Hcap; lia).
  assert (7 < capacity_ t) as H7 by (rewrite Hcap; lia).
  destruct (find_next_first_displaceable hc t 7 H0 Hlen H7 Hlive) as (Hrange & Hfirst & _).
  destruct (Hfirst 0 Hfn) as (d & _ & _ & Hstop & _).
  exists t. split; [reflexivity|]. split; [exact H0|]. split; [exact Hlen|].
  split; [exact H7|]. split; [exact Hlive|]. split; [exact Hfn|]. split; [exact Hstop|].
  split; [reflexivity|].
  apply Hrange; [rewrite Hcap; lia..|]. reflexivity.
Defined.

(** [at] and [operator[]] for the key 5, which the table does not
    hold, and for the key 1, which it holds. *)
Lemma at_throws_index_inserts_witness :
  ∃ t, of_list [(1, 10); (2, 20)] None = Some t ∧ reach t ∧
    at_ hc 5 t = Some (inl out_of_range) ∧ at_ hc 1 t = Some (inr 10) ∧
    (∃ a t', operator_index hc 0 5 t = Some (a, t') ∧
       size t' = 3 ∧ read_ref a t' = Some 0 ∧ at_ hc 5 t' = Some (inr 0) ∧
       iterate t' = Some [(1, 10); (2, 20); (5, 0)]) ∧
    (∃ a, operator_index hc 0 1 t = Some (a, t) ∧ read_ref a t = Some 10).
Proof.
  destruct (of_list [(1, 10); (2, 20)] None) as [t|] eqn:E; [|by vm_compute in E].
  assert (reach t) as Hr by (eapply reach_of_list; exact E).
  assert (iterate t = Some [(1, 10); (2, 20)]) as Hi.
  { vm_compute in E. injection E as <-. vm_compute. reflexivity. }
  assert (size t = 2) as Hsz.
  { vm_compute in E. injection E as <-. reflexivity. }
  exists t. split; [reflexivity|]. split; [exact Hr|].
  destruct (at_throws_index_inserts hc 0 0 0 t 5 Hr)
    as (l5 & Hl5 & Hat5 & _ & a5 & t5 & Hx5 & _ & Hnew5 & _).
  destruct (at_throws_index_inserts hc 0 0 0 t 1 Hr)
    as (l1 & Hl1 & _ & Hat1 & a1 & t1 & Hx1 & _ & _ & Hold1).
  rewrite Hi in Hl5, Hl1. injection Hl5 as <-. injection Hl1 as <-.
  assert (5 ∉ [(1, 10); (2, 20)].*1) as Hno.
  { simpl. intros Hin. by repeat (apply elem_of_cons in Hin as [?|Hin]; [done|]);
      apply elem_of_nil in Hin. }
  split; [exact (proj2 Hat5 Hno)|]. split; [apply Hat1; apply list_elem_of_here|]. split.
  - destruct (Hnew5 Hno) as (Hs & Hit & Hrd & Hat).
    exists a5, t5. split; [exact Hx5|]. split; [rewrite Hs, Hsz; reflexivity|].
    split; [exact Hrd|]. split; [exact Hat|exact Hit].
  - destruct (Hold1 10) as [-> Hrd]; [apply list_elem_of_here|].
    exists a1. split; [exact Hx1|exact Hrd].
Defined.

(** A table of two pairs in four slots: [find_pos] ends for the key 9,
    which it does not hold, with any bound from 4 on. *)
Lemma never_full_witness :
  ∃ t, of_list [(1, 10); (2, 20)] None = Some t ∧ reach t ∧
    size t < capacity_ t ∧ (∃ j, storage t !! j = Some None) ∧
    ∃ j, find_pos hc t 9 = Some j ∧ find_pos_loop t 9 100 1 = Some j.
Proof.
  destruct (of_list [(1, 10); (2, 20)] None) as [t|] eqn:E; [|by vm_compute in E].
  assert (reach t) as Hr by (eapply reach_of_list; exact E).
  destruct (never_full hc 0 0 0 t Hr) as (Hlt & Hempty & Hfind).
  destruct (Hfind 9) as (h & j & Hh & Hfp & Hfuel).
  assert (capacity_ t = 4) as Hcap.
  { vm_compute in E. injection E as <-. reflexivity. }
  assert (h = 1) as ->.
  { unfold get_hash in Hh. rewrite Hcap in Hh. vm_compute in E. injection E as <-.
    vm_compute in Hh. by injection Hh as <-. }
  exists t. split; [reflexivity|]. split; [exact Hr|]. split; [exact Hlt|].
  split; [exact Hempty|]. exists j. split; [exact Hfp|].
  apply Hfuel. rewrite Hcap. lia.
Defined.

(** Two tables in a store: the table at 0 is assigned to itself, and
    the table at 1 is assigned to it. *)
Lemma copy_assignment_witness :
  ∃ t o, of_list [(1, 10); (2, 20); (3, 30)] None = Some t ∧
    of_list [(9, 90); (1, 11)] (Some 5) = Some o ∧
    (∀ i x, ({[0 := t; 1 := o]} : gmap nat HashMap) !! i = Some x → reach x) ∧
    operator_assign hc 0 0 {[0 := t; 1 := o]} = Some {[0 := t; 1 := o]} ∧
    ∃ t', operator_assign hc 0 1 {[0 := t; 1 := o]} = Some {[0 := t'; 1 := o]} ∧
      iterate t' = Some [(9, 90); (1, 11)] ∧ size t' = 2.
Proof.
  destruct (of_list [(1, 10); (2, 20); (3, 30)] None) as [t|] eqn:Et;
    [|by vm_compute in Et].
  destruct (of_list [(9, 90); (1, 11)] (Some 5)) as [o|] eqn:Eo;
    [|by vm_compute in Eo].
  assert (reach t) as Hrt by (eapply reach_of_list; exact Et).
  assert (reach o) as Hro by (eapply reach_of_list; exact Eo).
  assert (iterate o = Some [(9, 90); (1, 11)]) as Hio.
  { vm_compute in Eo. injection Eo as <-. vm_compute. reflexivity. }
  assert (size o = 2) as Hso.
  { vm_compute in Eo. injection Eo as <-. reflexivity. }
  set (objs := ({[0 := t; 1 := o]} : gmap nat HashMap)).
  assert (∀ i x, objs !! i = Some x → reach x) as Hobjs.
  { intros i x Hl. unfold objs in Hl.
    apply lookup_insert_Some in Hl as [[_ <-]|[_ Hl]]; [exact Hrt|].
    apply lookup_singleton_Some in Hl as [_ <-]. exact Hro. }
  assert (objs !! 0 = Some t) as H0 by (unfold objs; apply lookup_insert_eq).
  assert (objs !! 1 = Some o) as H1.
  { unfold objs. rewrite lookup_insert_ne by done. apply lookup_singleton_eq. }
  destruct (copy_assignment hc 0 0 0 objs 0 t Hobjs H0) as [Hself Hother].
  destruct (Hother 1 o) as (lo & t0 & t' & tc & tc' & Hlo & _ & _ & Ha & Hit & Hsz & _);
    [done|exact H1|].
  exists t, o. split; [reflexivity|]. split; [reflexivity|].
  split; [exact Hobjs|]. split; [exact Hself|].
  exists t'. split.
  - fold objs. rewrite Ha. unfold objs. by rewrite insert_insert_eq.
  - split; [rewrite Hit; congruence|]. by rewrite Hsz.
Defined.

(** A table built with the seed 5 and its copy, which has the seed 0. *)
Lemma copy_constructor_default_hasher_witness :
  ∃ other, of_list [(1, 10); (2, 20)] (Some 5) = Some other ∧ reach other ∧
    hash_function other = 5 ∧
    ∃ t, HashMap_copy hc 0 0 0 other None = Some t ∧
      hash_function t = 0 ∧ hash_function t ≠ hash_function other ∧
      iterate t = Some [(1, 10); (2, 20)].
Proof.
  destruct (of_list [(1, 10); (2, 20)] (Some 5)) as [other|] eqn:E;
    [|by vm_compute in E].
  assert (reach other) as Hr by (eapply reach_of_list; exact E).
  assert (hash_function other = 5) as Hh.
  { vm_compute in E. injection E as <-. reflexivity. }
  assert (iterate other = Some [(1, 10); (2, 20)]) as Hi.
  { vm_compute in E. injection E as <-. vm_compute. reflexivity. }
  destruct (copy_constructor_default_hasher hc 0 0 0 other Hr)
    as (t & Hc & Hd & Hne & Hit).
  exists other. split; [reflexivity|]. split; [exact Hr|]. split; [exact Hh|].
  exists t. split; [exact Hc|]. split; [exact Hd|]. split.
  - apply Hne. rewrite Hh. discriminate.
  - rewrite Hit. exact Hi.
Defined.

(** ** The further properties *)

(** A table of three pairs and what [delete_all], the destructor and
    [clear] leave of it. *)
Lemma delete_all_resets_witness :
  ∃ t, of_list [(1, 10); (2, 20); (3, 30)] None = Some t ∧ reach t ∧
    ∃ t' ea e, delete_all t = Some t' ∧ end_ t = Some ea ∧
      t' = mkHashMap 0 1 (hash_function t) (Some ea) (Some ea) [None] {[ea := e]} ∧
      prev e = None ∧ next e = None.
Proof.
  destruct (of_list [(1, 10); (2, 20); (3, 30)] None) as [t|] eqn:E;
    [|by vm_compute in E].
  assert (reach t) as Hr by (eapply reach_of_list; exact E).
  exists t. split; [reflexivity|]. split; [exact Hr|].
  exact (delete_all_resets hc 0 0 0 t Hr).
Defined.

Lemma destructor_frees_all_witness :
  ∃ t, of_list [(1, 10); (2, 20); (3, 30)] None = Some t ∧ reach t ∧
    destructor t = Some ∅.
Proof.
  destruct (of_list [(1, 10); (2, 20); (3, 30)] None) as [t|] eqn:E;
    [|by vm_compute in E].
  assert (reach t) as Hr by (eapply reach_of_list; exact E).
  exists t. split; [reflexivity|]. split; [exact Hr|].
  exact (destructor_frees_all hc 0 0 0 t Hr).
Defined.

Lemma clear_empties_witness :
  ∃ t, of_list [(1, 10); (2, 20); (3, 30)] None = Some t ∧ reach t ∧
    ∃ t', clear t = Some t' ∧ size t' = 0 ∧ iterate t' = Some [] ∧
      find hc 2 t' = Some (end_ t') ∧ capacity_ t' = capacity_ t ∧
      base.size (heap t') = 1.
Proof.
  destruct (of_list [(1, 10); (2, 20); (3, 30)] None) as [t|] eqn:E;
    [|by vm_compute in E].
  assert (reach t) as Hr by (eapply reach_of_list; exact E).
  destruct (clear_empties hc 0 0 0 t Hr)
    as (t' & Hc & Hs & _ & _ & Hi & Hf & Hcap & _ & _ & _ & Hh).
  exists t. split; [reflexivity|]. split; [exact Hr|].
  exists t'. split; [exact Hc|]. split; [exact Hs|]. split; [exact Hi|].
  split; [exact (proj1 (Hf 2))|]. split; [exact Hcap|exact Hh].
Defined.

(** A table that is not empty. *)
Lemma empty_iff_begin_is_end_witness :
  ∃ t, of_list [(1, 10); (2, 20)] None = Some t ∧ reach t ∧
    empty t = false ∧ iterator_eq (begin t) (end_ t) = false ∧
    iterator_ne (begin t) (end_ t) = true.
Proof.
  destruct (of_list [(1, 10); (2, 20)] None) as [t|] eqn:E; [|by vm_compute in E].
  assert (reach t) as Hr by (eapply reach_of_list; exact E).
  assert (empty t = false) as He.
  { vm_compute in E. injection E as <-. reflexivity. }
  destruct (empty_iff_begin_is_end hc 0 0 0 t Hr) as (H1 & H2 & _).
  exists t. split; [reflexivity|]. split; [exact Hr|]. split; [exact He|].
  split; [rewrite <- H1; exact He|]. rewrite H2, He. reflexivity.
Defined.

Lemma heap_is_chain_and_sentinel_witness :
  ∃ t, of_list [(1, 10); (2, 20); (3, 30)] None = Some t ∧ reach t ∧
    base.size (heap t) = 4 ∧
    (∃ e, load (heap t) (end_ t) = Some e ∧ next e = None) ∧
    (∃ b, load (heap t) (begin t) = Some b ∧ prev b = None).
Proof.
  destruct (of_list [(1, 10); (2, 20); (3, 30)] None) as [t|] eqn:E;
    [|by vm_compute in E].
  assert (reach t) as Hr by (eapply reach_of_list; exact E).
  assert (size t = 3) as Hs.
  { vm_compute in E. injection E as <-. reflexivity. }
  destruct (heap_is_chain_and_sentinel hc 0 0 0 t Hr) as (H1 & H2 & H3).
  exists t. split; [reflexivity|]. split; [exact Hr|].
  split; [rewrite H1, Hs; reflexivity|]. split; [exact H2|exact H3].
Defined.

(** The third pair makes the table rehash; the first key is found at
    the item it was at. *)
Lemma insert_keeps_iterators_witness :
  ∃ t a, of_list [(1, 10); (2, 20)] None = Some t ∧ reach t ∧
    find hc 1 t = Some (Some a) ∧ Some a ≠ end_ t ∧
    ∃ t', insert hc (3, 30) t = Some t' ∧
      find hc 1 t' = Some (Some a) ∧
      iterator_deref t' (Some a) = iterator_deref t (Some a) ∧
      at_ hc 2 t' = at_ hc 2 t.
Proof.
  destruct (of_list [(1, 10); (2, 20)] None) as [t|] eqn:E; [|by vm_compute in E].
  assert (reach t) as Hr by (eapply reach_of_list; exact E).
  destruct (find hc 1 t) as [[a|]|] eqn:F;
    [|vm_compute in E; injection E as <-; vm_compute in F; discriminate..].
  assert (Some a ≠ end_ t) as Hne.
  { vm_compute in E. injection E as <-. vm_compute in F. injection F as <-.
    vm_compute. discriminate. }
  destruct (insert_keeps_iterators hc 0 0 0 t (3, 30) Hr) as (t' & Hi & Hk & Ho & _).
  destruct (Hk 1 a F Hne) as [Hf Hd].
  exists t, a. split; [reflexivity|]. split; [exact Hr|]. split; [exact F|].
  split; [exact Hne|].
  exists t'. split; [exact Hi|]. split; [exact Hf|]. split; [exact Hd|].
  apply (Ho 2). simpl. discriminate.
Defined.

(** [erase] of the second of three keys. *)
Lemma erase_keeps_other_iterators_witness :
  ∃ t a, of_list [(1, 10); (2, 20); (3, 30)] None = Some t ∧ reach t ∧
    find hc 3 t = Some (Some a) ∧ Some a ≠ end_ t ∧
    ∃ t', erase hc 2 t = Some t' ∧
      find hc 2 t' = Some (end_ t') ∧
      find hc 3 t' = Some (Some a) ∧
      iterator_deref t' (Some a) = iterator_deref t (Some a).
Proof.
  destruct (of_list [(1, 10); (2, 20); (3, 30)] None) as [t|] eqn:E;
    [|by vm_compute in E].
  assert (reach t) as Hr by (eapply reach_of_list; exact E).
  destruct (find hc 3 t) as [[a|]|] eqn:F;
    [|vm_compute in E; injection E as <-; vm_compute in F; discriminate..].
  assert (Some a ≠ end_ t) as Hne.
  { vm_compute in E. injection E as <-. vm_compute in F. injection F as <-.
    vm_compute. discriminate. }
  destruct (erase_keeps_other_iterators hc 0 0 0 t 2 Hr)
    as (t' & He & Hf & _ & _ & _ & Ho & Hd).
  assert (3 ≠ 2) as H32 by discriminate.
  exists t, a. split; [reflexivity|]. split; [exact Hr|]. split; [exact F|].
  split; [exact Hne|].
  exists t'. split; [exact He|]. split; [exact Hf|].
  split; [rewrite (proj2 (Ho 3 H32)); exact F|].
  exact (Hd 3 a H32 F Hne).
Defined.

(** Writing 15 through the iterator [find] returns for the key 1. *)
Lemma write_through_iterator_witness :
  ∃ t a, of_list [(1, 10); (2, 20)] None = Some t ∧ reach t ∧
    find hc 1 t = Some (Some a) ∧ Some a ≠ end_ t ∧
    ∃ t', write_ref a 15 t = Some t' ∧
      at_ hc 1 t' = Some (inr 15) ∧ at_ hc 2 t' = at_ hc 2 t ∧
      size t' = size t.
Proof.
  destruct (of_list [(1, 10); (2, 20)] None) as [t|] eqn:E; [|by vm_compute in E].
  assert (reach t) as Hr by (eapply reach_of_list; exact E).
  destruct (find hc 1 t) as [[a|]|] eqn:F;
    [|vm_compute in E; injection E as <-; vm_compute in F; discriminate..].
  assert (Some a ≠ end_ t) as Hne.
  { vm_compute in E. injection E as <-. vm_compute in F. injection F as <-.
    vm_compute. discriminate. }
  destruct (write_through_iterator hc 0 0 0 t 1 a 15 Hr F Hne)
    as (t' & Hw & _ & Hat & _ & Ho & Hs & _).
  assert (2 ≠ 1) as H21 by discriminate.
  exists t, a. split; [reflexivity|]. split; [exact Hr|]. split; [exact F|].
  split; [exact Hne|].
  exists t'. split; [exact Hw|]. split; [exact Hat|].
  split; [exact (Ho 2 H21)|exact Hs].
Defined.

(** [m[5] = 50] on a table that does not hold the key 5. *)
Lemma index_assign_overwrites_witness :
  ∃ t, of_list [(1, 10); (2, 20)] None = Some t ∧ reach t ∧
    ∃ a t1 t2, operator_index hc 0 5 t = Some (a, t1) ∧
      write_ref a 50 t1 = Some t2 ∧
      at_ hc 5 t2 = Some (inr 50) ∧ at_ hc 1 t2 = at_ hc 1 t ∧ size t2 = 3.
Proof.
  destruct (of_list [(1, 10); (2, 20)] None) as [t|] eqn:E; [|by vm_compute in E].
  assert (reach t) as Hr by (eapply reach_of_list; exact E).
  assert (find hc 5 t = Some (end_ t)) as Hf.
  { vm_compute in E. injection E as <-. vm_compute. reflexivity. }
  assert (size t = 2) as Hs.
  { vm_compute in E. injection E as <-. reflexivity. }
  destruct (index_assign_overwrites hc 0 0 0 t 5 50 Hr)
    as (a & t1 & t2 & Hi & Hw & Hat & Ho & Hsz).
  assert (1 ≠ 5) as H15 by discriminate.
  exists t. split; [reflexivity|]. split; [exact Hr|].
  exists a, t1, t2. split; [exact Hi|]. split; [exact Hw|]. split; [exact Hat|].
  split; [exact (Ho 1 H15)|].
  rewrite Hsz, bool_decide_eq_true_2 by exact Hf. rewrite Hs. reflexivity.
Defined.

(** A sequence of three pairs with distinct keys, and the table built
    with the seed 5 from what the table of these pairs iterates to. *)
Lemma of_list_round_trip_witness :
  NoDup ([(1, 10); (2, 20); (3, 30)].*1) ∧
  ∃ t, of_list [(1, 10); (2, 20); (3, 30)] None = Some t ∧ reach t ∧
    iterate t = Some [(1, 10); (2, 20); (3, 30)] ∧ size t = 3 ∧
    at_ hc 2 t = Some (inr 20) ∧
    ∃ t', of_list [(1, 10); (2, 20); (3, 30)] (Some 5) = Some t' ∧
      iterate t' = Some [(1, 10); (2, 20); (3, 30)] ∧
      at_ hc 2 t' = at_ hc 2 t.
Proof.
  assert (NoDup ([(1, 10); (2, 20); (3, 30)].*1)) as Hnd.
  { apply (bool_decide_unpack _). vm_compute. exact I. }
  destruct (of_list_round_trip hc 0 0 0) as [H1 H2].
  destruct (H1 [(1, 10); (2, 20); (3, 30)] None Hnd) as (t & Ht & Hi & Hs & _ & Hat).
  assert (reach t) as Hr by (eapply reach_of_list; exact Ht).
  destruct (H2 t _ (Some 5) Hr Hi) as (t' & Ht' & Hi' & _ & Hat').
  split; [exact Hnd|].
  exists t. split; [exact Ht|]. split; [exact Hr|]. split; [exact Hi|].
  split; [exact Hs|]. split.
  { apply (Hat 2 20). apply elem_of_cons. right. apply list_elem_of_here. }
  exists t'. split; [exact Ht'|]. split; [exact Hi'|exact (Hat' 2)].
Defined.

(** The slot array of a table of three pairs in eight slots. *)
Lemma pos_is_slot_witness :
  ∃ t, of_list [(1, 10); (2, 20); (3, 30)] None = Some t ∧ reach t ∧
    (∀ i a, storage t !! i = Some (Some a) →
       Some a ≠ end_ t ∧ ∃ it, heap t !! a = Some it ∧ pos it = i) ∧
    (∀ a it, heap t !! a = Some it → Some a ≠ end_ t →
       storage t !! pos it = Some (Some a)).
Proof.
  destruct (of_list [(1, 10); (2, 20); (3, 30)] None) as [t|] eqn:E;
    [|by vm_compute in E].
  assert (reach t) as Hr by (eapply reach_of_list; exact E).
  exists t. split; [reflexivity|]. split; [exact Hr|].
  exact (pos_is_slot hc 0 0 0 t Hr).
Defined.

Lemma size_counts_occupied_slots_witness :
  ∃ t, of_list [(1, 10); (2, 20); (3, 30)] None = Some t ∧ reach t ∧
    length (storage t) = 8 ∧ length (occupied (storage t)) = 3 ∧
    NoDup (occupied (storage t)).
Proof.
  destruct (of_list [(1, 10); (2, 20); (3, 30)] None) as [t|] eqn:E;
    [|by vm_compute in E].
  assert (reach t) as Hr by (eapply reach_of_list; exact E).
  assert (capacity_ t = 8) as Hc.
  { vm_compute in E. injection E as <-. reflexivity. }
  assert (size t = 3) as Hs.
  { vm_compute in E. injection E as <-. reflexivity. }
  destruct (size_counts_occupied_slots hc 0 0 0 t Hr) as (H1 & H2 & H3 & _).
  exists t. split; [reflexivity|]. split; [exact Hr|].
  split; [rewrite H1; exact Hc|]. split; [rewrite <- H2; exact Hs|exact H3].
Defined.

(** The keys 7, 15 and 23 share the home slot 7 of eight slots; the
    probe for 23 passes two slots, and the probe for 31, which the
    table does not hold, three. *)
Lemma find_pos_contract_witness :
  ∃ t, of_list [(7, 1); (15, 2); (23, 3)] None = Some t ∧ reach t ∧
    get_hash hc t 23 = Some 7 ∧ find_pos hc t 23 = Some 1 ∧
    get_hash hc t 31 = Some 7 ∧ find_pos hc t 31 = Some 2 ∧
    storage t !! 2 = Some None ∧
    ∀ d, d < 3 →
      ∃ a it, storage t !! Nat.iter d (cyclic_inc t) 7 = Some (Some a) ∧
              heap t !! a = Some it ∧ (keyValue it).1 ≠ 31.
Proof.
  destruct (of_list [(7, 1); (15, 2); (23, 3)] None) as [t|] eqn:E;
    [|by vm_compute in E].
  assert (reach t) as Hr by (eapply reach_of_list; exact E).
  assert (capacity_ t = 8) as Hc.
  { vm_compute in E. injection E as <-. reflexivity. }
  assert (get_hash hc t 23 = Some 7) as Hh23.
  { vm_compute in E. injection E as <-. vm_compute. reflexivity. }
  assert (find_pos hc t 23 = Some 1) as Hf23.
  { vm_compute in E. injection E as <-. vm_compute. reflexivity. }
  assert (get_hash hc t 31 = Some 7) as Hh31.
  { vm_compute in E. injection E as <-. vm_compute. reflexivity. }
  assert (find_pos hc t 31 = Some 2) as Hf31.
  { vm_compute in E. injection E as <-. vm_compute. reflexivity. }
  destruct (find_pos_contract hc 0 0 0 t 31 Hr) as (h & j & Hh & Hf & _ & _ & Hb & Hcase).
  rewrite Hh31 in Hh. injection Hh as <-.
  rewrite Hf31 in Hf. injection Hf as <-.
  rewrite Hc in Hb. change (cdist 8 7 2) with 3 in Hb.
  exists t. split; [reflexivity|]. split; [exact Hr|].
  split; [exact Hh23|]. split; [exact Hf23|]. split; [exact Hh31|].
  split; [exact Hf31|]. split; [|exact Hb].
  destruct Hcase as [[Hn _]|(a & it & Ha & _)]; [exact Hn|].
  vm_compute in E. injection E as <-. vm_compute in Ha. discriminate.
Defined.

Lemma cyclic_inc_cycle_witness :
  ∃ t, of_list [(1, 10); (2, 20)] None = Some t ∧ 0 < capacity_ t ∧
    (∃ h, get_hash hc t 6 = Some h ∧ h < capacity_ t) ∧
    cyclic_inc t 3 < capacity_ t ∧
    Nat.iter (capacity_ t) (cyclic_inc t) 3 = 3.
Proof.
  destruct (of_list [(1, 10); (2, 20)] None) as [t|] eqn:E; [|by vm_compute in E].
  assert (capacity_ t = 4) as Hc.
  { vm_compute in E. injection E as <-. reflexivity. }
  assert (0 < capacity_ t) as H0 by (rewrite Hc; lia).
  assert (3 < capacity_ t) as H3 by (rewrite Hc; lia).
  destruct (cyclic_inc_cycle hc t H0) as (Hh & Hi & _).
  exists t. split; [reflexivity|]. split; [exact H0|]. split; [exact (Hh 6)|].
  exact (Hi 3 H3).
Defined.

(** An insertion that rehashes, an [erase], an [operator[]] and a
    [clear]. *)
Lemma operations_keep_end_and_slots_witness :
  ∃ t, of_list [(1, 10); (2, 20)] None = Some t ∧ reach t ∧
    ∃ t' n, run_operations hc 0 [Insert (3, 30); Erase 1; Index 9; Clear] t
              = Some t' ∧
      reach t' ∧ end_ t' = end_ t ∧ capacity_ t' = capacity_ t * 2 ^ n.
Proof.
  destruct (of_list [(1, 10); (2, 20)] None) as [t|] eqn:E; [|by vm_compute in E].
  assert (reach t) as Hr by (eapply reach_of_list; exact E).
  exists t. split; [reflexivity|]. split; [exact Hr|].
  exact (operations_keep_end_and_slots hc 0 0 0
           [Insert (3, 30); Erase 1; Index 9; Clear] t Hr).
Defined.

(** The keys of the table, in another order and with a key the table
    does not hold. *)
Lemma erase_every_key_empties_witness :
  ∃ t, of_list [(1, 10); (2, 20); (3, 30)] None = Some t ∧ reach t ∧
    iterate t = Some [(1, 10); (2, 20); (3, 30)] ∧
    ∃ t', run_operations hc 0 [Erase 3; Erase 7; Erase 1; Erase 2] t = Some t' ∧
      empty t' = true ∧ iterate t' = Some [] ∧ capacity_ t' = capacity_ t.
Proof.
  destruct (of_list [(1, 10); (2, 20); (3, 30)] None) as [t|] eqn:E;
    [|by vm_compute in E].
  assert (reach t) as Hr by (eapply reach_of_list; exact E).
  assert (iterate t = Some [(1, 10); (2, 20); (3, 30)]) as Hi.
  { vm_compute in E. injection E as <-. by vm_compute. }
  assert (∀ k, k ∈ [(1, 10); (2, 20); (3, 30)].*1 → k ∈ [3; 7; 1; 2]) as Hall.
  { intros k Hk. simpl in Hk.
    apply elem_of_cons in Hk as [->|Hk];
      [apply elem_of_cons; right; apply elem_of_cons; right; apply list_elem_of_here|].
    apply elem_of_cons in Hk as [->|Hk];
      [do 3 (apply elem_of_cons; right); apply list_elem_of_here|].
    apply elem_of_cons in Hk as [->|Hk]; [apply list_elem_of_here|].
    apply elem_of_nil in Hk. destruct Hk. }
  destruct (erase_every_key_empties hc 0 0 0 t _ [3; 7; 1; 2] Hr Hi Hall)
    as (t' & Hrun & He & _ & Hit & _ & Hc).
  exists t. split; [reflexivity|]. split; [exact Hr|]. split; [exact Hi|].
  exists t'. split; [exact Hrun|]. split; [exact He|]. split; [exact Hit|exact Hc].
Defined.

(** From the iterator of the key 2 one step leads to that of the key 3,
    and iterating on yields the pairs of 2 and 3. *)
Lemma iterator_walk_from_find_witness :
  ∃ t, of_list [(1, 10); (2, 20); (3, 30)] None = Some t ∧ reach t ∧
    iterate t = Some ([(1, 10)] ++ (2, 20) :: [(3, 30)]) ∧
    ∃ a nx, find hc 2 t = Some (Some a) ∧
      iterator_deref t (Some a) = Some (2, 20) ∧
      iterator_incr t (Some a) = Some nx ∧
      Some nx = find hc 3 t ∧
      iterate_loop (base.size (heap t)) t (Some a) = Some [(2, 20); (3, 30)].
Proof.
  destruct (of_list [(1, 10); (2, 20); (3, 30)] None) as [t|] eqn:E;
    [|by vm_compute in E].
  assert (reach t) as Hr by (eapply reach_of_list; exact E).
  assert (iterate t = Some ([(1, 10)] ++ (2, 20) :: [(3, 30)])) as Hi.
  { vm_compute in E. injection E as <-. by vm_compute. }
  destruct (iterator_walk_from_find hc 0 0 0 t [(1, 10)] 2 20 [(3, 30)] Hr Hi)
    as (a & nx & Hf & _ & Hd & Hn & _ & Hnx & Hl & _).
  exists t. split; [reflexivity|]. split; [exact Hr|]. split; [exact Hi|].
  exists a, nx. split; [exact Hf|]. split; [exact Hd|]. split; [exact Hn|].
  split; [exact Hnx|exact Hl].
Defined.

(** A table of three pairs in eight slots, rehashed into sixteen and
    into five slots. *)
Lemma resize_keeps_lookups_witness :
  ∃ t, of_list [(1, 10); (2, 20); (3, 30)] None = Some t ∧ reach t ∧
    size t * 4 < 16 * 3 ∧ size t * 4 < 5 * 3 ∧
    (∃ t', resize hc 16 t = Some t' ∧ capacity_ t' = 16 ∧
       find hc 2 t' = find hc 2 t ∧ at_ hc 2 t' = at_ hc 2 t) ∧
    (∃ t', resize hc 5 t = Some t' ∧ capacity_ t' = 5 ∧
       find hc 2 t' = find hc 2 t ∧ at_ hc 2 t' = at_ hc 2 t).
Proof.
  destruct (of_list [(1, 10); (2, 20); (3, 30)] None) as [t|] eqn:E;
    [|by vm_compute in E].
  assert (reach t) as Hr by (eapply reach_of_list; exact E).
  assert (size t = 3) as Hs.
  { vm_compute in E. injection E as <-. reflexivity. }
  assert (size t * 4 < 16 * 3) as H16 by (rewrite Hs; lia).
  assert (size t * 4 < 5 * 3) as H5 by (rewrite Hs; lia).
  destruct (resize_keeps_lookups hc 0 0 0 t 16 Hr H16) as (t1 & Hr1 & Hc1 & _ & Hl1 & _).
  destruct (resize_keeps_lookups hc 0 0 0 t 5 Hr H5) as (t2 & Hr2 & Hc2 & _ & Hl2 & _).
  exists t. split; [reflexivity|]. split; [exact Hr|]. split; [exact H16|].
  split; [exact H5|]. split.
  - exists t1. split; [exact Hr1|]. split; [exact Hc1|]. exact (Hl1 2).
  - exists t2. split; [exact Hr2|]. split; [exact Hc2|]. exact (Hl2 2).
Defined.

Lemma delete_item_undoes_create_item_witness :
  ∃ t, of_list [(1, 10); (2, 20)] None = Some t ∧ reach t ∧
    ∃ a t1, create_item 3 30 t = Some (Some a, t1) ∧ heap t !! a = None ∧
      iterator_deref t1 (Some a) = Some (3, 30) ∧
      delete_item (Some a) t1 = Some t.
Proof.
  destruct (of_list [(1, 10); (2, 20)] None) as [t|] eqn:E; [|by vm_compute in E].
  assert (reach t) as Hr by (eapply reach_of_list; exact E).
  destruct (delete_item_undoes_create_item hc 0 0 0 t 3 30 Hr)
    as (a & t1 & Hc & Ha & Hd & _ & Hdel).
  exists t. split; [reflexivity|]. split; [exact Hr|].
  exists a, t1. split; [exact Hc|]. split; [exact Ha|]. split; [exact Hd|exact Hdel].
Defined.

(** A table of five pairs in eight slots, and its copy. *)
Lemma built_tables_are_tight_witness :
  ∃ other, of_list [(1, 10); (2, 20); (3, 30); (4, 40); (5, 50)] None = Some other ∧
    reach other ∧ tight other ∧
    ∃ t, HashMap_copy hc 0 0 0 other (Some 5) = Some t ∧ tight t ∧
         capacity_ t ≤ capacity_ other.
Proof.
  destruct (built_tables_are_tight hc 0 0 0) as (H1 & H2 & _).
  destruct (H1 [(1, 10); (2, 20); (3, 30); (4, 40); (5, 50)] None)
    as (other & Ho & Ht).
  assert (reach other) as Hr by (eapply reach_of_list; exact Ho).
  exists other. split; [exact Ho|]. split; [exact Hr|]. split; [exact Ht|].
  exact (H2 other (Some 5) Hr).
Defined.

End Witnesses.
